(** * Benchmark harness of nuremageris: statistics, case runner, CSV, orchestrator

    A shallow embedding of the benchmark runner (the file that defines
    [percentile], [computeStats], [runCase], [toCsv] and [main]) together
    with the case registry it imports ([cases], [caseMap]) and the adapter
    interface [DbAdapter].

    Conventions of the embedding.
    - A JavaScript number that holds a finite value is a rational [Q].
      The non-finite numbers and [undefined] are kept as separate
      constructors of [jsval], because the code can produce them
      ([0 / 0], an array read out of range).  The machine rounds every
      result to binary64, and so does the embedding, by
      [Binary64.round64]: the duration [t1 - t0], every sum and the
      quotient of the mean, the total of an order in the seed script.
      [percentile] alone takes its index exactly, which defines it at
      every rational percent; the index with the quotient and the
      product rounded is [Binary64.percentile].  The two read the same
      element at the percents the code asks for, in every array of
      fewer than [2^32] elements, the most an array holds
      ([percentile_binary64_exact]), and the theorems on the nearest
      rank are stated on [Binary64.percentile].
    - Loop counters and counts ([warmup], [iterations], [errors]) are
      integers [Z]; a [for (i = 0; i < n; i++)] loop over an integer [n]
      runs [Z.to_nat n] times.
    - Asynchronous calls are sequential state transformers: every [await]
      in the source waits for the call to settle before the next statement
      runs, so a promise is its settled outcome.
    - The harness state carries a chronological [trace] of the calls the
      harness makes; the trace is ghost state used to state temporal
      properties.  What a call does is done to the world and to the
      context object: the theorems on the calls of a run name the state
      the run ends in, as the state the same calls leave when they are
      made one after the other outside the harness ([calls],
      [timed_calls], [served]).

    The file also embeds the raw SQL adapter ([RawSqlAdapter]) and the
    seed script.
    - The driver and the database are a record of functions over an
      abstract world ([Pg]): a call on the pool or on a client returns
      whatever the record says, so every theorem holds for every
      database.  The calls made are logged in order ([pg_log]), again as
      ghost state.
    - The text of a statement is the string the code builds, character
      for character, line breaks and indentation of the template
      literals included.
    - The random data and the clock of the seed script are a second
      record of functions ([Faker]); [parseFloat] of a generated price is
      taken to be a finite number.  [toLowerCase] is the one of ASCII,
      which is all the script applies it to.
    - A [for (i = 0; i < n; i += step)] loop is bounded by a fuel of
      [Z.to_nat n] turns, more than it can make. *)

From Stdlib Require Import List String Ascii Bool ZArith NArith QArith Qround Qabs.
From Stdlib Require Import Lia Lqa Permutation Sorted DecimalString.
From Stdlib Require PrimFloat FloatOps SpecFloat Uint63.
Import ListNotations.

Local Open Scope Z_scope.

(* ------------------------------------------------------------------ *)
(** * JavaScript values that flow through the statistics *)
(* ------------------------------------------------------------------ *)

Inductive jsval : Type :=
| Num (q : Q)                 (* a finite number *)
| NaN
| Infinity (negative : bool)
| Undefined.

(** [arr[i]] for an integer index: [undefined] outside the array. *)
Definition index (arr : list Q) (i : Z) : jsval :=
  if i <? 0 then Undefined
  else match nth_error arr (Z.to_nat i) with
       | Some x => Num x
       | None => Undefined
       end.

(** [v ?? d] *)
Definition nullish (v d : jsval) : jsval :=
  match v with
  | Undefined => d
  | _ => v
  end.

(** [arr.length] *)
Definition len {A} (arr : list A) : Z := Z.of_nat (List.length arr).

(* ------------------------------------------------------------------ *)
(** * The numbers of the machine *)
(* ------------------------------------------------------------------ *)

(** The numbers of the machine are the binary64 numbers: a result is
    rounded to the nearest of them, a tie to the one whose last bit is
    0.  [round64] is that rounding on the exact value (53 bits; below
    [2^-1022] the gap stays that of the subnormal numbers).  It does not
    overflow: no number of the statistics comes near [2^1024]. *)
Module Binary64.

(** [2^e] for an integer exponent of either sign. *)
Definition pow2 (e : Z) : Q :=
  inject_Z (2 ^ Z.max e 0) / inject_Z (2 ^ Z.max (- e) 0).

(** Rounding to the nearest integer, a tie to the even one. *)
Definition round_half_even (q : Q) : Z :=
  let f := Qfloor q in
  match Qcompare (q - inject_Z f) (1 # 2) with
  | Lt => f
  | Gt => f + 1
  | Eq => if Z.even f then f else f + 1
  end.

(** The binary exponent of a positive number [a]: [2^e <= a < 2^(e+1)]. *)
Definition exponent (a : Q) : Z :=
  let e := Z.log2 (Qnum a) - Z.log2 (Zpos (Qden a)) in
  if Qle_bool (pow2 e) a then e else e - 1.

(** The binary64 number nearest to [q]. *)
Definition round64 (q : Q) : Q :=
  if Qeq_bool q 0 then 0%Q
  else
    let a := Qabs q in
    let e := Z.max (exponent a) (-1022) in
    let ulp := pow2 (e - 52) in
    let m := round_half_even (a / ulp) in
    Qred ((if Qle_bool 0 q then 1 else -1) * (inject_Z m * ulp)).

(** [percentile(sorted, p)] as the machine computes it:
    [Math.ceil((p / 100) * sorted.length) - 1] with the quotient and the
    product rounded; [p] and [sorted.length] are numbers of the machine
    themselves. *)
Definition percentile (sorted : list Q) (p : Q) : jsval :=
  if len sorted =? 0 then Num 0
  else
    let idx := Qceiling (round64 (round64 (p / 100) * inject_Z (len sorted))) - 1 in
    index sorted (Z.max 0 idx).

End Binary64.

(** [a / b] on finite numbers, the quotient rounded. *)
Definition js_div (a b : Q) : jsval :=
  if Qeq_bool b 0 then
    if Qeq_bool a 0 then NaN
    else Infinity (negb (Qle_bool 0 a))
  else Num (Binary64.round64 (a / b)).

(* ------------------------------------------------------------------ *)
(** * Stats helpers *)
(* ------------------------------------------------------------------ *)

(** [[...timings].sort((a, b) => a - b)]: the stable ascending sort of a
    copy.  The result of a stable sort does not depend on the algorithm; it
    is written here as an insertion sort that puts an element before the
    elements of the sorted tail that are not smaller. *)
Fixpoint insert_asc (x : Q) (sorted : list Q) : list Q :=
  match sorted with
  | [] => [x]
  | y :: rest => if Qle_bool x y then x :: y :: rest else y :: insert_asc x rest
  end.

Fixpoint sort_asc (timings : list Q) : list Q :=
  match timings with
  | [] => []
  | x :: rest => insert_asc x (sort_asc rest)
  end.

(** [percentile(sorted, p)], the quotient [p / 100] and the product with
    [sorted.length] taken exactly.  [Binary64.percentile] above rounds
    both as the machine does; at the percents 50, 95 and 99, the ones
    [computeStats] asks for, it reads the same element
    ([percentile_binary64_exact]). *)
Definition percentile (sorted : list Q) (p : Q) : jsval :=
  if len sorted =? 0 then Num 0
  else
    let idx := Qceiling ((p / 100) * inject_Z (len sorted)) - 1 in
    index sorted (Z.max 0 idx).

(** The object [computeStats] returns. *)
Module Stats.
Record t : Type := mk {
  mean : jsval;
  p50 : jsval;
  p95 : jsval;
  p99 : jsval;
  min : jsval;
  max : jsval
}.
End Stats.

(** [interface RunResult] *)
Module RunResult.
Record t : Type := mk {
  adapter : string;
  case : string;
  warmup : Z;
  iterations : Z;
  timings_ms : list Q;
  mean : jsval;
  p50 : jsval;
  p95 : jsval;
  p99 : jsval;
  min : jsval;
  max : jsval;
  errors : Z
}.
End RunResult.

(** [computeStats(timings)].  [reduce((s, v) => s + v, 0)] rounds every
    sum, and the quotient by the length is rounded in turn. *)
Definition computeStats (timings : list Q) : Stats.t :=
  let sorted := sort_asc timings in
  let mean := js_div (fold_left (fun s v => Binary64.round64 (s + v)) timings 0%Q)
                     (inject_Z (len timings)) in
  {| Stats.mean := mean;
     Stats.p50 := percentile sorted 50;
     Stats.p95 := percentile sorted 95;
     Stats.p99 := percentile sorted 99;
     Stats.min := nullish (index sorted 0) (Num 0);
     Stats.max := nullish (index sorted (len sorted - 1)) (Num 0) |}.

(** The nearest-rank index of the specification: [ceil(P/100 * n) - 1]
    clamped to [[0, n-1]]. *)
Definition clamp (lo hi x : Z) : Z := Z.max lo (Z.min hi x).

Definition nearest_rank (p : Q) (n : Z) : Z :=
  clamp 0 (n - 1) (Qceiling ((p / 100) * inject_Z n) - 1).

(* ------------------------------------------------------------------ *)
(** * The rounding compared with the numbers of the kernel *)
(* ------------------------------------------------------------------ *)

(** The binary64 numbers of the kernel of the proof assistant, which
    are those of the machine it runs on, give a second reading of the
    product [(p / 100) * n], to compare [round64] with. *)

(** The value of a binary64 number of the kernel, when it is finite. *)
Definition float_value (f : PrimFloat.float) : option Q :=
  match FloatOps.Prim2SF f with
  | SpecFloat.S754_zero _ => Some 0%Q
  | SpecFloat.S754_finite negative m e =>
      Some ((if negative then -1 else 1) * (inject_Z (Zpos m) * Binary64.pow2 e))%Q
  | _ => None
  end.

Definition float_of (z : Z) : PrimFloat.float := PrimFloat.of_uint63 (Uint63.of_Z z).

(** [(p / 100) * n] by the division and the multiplication of the
    kernel. *)
Definition machine_product (p n : Z) : option Q :=
  float_value (PrimFloat.mul (PrimFloat.div (float_of p) (float_of 100)) (float_of n)).

(** The two readings of the product agree at [p] and [n]. *)
Definition same_product (p n : Z) : bool :=
  match machine_product p n with
  | Some x =>
      Qeq_bool x (Binary64.round64 (Binary64.round64 (inject_Z p / 100) * inject_Z n))
  | None => false
  end.

(** [i / 10] by the division of the kernel, and by [round64]. *)
Definition machine_tenth (i : Z) : PrimFloat.float :=
  PrimFloat.div (float_of i) (float_of 10).

Definition tenth (i : Z) : Q := Binary64.round64 (inject_Z i / 10).

(** The two readings of the sum and of the difference of two tenths
    agree. *)
Definition same_sum (i j : Z) : bool :=
  match float_value (PrimFloat.add (machine_tenth i) (machine_tenth j)),
        float_value (PrimFloat.sub (machine_tenth i) (machine_tenth j)) with
  | Some s, Some d =>
      Qeq_bool s (Binary64.round64 (tenth i + tenth j))
      && Qeq_bool d (Binary64.round64 (tenth i - tenth j))
  | _, _ => false
  end.

(** The hundred durations 1, 2, ..., 100. *)
Definition one_to_hundred : list Q := map (fun n => inject_Z (Z.of_nat n)) (seq 1 100).

(** The quotients [P / 100] of the integer percents, rounded: positive,
    and within [2^-54] of the exact quotient. *)
Definition quotient_near (P : Z) : bool :=
  let x := (inject_Z P / 100)%Q in
  let c := Binary64.round64 x in
  negb (Qle_bool c 0) && Qle_bool (Qabs (x - c)) (1 # 18014398509481984).

(* ------------------------------------------------------------------ *)
(** * Errors and completions *)
(* ------------------------------------------------------------------ *)

(** What a [throw] or a rejected promise carries. *)
Inductive exn : Type :=
| Error (msg : string)
| TypeError (msg : string)
| RangeError (msg : string)
| Rejection (reason : string).

(** How a statement ends: normally, by an exception that [try] can catch,
    or by [process.exit], which ends the process at once (no [catch] and
    no [finally] block runs after it). *)
Inductive completion (A : Type) : Type :=
| Normal (a : A)
| Throw (e : exn)
| Exit (code : Z).

Arguments Normal {A} a.
Arguments Throw {A} e.
Arguments Exit {A} code.

(* ------------------------------------------------------------------ *)
(** * Strings and number formatting *)
(* ------------------------------------------------------------------ *)

Local Open Scope string_scope.
Local Open Scope Z_scope.

(** [xs.join(sep)] on an array of strings. *)
Fixpoint join (sep : string) (xs : list string) : string :=
  match xs with
  | [] => EmptyString
  | x :: rest =>
      match rest with
      | [] => x
      | _ :: _ => x ++ sep ++ join sep rest
      end
  end.

Fixpoint repeat_char (c : ascii) (n : nat) : string :=
  match n with
  | O => EmptyString
  | S k => String c (repeat_char c k)
  end.

(** [s.padStart(n)] and [s.padEnd(n)], padding with spaces. *)
Definition padStart (s : string) (n : nat) : string :=
  repeat_char " "%char (n - String.length s)%nat ++ s.

Definition padEnd (s : string) (n : nat) : string :=
  s ++ repeat_char " "%char (n - String.length s)%nat.

(** The line feed and the double quote, as one-character strings. *)
Definition LF : string := String (ascii_of_nat 10) EmptyString.
Definition DQ : string := String (ascii_of_nat 34) EmptyString.

(** The decimal digits of a natural number, ["0"] for zero. *)
Definition dec (n : N) : string := NilZero.string_of_uint (N.to_uint n).

Definition substring_from (k : nat) (s : string) : string :=
  String.substring k (String.length s - k)%nat s.

Section Format.

(** [Number::toString] at magnitudes of [10^21] and above prints the
    exponent form of the shortest digits that read back as the same
    binary64 value.  That string is not a function of the exact value
    alone, so it is taken as a parameter. *)
Variable Number_toString_exp : Q -> string.

(** [String(z)] for an integer-valued number, as [join] and template
    literals convert it. *)
Definition Number_toString_int (z : Z) : string :=
  if Z.abs z <? 10 ^ 21 then
    (if z <? 0 then "-" else EmptyString) ++ dec (Z.abs_N z)
  else Number_toString_exp (inject_Z z).

(** The first step of [toFixed] on a number: more than 100 fractional
    digits are refused, whatever the number. *)
Definition digits_checked (f : nat) (c : completion string) : completion string :=
  if (100 <? f)%nat then
    Throw (RangeError "toFixed() digits argument must be between 0 and 100")
  else c.

(** [x.toFixed(f)] (Number.prototype.toFixed): round half up to [f]
    fractional digits; a value that is not finite, or of magnitude
    [10^21] and above, is printed by [Number::toString]; [f] above 100
    throws a [RangeError]; reading the method off [undefined] throws. *)
Definition toFixed (x : jsval) (f : nat) : completion string :=
  match x with
  | Undefined =>
      Throw (TypeError "Cannot read properties of undefined (reading 'toFixed')")
  | NaN => digits_checked f (Normal "NaN")
  | Infinity negative =>
      digits_checked f (Normal (if negative then "-Infinity" else "Infinity"))
  | Num q =>
      digits_checked f
        (if Qle_bool (inject_Z (10 ^ 21)) (Qabs q) then Normal (Number_toString_exp q)
         else
           let s := if Qle_bool 0 q then EmptyString else "-" in
           let n := Qfloor (Qabs q * inject_Z (10 ^ Z.of_nat f) + (1 # 2)) in
           let m := dec (Z.to_N n) in
           if Nat.eqb f 0 then Normal (s ++ m)
           else
             let m := repeat_char "0"%char (f + 1 - String.length m)%nat ++ m in
             let k := String.length m in
             Normal (s ++ String.substring 0 (k - f)%nat m ++ "."
                       ++ substring_from (k - f)%nat m))
  end.

(** Sequencing of pure computations that may throw. *)
Definition and_then {A B} (c : completion A) (k : A -> completion B) : completion B :=
  match c with
  | Normal a => k a
  | Throw e => Throw e
  | Exit code => Exit code
  end.

Fixpoint map_throwing {A B} (f : A -> completion B) (xs : list A) : completion (list B) :=
  match xs with
  | [] => Normal []
  | x :: rest =>
      and_then (f x) (fun y =>
      and_then (map_throwing f rest) (fun ys => Normal (y :: ys)))
  end.

Definition csv_header : string :=
  "adapter,case,iterations,mean_ms,p50_ms,p95_ms,p99_ms,min_ms,max_ms,errors".

(** The callback of [results.map] in [toCsv]: the array literal is
    evaluated left to right, then joined with commas. *)
Definition csv_row (r : RunResult.t) : completion string :=
  and_then (toFixed (RunResult.mean r) 3) (fun mean =>
  and_then (toFixed (RunResult.p50 r) 3) (fun p50 =>
  and_then (toFixed (RunResult.p95 r) 3) (fun p95 =>
  and_then (toFixed (RunResult.p99 r) 3) (fun p99 =>
  and_then (toFixed (RunResult.min r) 3) (fun min =>
  and_then (toFixed (RunResult.max r) 3) (fun max =>
  Normal (join ","
    [ RunResult.adapter r; RunResult.case r;
      Number_toString_int (RunResult.iterations r);
      mean; p50; p95; p99; min; max;
      Number_toString_int (RunResult.errors r) ]))))))).

Definition toCsv (results : list RunResult.t) : completion string :=
  and_then (map_throwing csv_row results) (fun rows =>
  Normal (join LF (csv_header :: rows))).

End Format.

(* ------------------------------------------------------------------ *)
(** * Sequential effects: state, exceptions, process exit *)
(* ------------------------------------------------------------------ *)

(** A statement over a state [S]. *)
Definition M (S A : Type) : Type := S -> completion A * S.

Definition ret {S A} (a : A) : M S A := fun s => (Normal a, s).

Definition bind {S A B} (m : M S A) (k : A -> M S B) : M S B :=
  fun s =>
    match m s with
    | (Normal a, s') => k a s'
    | (Throw e, s') => (Throw e, s')
    | (Exit code, s') => (Exit code, s')
    end.

Definition throw {S A} (e : exn) : M S A := fun s => (Throw e, s).

(** [process.exit(code)] *)
Definition process_exit {S A} (code : Z) : M S A := fun s => (Exit code, s).

(** [try { m } catch { h }] *)
Definition try_catch {S A} (m : M S A) (h : exn -> M S A) : M S A :=
  fun s =>
    match m s with
    | (Throw e, s') => h e s'
    | other => other
    end.

(** [try { m } finally { f }]: [f] runs after a normal or an exceptional
    end of [m]; an exception of [f] replaces the completion of [m]. *)
Definition try_finally {S A} (m : M S A) (f : M S unit) : M S A :=
  fun s =>
    match m s with
    | (Exit code, s') => (Exit code, s')
    | (c, s') =>
        match f s' with
        | (Normal _, s'') => (c, s'')
        | (Throw e, s'') => (Throw e, s'')
        | (Exit code, s'') => (Exit code, s'')
        end
    end.

(** A pure computation that may throw, as a statement. *)
Definition lift {S A} (c : completion A) : M S A := fun s => (c, s).

Notation "x <- m ;; k" := (bind m (fun x => k))
  (at level 61, m at next level, right associativity).
Notation "m ;; k" := (bind m (fun _ => k))
  (at level 61, right associativity).
Notation "' pat <- m ;; k" := (bind m (fun x => match x with pat => k end))
  (at level 61, pat pattern, m at next level, right associativity).

(** The calls the harness makes, in the order it makes them. *)
Inductive event : Type :=
| EvConstruct (adapterName : string)          (* createAdapter returned an instance *)
| EvClose (adapterName : string)              (* adapter.close() was invoked *)
| EvSetup (caseName : string) (ok : bool)     (* bench.setup settled *)
| EvRun (caseName : string) (ok : bool)       (* bench.run settled *)
| EvTeardown (caseName : string) (ok : bool)  (* bench.teardown settled *)
| EvStdout (text : string)
| EvStderr (text : string)
| EvMkdir (dir : string)
| EvWriteFile (path : string) (data : string).

(** [ADAPTER_NAMES] *)
Definition ADAPTER_NAMES : list string := ["raw"; "knex"; "dal"; "orm"].

(** The string-keyed properties every plain object inherits from
    [Object.prototype]; each holds a function, except [__proto__], which
    reads as the prototype object itself. *)
Definition Object_prototype_keys : list string :=
  [ "constructor"; "hasOwnProperty"; "isPrototypeOf"; "propertyIsEnumerable";
    "toLocaleString"; "toString"; "valueOf"; "__proto__";
    "__defineGetter__"; "__defineSetter__"; "__lookupGetter__"; "__lookupSetter__" ].

Definition mem (x : string) (xs : list string) : bool :=
  existsb (String.eqb x) xs.

(** [s.replace(/[:.]/g, '-')] *)
Fixpoint replace_colon_dot (s : string) : string :=
  match s with
  | EmptyString => EmptyString
  | String c rest =>
      String (if (Ascii.eqb c ":" || Ascii.eqb c ".")%char then "-"%char else c)
             (replace_colon_dot rest)
  end.

(** [String(err)] as [console.error] shows an exception. *)
Definition exn_text (e : exn) : string :=
  match e with
  | Error msg => "Error: " ++ msg
  | TypeError msg => "TypeError: " ++ msg
  | RangeError msg => "RangeError: " ++ msg
  | Rejection reason => reason
  end.

(* ------------------------------------------------------------------ *)
(** * The harness *)
(* ------------------------------------------------------------------ *)

(** How an awaited promise settles. *)
Inductive Outcome : Type :=
| Fulfilled
| Rejected (e : exn).

Section Harness.

(** Everything outside the harness: the database, the connection pools,
    the clock, the file system. *)
Variable World : Type.

(** One awaited operation on the outside world.  The value a fulfilled
    promise carries is never read by the harness. *)
Definition Call : Type := World -> Outcome * World.

(** [interface DbAdapter].  Arguments the cases pass as literals are
    kept; the filter, sort, page and row objects are left out. *)
Record DbAdapter : Type := {
  findUserById : jsval -> Call;
  findUserByEmail : string -> Call;
  listUsers : Call;
  getOrderWithDetails : Z -> Call;
  getUserOrderTotals : Z -> Call;
  getLastOrderPerUser : Z -> Call;
  batchGetUsers : list Z -> Call;
  insertOneUser : Call;
  insertManyProducts : Call;
  createOrderWithItems : Call;
  updateOrderStatus : Z -> string -> Call;
  deleteOrder : Z -> Call;
  close : Call
}.

(** [interface CaseContext]: the mutable scratch object of one run. *)
Definition CaseContext : Type := list (string * jsval).

(** A lifecycle operation of a case: it may change the context object
    and the world, whether it fulfils or rejects. *)
Definition Op : Type := DbAdapter -> CaseContext -> World -> Outcome * CaseContext * World.

(** [interface BenchCase] *)
Record BenchCase : Type := {
  name : string;
  description : string;
  setup : option Op;
  run : Op;
  teardown : option Op
}.

(** The runtime the harness calls into. *)
Record Host : Type := {
  performance_now : World -> Q * World;
  Date_toISOString : World -> string * World;
  path_join : string -> string -> string;
  JSON_stringify : list RunResult.t -> string;
  Number_toString_exp : Q -> string;
  fs_mkdirSync : string -> World -> option exn * World;
  fs_writeFileSync : string -> string -> World -> option exn * World;
  new_RawSqlAdapter : World -> (exn + DbAdapter) * World;
  new_QueryBuilderAdapter : World -> (exn + DbAdapter) * World;
  new_DataAccessLayerAdapter : World -> (exn + DbAdapter) * World;
  new_PrismaAdapter : World -> (exn + DbAdapter) * World
}.

Variable host : Host.

(** The registry exported by the cases module. *)
Variable cases : list BenchCase.

(** The state the harness runs in. *)
Record HState : Type := mkH {
  world : World;
  ctx : CaseContext;
  trace : list event
}.

Definition log (e : event) : M HState unit :=
  fun s => (Normal tt, mkH (world s) (ctx s) (trace s ++ [e])).

Definition console_log (text : string) : M HState unit := log (EvStdout (text ++ LF)).
Definition console_error (text : string) : M HState unit := log (EvStderr (text ++ LF)).
Definition stdout_write (text : string) : M HState unit := log (EvStdout text).

Definition completion_of (o : Outcome) : completion unit :=
  match o with
  | Fulfilled => Normal tt
  | Rejected e => Throw e
  end.

Definition fulfilled (o : Outcome) : bool :=
  match o with
  | Fulfilled => true
  | Rejected _ => false
  end.

(** [await op(adapter, ctx)]; [ev] records how the call settled. *)
Definition await_op (ev : bool -> event) (op : Op) (adapter : DbAdapter) : M HState unit :=
  fun s =>
    let '(o, c, w) := op adapter (ctx s) (world s) in
    (completion_of o, mkH w c (trace s ++ [ev (fulfilled o)])).

(** [performance.now()] *)
Definition now : M HState Q :=
  fun s =>
    let '(t, w) := performance_now host (world s) in
    (Normal t, mkH w (ctx s) (trace s)).

(** [const ctx: CaseContext = {}] *)
Definition fresh_ctx : M HState unit :=
  fun s => (Normal tt, mkH (world s) [] (trace s)).

(* ---------------------------------------------------------------- *)
(** ** Adapter registry *)

Definition construct (adapterName : string)
           (new : World -> (exn + DbAdapter) * World) : M HState DbAdapter :=
  fun s =>
    match new (world s) with
    | (inl e, w) => (Throw e, mkH w (ctx s) (trace s))
    | (inr a, w) => (Normal a, mkH w (ctx s) (trace s ++ [EvConstruct adapterName]))
    end.

Definition createAdapter (name : string) : M HState DbAdapter :=
  if String.eqb name "raw" then construct name (new_RawSqlAdapter host)
  else if String.eqb name "knex" then construct name (new_QueryBuilderAdapter host)
  else if String.eqb name "dal" then construct name (new_DataAccessLayerAdapter host)
  else if String.eqb name "orm" then construct name (new_PrismaAdapter host)
  else throw (Error ("Unknown adapter: " ++ name ++ ". Valid: " ++ join ", " ADAPTER_NAMES)).

(** [await adapter.close()] *)
Definition adapter_close (adapterName : string) (adapter : DbAdapter) : M HState unit :=
  fun s =>
    let '(o, w) := close adapter (world s) in
    (completion_of o, mkH w (ctx s) (trace s ++ [EvClose adapterName])).

(* ---------------------------------------------------------------- *)
(** ** Case lookup *)

(** What [caseMap[key]] reads as.  [caseMap] is built by
    [Object.fromEntries], so it is a plain object: a key that is not an
    own property is looked up in [Object.prototype]. *)
Inductive property : Type :=
| OwnCase (c : BenchCase)
| Inherited (key : string)
| Missing.

(** Own properties: a later entry of the same name replaces an earlier
    one. *)
Fixpoint own_case (entries : list BenchCase) (key : string) : option BenchCase :=
  match entries with
  | [] => None
  | c :: rest =>
      match own_case rest key with
      | Some later => Some later
      | None => if String.eqb (name c) key then Some c else None
      end
  end.

Definition caseMap (key : string) : property :=
  match own_case cases key with
  | Some c => OwnCase c
  | None => if mem key Object_prototype_keys then Inherited key else Missing
  end.

(** [!bench] is false for an object and for a function, true for
    [undefined]. *)
Definition truthy (bench : property) : bool :=
  match bench with
  | OwnCase _ | Inherited _ => true
  | Missing => false
  end.

(** [bench.setup], [bench.run], [bench.teardown]: the members of
    [Object.prototype] have no such properties. *)
Definition get_setup (bench : property) : option Op :=
  match bench with
  | OwnCase c => setup c
  | _ => None
  end.

Definition get_run (bench : property) : option Op :=
  match bench with
  | OwnCase c => Some (run c)
  | _ => None
  end.

Definition get_teardown (bench : property) : option Op :=
  match bench with
  | OwnCase c => teardown c
  | _ => None
  end.

(* ---------------------------------------------------------------- *)
(** ** Single case execution *)

(** [await bench.run(adapter, ctx)]; calling a property that is
    [undefined] throws a [TypeError]. *)
Definition await_run (bench : property) (caseName : string) (adapter : DbAdapter)
  : M HState unit :=
  match get_run bench with
  | Some op => await_op (EvRun caseName) op adapter
  | None =>
      log (EvRun caseName false) ;;
      throw (TypeError "bench.run is not a function")
  end.

(** [if (bench.f) await bench.f(adapter, ctx)] *)
Definition await_optional (ev : bool -> event) (f : option Op) (adapter : DbAdapter)
  : M HState unit :=
  match f with
  | Some op => await_op ev op adapter
  | None => ret tt
  end.

(** The warmup loop, [n] iterations to go. *)
Fixpoint warmup_loop (bench : property) (caseName : string) (adapter : DbAdapter)
         (n : nat) : M HState unit :=
  match n with
  | O => ret tt
  | S k =>
      try_catch (await_run bench caseName adapter) (fun _ => ret tt) ;;
      warmup_loop bench caseName adapter k
  end.

(** One iteration of the measured loop on the local variables
    [timings] and [errors]. *)
Definition measure_iteration (bench : property) (caseName : string) (adapter : DbAdapter)
           (timings : list Q) (errors : Z) : M HState (list Q * Z) :=
  t0 <- now ;;
  errors' <- try_catch (await_run bench caseName adapter ;; ret errors)
                       (fun _ => ret (errors + 1)) ;;
  t1 <- now ;;
  ret ((timings ++ [Binary64.round64 (t1 - t0)])%list, errors').

(** The measured loop, [n] iterations to go. *)
Fixpoint measure_loop (bench : property) (caseName : string) (adapter : DbAdapter)
         (n : nat) (timings : list Q) (errors : Z) : M HState (list Q * Z) :=
  match n with
  | O => ret (timings, errors)
  | S k =>
      '(timings', errors') <- measure_iteration bench caseName adapter timings errors ;;
      measure_loop bench caseName adapter k timings' errors'
  end.

Definition runCase (adapter : DbAdapter) (caseName adapterName : string)
           (warmup iterations : Z) : M HState RunResult.t :=
  let bench := caseMap caseName in
  if negb (truthy bench) then throw (Error ("Unknown case: " ++ caseName))
  else
    fresh_ctx ;;
    await_optional (EvSetup caseName) (get_setup bench) adapter ;;
    warmup_loop bench caseName adapter (Z.to_nat warmup) ;;
    '(timings, errors) <- measure_loop bench caseName adapter (Z.to_nat iterations) [] 0 ;;
    await_optional (EvTeardown caseName) (get_teardown bench) adapter ;;
    let stats := computeStats timings in
    ret {| RunResult.adapter := adapterName;
           RunResult.case := caseName;
           RunResult.warmup := warmup;
           RunResult.iterations := iterations;
           RunResult.timings_ms := timings;
           RunResult.errors := errors;
           RunResult.mean := Stats.mean stats;
           RunResult.p50 := Stats.p50 stats;
           RunResult.p95 := Stats.p95 stats;
           RunResult.p99 := Stats.p99 stats;
           RunResult.min := Stats.min stats;
           RunResult.max := Stats.max stats |}.

(* ---------------------------------------------------------------- *)
(** ** CLI: [main] after the command line is parsed

    [adapterNames] and [caseOption] are the values of [--adapter] and
    [--case] already split at commas and trimmed ([caseOption] is [None]
    when the option is absent or empty); [warmup] and [iterations] are
    the numbers read from their options. *)

(** [for (const a of adapterNames) if (!ADAPTER_NAMES.includes(a)) ...] *)
Fixpoint validate_adapters (adapterNames : list string) : M HState unit :=
  match adapterNames with
  | [] => ret tt
  | a :: rest =>
      (if mem a ADAPTER_NAMES then ret tt
       else
         console_error ("Unknown adapter " ++ DQ ++ a ++ DQ ++ ". Valid: "
                        ++ join ", " ADAPTER_NAMES) ;;
         process_exit 1) ;;
      validate_adapters rest
  end.

(** [for (const c of caseNames) if (!caseMap[c]) ...] *)
Fixpoint validate_cases (caseNames : list string) : M HState unit :=
  match caseNames with
  | [] => ret tt
  | c :: rest =>
      (if truthy (caseMap c) then ret tt
       else
         console_error ("Unknown case " ++ DQ ++ c ++ DQ ++ ". Valid: "
                        ++ join ", " (map name cases)) ;;
         process_exit 1) ;;
      validate_cases rest
  end.

Definition mkdirSync (dir : string) : M HState unit :=
  fun s =>
    let '(r, w) := fs_mkdirSync host dir (world s) in
    (match r with Some e => Throw e | None => Normal tt end,
     mkH w (ctx s) (trace s ++ [EvMkdir dir])).

Definition writeFileSync (path data : string) : M HState unit :=
  fun s =>
    let '(r, w) := fs_writeFileSync host path data (world s) in
    (match r with Some e => Throw e | None => Normal tt end,
     mkH w (ctx s) (trace s ++ [EvWriteFile path data])).

(** [new Date().toISOString()] *)
Definition toISOString : M HState string :=
  fun s =>
    let '(t, w) := Date_toISOString host (world s) in
    (Normal t, mkH w (ctx s) (trace s)).

Definition toString (z : Z) : string := Number_toString_int (Number_toString_exp host) z.

(** The progress line printed after a case has run. *)
Definition progress_line (result : RunResult.t) : completion string :=
  and_then (toFixed (Number_toString_exp host) (RunResult.mean result) 2) (fun mean =>
  and_then (toFixed (Number_toString_exp host) (RunResult.p50 result) 2) (fun p50 =>
  and_then (toFixed (Number_toString_exp host) (RunResult.p95 result) 2) (fun p95 =>
  Normal ("mean=" ++ padStart mean 7 ++ "ms  " ++
          "p50=" ++ padStart p50 7 ++ "ms  " ++
          "p95=" ++ padStart p95 7 ++ "ms  " ++
          "err=" ++ toString (RunResult.errors result))))).

(** [for (const caseName of caseNames) { ... }], the body of the [try]
    block; [allResults] is the array the results are pushed to. *)
Fixpoint cases_loop (adapter : DbAdapter) (adapterName : string) (caseNames : list string)
         (warmup iterations : Z) (allResults : list RunResult.t)
  : M HState (list RunResult.t) :=
  match caseNames with
  | [] => ret allResults
  | caseName :: rest =>
      stdout_write ("  " ++ padEnd caseName 30 ++ " ") ;;
      result <- runCase adapter caseName adapterName warmup iterations ;;
      line <- lift (progress_line result) ;;
      console_log line ;;
      cases_loop adapter adapterName rest warmup iterations (allResults ++ [result])
  end.

(** [for (const adapterName of adapterNames) { ... }] *)
Fixpoint adapters_loop (adapterNames caseNames : list string) (warmup iterations : Z)
         (allResults : list RunResult.t) : M HState (list RunResult.t) :=
  match adapterNames with
  | [] => ret allResults
  | adapterName :: rest =>
      console_log ("── " ++ adapterName ++ " ──") ;;
      adapter <- createAdapter adapterName ;;
      allResults' <- try_finally
                       (cases_loop adapter adapterName caseNames warmup iterations allResults)
                       (adapter_close adapterName adapter) ;;
      console_log EmptyString ;;
      adapters_loop rest caseNames warmup iterations allResults'
  end.

Definition main (adapterNames : list string) (caseOption : option (list string))
           (warmup iterations : Z) (outDir : string) : M HState unit :=
  let caseNames :=
    match caseOption with
    | Some names => names
    | None => map name cases
    end in
  validate_adapters adapterNames ;;
  validate_cases caseNames ;;
  mkdirSync outDir ;;
  console_log (LF ++ "Benchmark  warmup=" ++ toString warmup
               ++ "  iterations=" ++ toString iterations) ;;
  console_log ("Adapters : " ++ join ", " adapterNames) ;;
  console_log ("Cases    : " ++ join ", " caseNames ++ LF) ;;
  allResults <- adapters_loop adapterNames caseNames warmup iterations [] ;;
  iso <- toISOString ;;
  let ts := replace_colon_dot iso in
  let jsonPath := path_join host outDir ("results_" ++ ts ++ ".json") in
  let csvPath := path_join host outDir ("summary_" ++ ts ++ ".csv") in
  writeFileSync jsonPath (JSON_stringify host allResults) ;;
  csv <- lift (toCsv (Number_toString_exp host) allResults) ;;
  writeFileSync csvPath csv ;;
  console_log ("Results:" ++ LF ++ "  " ++ jsonPath ++ LF ++ "  " ++ csvPath).

(** [main().catch(err => { console.error(err); process.exit(1) })]; a
    process whose [main] returns ends with status 0. *)
Definition program (adapterNames : list string) (caseOption : option (list string))
           (warmup iterations : Z) (outDir : string) : M HState unit :=
  try_catch (main adapterNames caseOption warmup iterations outDir)
            (fun err => console_error (exn_text err) ;; process_exit 1).

End Harness.

Arguments mkH {World} world ctx trace.
Arguments world {World} h.
Arguments ctx {World} h.
Arguments trace {World} h.
Arguments name {World} b.
Arguments description {World} b.
Arguments setup {World} b.
Arguments run {World} b.
Arguments teardown {World} b.
Arguments findUserById {World} d.
Arguments findUserByEmail {World} d.
Arguments listUsers {World} d.
Arguments getOrderWithDetails {World} d.
Arguments getUserOrderTotals {World} d.
Arguments getLastOrderPerUser {World} d.
Arguments batchGetUsers {World} d.
Arguments insertOneUser {World} d.
Arguments insertManyProducts {World} d.
Arguments createOrderWithItems {World} d.
Arguments updateOrderStatus {World} d.
Arguments deleteOrder {World} d.
Arguments close {World} d.
Arguments performance_now {World} h.
Arguments Number_toString_exp {World} h.
Arguments OwnCase {World} c.
Arguments Inherited {World} key.
Arguments Missing {World}.
Arguments log {World} e.
Arguments await_op {World} ev op adapter.
Arguments await_optional {World} ev f adapter.
Arguments now {World} host.
Arguments fresh_ctx {World}.
Arguments createAdapter {World} host name.
Arguments adapter_close {World} adapterName adapter.
Arguments caseMap {World} cases key.
Arguments truthy {World} bench.
Arguments get_setup {World} bench.
Arguments get_run {World} bench.
Arguments get_teardown {World} bench.
Arguments await_run {World} bench caseName adapter.
Arguments warmup_loop {World} bench caseName adapter n.
Arguments measure_iteration {World} host bench caseName adapter timings errors.
Arguments measure_loop {World} host bench caseName adapter n timings errors.
Arguments runCase {World} host cases adapter caseName adapterName warmup iterations.
Arguments validate_adapters {World} adapterNames.
Arguments validate_cases {World} cases caseNames.
Arguments cases_loop {World} host cases adapter adapterName caseNames warmup iterations allResults.
Arguments adapters_loop {World} host cases adapterNames caseNames warmup iterations allResults.
Arguments main {World} host cases adapterNames caseOption warmup iterations outDir.
Arguments program {World} host cases adapterNames caseOption warmup iterations outDir.

(* ------------------------------------------------------------------ *)
(** * The case definitions shipped with the benchmark *)
(* ------------------------------------------------------------------ *)

Module Registry.
Section Cases.

Variable World : Type.

(** [ctx[key]] and [ctx[key] = v] *)
Definition ctx_get (c : CaseContext) (key : string) : jsval :=
  match find (fun kv => String.eqb (fst kv) key) c with
  | Some kv => snd kv
  | None => Undefined
  end.

Definition ctx_set (c : CaseContext) (key : string) (v : jsval) : CaseContext :=
  (key, v) :: filter (fun kv => negb (String.eqb (fst kv) key)) c.

(** [async run(adapter) { return adapter.method(...) }] *)
Definition calling (method : DbAdapter World -> Call World) : Op World :=
  fun adapter c w => let '(o, w') := method adapter w in (o, c, w').

Definition bench (name description : string) (run : Op World) : BenchCase World :=
  {| name := name; description := description;
     setup := None; run := run; teardown := None |}.

Definition cases : list (BenchCase World) :=
  [ {| name := "findUserById";
       description := "PK lookup - SELECT by id";
       setup := Some (fun _ c w => (Fulfilled, ctx_set c "userId" (Num 500), w));
       run := fun adapter c w =>
                let '(o, w') := findUserById adapter (ctx_get c "userId") w in
                (o, c, w');
       teardown := None |};
    bench "findUserByEmail" "Lookup by indexed email field"
          (calling (fun a => findUserByEmail a "user_500@example.com"));
    bench "listUsers_paged" "Paginated list – page 1, 20 rows, ORDER BY created_at DESC"
          (calling (@listUsers World));
    bench "listUsers_filtered" "Paginated list with ILIKE name filter"
          (calling (@listUsers World));
    bench "getOrderWithDetails" "JOIN orders + users + order_items + products (3 tables)"
          (calling (fun a => getOrderWithDetails a 100));
    bench "getUserOrderTotals" "Aggregation – SUM total per user with GROUP BY"
          (calling (fun a => getUserOrderTotals a 50));
    bench "getLastOrderPerUser" "CTE + ROW_NUMBER – Top-1 order per user"
          (calling (fun a => getLastOrderPerUser a 50));
    bench "batchGetUsers" "Batch fetch – WHERE id IN (...) for 100 ids"
          (calling (fun a => batchGetUsers a (map Z.of_nat (seq 1 100))));
    bench "insertOneUser" "Single INSERT INTO users RETURNING"
          (calling (@insertOneUser World));
    bench "insertManyProducts_100" "Bulk INSERT 100 rows in one statement"
          (calling (@insertManyProducts World));
    bench "createOrderWithItems" "Transactional write – order + 3 items + payment"
          (calling (@createOrderWithItems World));
    bench "updateOrderStatus" "UPDATE single row by PK"
          (calling (fun a => updateOrderStatus a 1 "shipped")) ].

End Cases.
End Registry.

(* ------------------------------------------------------------------ *)
(** * A small concrete world, for running the harness *)
(* ------------------------------------------------------------------ *)

Module Sample.

(** The world is the reading of the clock, in milliseconds. *)
Definition World : Type := Z.

(** A call that takes [cost] milliseconds and settles as [o]. *)
Definition call (cost : Z) (o : Outcome) : Call World :=
  fun w => (o, w + cost).

(** An adapter all of whose operations take [cost] milliseconds and
    settle as [o]; [close] fulfils. *)
Definition adapter (cost : Z) (o : Outcome) : DbAdapter World :=
  {| findUserById := fun _ => call cost o;
     findUserByEmail := fun _ => call cost o;
     listUsers := call cost o;
     getOrderWithDetails := fun _ => call cost o;
     getUserOrderTotals := fun _ => call cost o;
     getLastOrderPerUser := fun _ => call cost o;
     batchGetUsers := fun _ => call cost o;
     insertOneUser := call cost o;
     insertManyProducts := call cost o;
     createOrderWithItems := call cost o;
     updateOrderStatus := fun _ _ => call cost o;
     deleteOrder := fun _ => call cost o;
     close := call 0 Fulfilled |}.

Definition refused : Outcome := Rejected (Rejection "connection refused").

(** A host whose [raw] adapter works, whose [knex] adapter fails every
    operation, and whose file system accepts every write. *)
Definition host : Host World :=
  {| performance_now := fun w => (inject_Z w, w);
     Date_toISOString := fun w => ("2024-05-06T07:08:09.010Z", w);
     path_join := fun dir file => dir ++ "/" ++ file;
     JSON_stringify := fun _ => "[]";
     Number_toString_exp := fun _ => "1e+21";
     fs_mkdirSync := fun _ w => (None, w);
     fs_writeFileSync := fun _ _ w => (None, w);
     new_RawSqlAdapter := fun w => (inr (adapter 2 Fulfilled), w);
     new_QueryBuilderAdapter := fun w => (inr (adapter 3 refused), w);
     new_DataAccessLayerAdapter := fun w => (inr (adapter 5 Fulfilled), w);
     new_PrismaAdapter := fun w => (inr (adapter 7 Fulfilled), w) |}.

Definition start : HState World := mkH 0 [] [].


Definition broken_setup : BenchCase World :=
  {| name := "brokenSetup";
     description := "setup rejects";
     setup := Some (fun _ c w => (refused, c, w));
     run := Registry.calling World listUsers;
     teardown := None |}.

(** The shipped case [findUserById] on an adapter that refuses every
    call: one warmup call, three measured calls. *)
Definition refused_run : completion RunResult.t * HState World :=
  runCase host (Registry.cases World) (adapter 3 refused)
          "findUserById" "knex" 1 3 start.


(** Two adapters selected, one registered case whose setup rejects. *)
Definition setup_failure_run : completion unit * HState World :=
  program host [broken_setup] ["raw"; "knex"] None 1 2 "out" start.

(** A run with zero measured iterations. *)
Definition empty_run : completion RunResult.t * HState World :=
  runCase host (Registry.cases World) (adapter 2 Fulfilled) "findUserById" "raw" 1 0 start.

End Sample.

(* ================================================================== *)
(** * Vocabulary of the properties *)
(* ================================================================== *)

(** The object literal [runCase] returns. *)
Definition assemble (adapterName caseName : string) (warmup iterations : Z)
           (timings : list Q) (errors : Z) : RunResult.t :=
  let stats := computeStats timings in
  {| RunResult.adapter := adapterName;
     RunResult.case := caseName;
     RunResult.warmup := warmup;
     RunResult.iterations := iterations;
     RunResult.timings_ms := timings;
     RunResult.errors := errors;
     RunResult.mean := Stats.mean stats;
     RunResult.p50 := Stats.p50 stats;
     RunResult.p95 := Stats.p95 stats;
     RunResult.p99 := Stats.p99 stats;
     RunResult.min := Stats.min stats;
     RunResult.max := Stats.max stats |}.

(** The number of failed calls among the settled calls [oks]. *)
Definition count_failed (oks : list bool) : Z :=
  len (filter negb oks).

(** The [EvRun] events of a trace, as the list of how the calls settled. *)
Fixpoint run_outcomes (evs : list event) : list bool :=
  match evs with
  | [] => []
  | EvRun _ ok :: rest => ok :: run_outcomes rest
  | _ :: rest => run_outcomes rest
  end.

(** An operation that, called on [adapter], fulfils, or rejects with [e],
    whatever the context and the world. *)
Definition always_fulfils {World} (adapter : DbAdapter World) (op : Op World) : Prop :=
  forall c w, fst (fst (op adapter c w)) = Fulfilled.

Definition always_rejects_with {World} (e : exn) (adapter : DbAdapter World) (op : Op World)
  : Prop :=
  forall c w, fst (fst (op adapter c w)) = Rejected e.

(** An optional lifecycle operation that cannot fail on [adapter]: absent,
    or always fulfilling. *)
Definition cannot_fail {World} (adapter : DbAdapter World) (f : option (Op World)) : Prop :=
  match f with
  | Some op => always_fulfils adapter op
  | None => True
  end.

(** The measured operation of a looked-up case fails on every call on
    [adapter]. *)
Definition run_always_fails {World} (adapter : DbAdapter World) (bench : property World)
  : Prop :=
  match get_run bench with
  | Some op => forall c w, fulfilled (fst (fst (op adapter c w))) = false
  | None => True
  end.

(** The adapter lifecycle as an automaton over the trace.  The state is
    the adapter that is constructed and not yet closed, if any.  An
    adapter is constructed only when none is open; [close] is invoked only
    on the open adapter, and closes it; a case operation runs only while
    an adapter is open; output is always allowed. *)
Definition lc_step (open : option string) (e : event) : option (option string) :=
  match e, open with
  | EvConstruct a, None => Some (Some a)
  | EvConstruct _, Some _ => None
  | EvClose a, Some b => if String.eqb a b then Some None else None
  | EvClose _, None => None
  | (EvSetup _ _ | EvRun _ _ | EvTeardown _ _), Some b => Some (Some b)
  | (EvSetup _ _ | EvRun _ _ | EvTeardown _ _), None => None
  | _, _ => Some open
  end.

Fixpoint lc_run (open : option string) (evs : list event) : option (option string) :=
  match evs with
  | [] => Some open
  | e :: rest =>
      match lc_step open e with
      | Some open' => lc_run open' rest
      | None => None
      end
  end.

(** A trace in which every constructed adapter is closed exactly once,
    after its case operations and before the next adapter is constructed. *)
Definition balanced (evs : list event) : Prop := lc_run None evs = Some None.

(** The adapters constructed, and the adapters closed, in order. *)
Fixpoint constructs (evs : list event) : list string :=
  match evs with
  | [] => []
  | EvConstruct a :: rest => a :: constructs rest
  | _ :: rest => constructs rest
  end.

Fixpoint closes (evs : list event) : list string :=
  match evs with
  | [] => []
  | EvClose a :: rest => a :: closes rest
  | _ :: rest => closes rest
  end.

Definition is_lifecycle (e : event) : bool :=
  match e with
  | EvConstruct _ | EvClose _ => true
  | _ => false
  end.

Definition is_output (e : event) : bool :=
  match e with
  | EvStdout _ | EvStderr _ | EvMkdir _ | EvWriteFile _ _ => true
  | _ => false
  end.

Definition not_lifecycle (e : event) : bool := negb (is_lifecycle e).

(** A statement whose every run appends to the trace only events that
    satisfy [P]. *)
Definition emits (World : Type) (P : event -> bool) {A} (m : M (HState World) A) : Prop :=
  forall s c s', m s = (c, s') ->
    exists evs, trace s' = (trace s ++ evs)%list /\ forallb P evs = true.

(** A statement that never ends the process. *)
Definition no_exit (World : Type) {A} (m : M (HState World) A) : Prop :=
  forall s c s', m s = (c, s') -> forall code, c <> Exit code.

(** A statement of the case runner: it neither constructs nor closes an
    adapter, and never ends the process. *)
Definition calm (World : Type) {A} (m : M (HState World) A) : Prop :=
  emits World not_lifecycle m /\ no_exit World m.

(** A statement whose trace is balanced and which, when it ends normally,
    has constructed exactly the adapters [names]. *)
Definition lifecycled (World : Type) (names : list string) {A} (m : M (HState World) A) : Prop :=
  forall s c s', m s = (c, s') ->
    exists evs,
      trace s' = (trace s ++ evs)%list /\ balanced evs /\
      (forall a, c = Normal a -> constructs evs = names).

(** The names the validation of [main] rejects. *)
Definition unknown_adapter (a : string) : bool := negb (mem a ADAPTER_NAMES).

Definition unknown_case {World} (cases : list (BenchCase World)) (c : string) : bool :=
  negb (mem c (map name cases)) && negb (mem c Object_prototype_keys).

(** The lines the validation writes to the error stream. *)
Definition unknown_adapter_message (a : string) : string :=
  ("Unknown adapter " ++ DQ ++ a ++ DQ ++ ". Valid: " ++ join ", " ADAPTER_NAMES) ++ LF.

Definition unknown_case_message {World} (cases : list (BenchCase World)) (c : string) : string :=
  ("Unknown case " ++ DQ ++ c ++ DQ ++ ". Valid: " ++ join ", " (map name cases)) ++ LF.

(** The ASCII decimal digits. *)
Definition is_digit (c : ascii) : bool :=
  (48 <=? nat_of_ascii c)%nat && (nat_of_ascii c <=? 57)%nat.

Fixpoint all_digits (text : string) : bool :=
  match text with
  | EmptyString => true
  | String c rest => is_digit c && all_digits rest
  end.

(** Fixed-point notation with exactly [f] fractional digits: an optional
    minus sign, at least one digit, a point, [f] digits. *)
Definition fixed_point (f : nat) (text : string) : Prop :=
  exists sign int frac,
    text = sign ++ int ++ "." ++ frac /\
    (sign = EmptyString \/ sign = "-") /\
    int <> EmptyString /\
    all_digits int = true /\
    all_digits frac = true /\
    String.length frac = f.

(** A statistic that holds a finite number below [10^21] in magnitude. *)
Definition finite_stat (v : jsval) : Prop :=
  exists q, v = Num q /\ (Qabs q < inject_Z (10 ^ 21))%Q.

Definition finite_stats (r : RunResult.t) : Prop :=
  finite_stat (RunResult.mean r) /\ finite_stat (RunResult.p50 r) /\
  finite_stat (RunResult.p95 r) /\ finite_stat (RunResult.p99 r) /\
  finite_stat (RunResult.min r) /\ finite_stat (RunResult.max r).

(** [row] is the data row of [r]: the ten columns in order, joined by
    commas, each of the six statistics printed by [toFixed(3)] in
    fixed-point notation. *)
Definition table_row (exp : Q -> string) (r : RunResult.t) (row : string) : Prop :=
  exists mean p50 p95 p99 min max,
    row = join "," [ RunResult.adapter r; RunResult.case r;
                     Number_toString_int exp (RunResult.iterations r);
                     mean; p50; p95; p99; min; max;
                     Number_toString_int exp (RunResult.errors r) ] /\
    toFixed exp (RunResult.mean r) 3 = Normal mean /\ fixed_point 3 mean /\
    toFixed exp (RunResult.p50 r) 3 = Normal p50 /\ fixed_point 3 p50 /\
    toFixed exp (RunResult.p95 r) 3 = Normal p95 /\ fixed_point 3 p95 /\
    toFixed exp (RunResult.p99 r) 3 = Normal p99 /\ fixed_point 3 p99 /\
    toFixed exp (RunResult.min r) 3 = Normal min /\ fixed_point 3 min /\
    toFixed exp (RunResult.max r) 3 = Normal max /\ fixed_point 3 max.

(* ================================================================== *)
(** * Vocabulary of the further properties of the runner *)
(* ================================================================== *)

(** Two values that print and compare alike: the same kind of value, and
    for finite numbers the same rational. *)
Definition same_number (u v : jsval) : Prop :=
  match u, v with
  | Num a, Num b => (a == b)%Q
  | NaN, NaN => True
  | Infinity s, Infinity t => s = t
  | Undefined, Undefined => True
  | _, _ => False
  end.

(** The same order statistics: percentiles, min and max. *)
Definition same_order_statistics (a b : Stats.t) : Prop :=
  same_number (Stats.p50 a) (Stats.p50 b) /\
  same_number (Stats.p95 a) (Stats.p95 b) /\
  same_number (Stats.p99 a) (Stats.p99 b) /\
  same_number (Stats.min a) (Stats.min b) /\
  same_number (Stats.max a) (Stats.max b).

(** A result none of whose statistics is [undefined]. *)
Definition defined_stats (r : RunResult.t) : Prop :=
  RunResult.mean r <> Undefined /\ RunResult.p50 r <> Undefined /\
  RunResult.p95 r <> Undefined /\ RunResult.p99 r <> Undefined /\
  RunResult.min r <> Undefined /\ RunResult.max r <> Undefined.

(** The files a trace writes, in order, each with its content. *)
Fixpoint writes (evs : list event) : list (string * string) :=
  match evs with
  | [] => []
  | EvWriteFile path data :: rest => (path, data) :: writes rest
  | _ :: rest => writes rest
  end.

Definition is_case_event (e : event) : bool :=
  match e with
  | EvSetup _ _ | EvRun _ _ | EvTeardown _ _ => true
  | _ => false
  end.

Definition is_console (e : event) : bool :=
  match e with
  | EvStdout _ | EvStderr _ => true
  | _ => false
  end.

(** Everything but a file write. *)
Definition not_write (e : event) : bool :=
  match e with
  | EvWriteFile _ _ => false
  | _ => true
  end.

(** Everything the loop over the cases of one adapter may do. *)
Definition case_or_console (e : event) : bool := is_case_event e || is_console e.

(** The pair a result is filed under. *)
Definition result_key (r : RunResult.t) : string * string :=
  (RunResult.adapter r, RunResult.case r).

(** Console output and the creation of the output directory. *)
Definition console_or_mkdir (e : event) : bool :=
  match e with
  | EvStdout _ | EvStderr _ | EvMkdir _ => true
  | _ => false
  end.

(** Two adapters and two shipped cases selected, everything succeeds. *)
Definition report_run : completion unit * HState Sample.World :=
  main Sample.host (Registry.cases Sample.World) ["raw"; "dal"]
       (Some ["findUserById"; "listUsers_paged"]) 1 2 "out" Sample.start.

(** The [knex] adapter of the sample host refuses every call, yet the
    measured loop absorbs the failures: the report is still written. *)
Definition refusing_program_run : completion unit * HState Sample.World :=
  program Sample.host (Registry.cases Sample.World) ["knex"; "raw"]
          (Some ["listUsers_paged"]) 0 1 "out" Sample.start.

(* ================================================================== *)
(** * The calls of a run, replayed on the world *)
(* ================================================================== *)

(** The trace says which calls the harness makes; what the calls do is
    done to the world and to the context object.  The definitions below
    replay, outside the harness, the calls the specification asks for, so
    that a theorem can say of the state the harness ends in that it is the
    state these calls leave. *)

(** [await bench.run(adapter, ctx)] on its own: the operation of the case
    applied to the context and the world; for a property that is no case
    the call throws before anything is touched. *)
Definition call_run {World} (bench : property World) (adapter : DbAdapter World)
           (c : CaseContext) (w : World) : Outcome * CaseContext * World :=
  match get_run bench with
  | Some op => op adapter c w
  | None => (Rejected (TypeError "bench.run is not a function"), c, w)
  end.

(** An optional hook ([setup], [teardown]) applied to the context and the
    world; an absent hook changes nothing. *)
Definition call_hook {World} (f : option (Op World)) (adapter : DbAdapter World)
           (c : CaseContext) (w : World) : Outcome * CaseContext * World :=
  match f with
  | Some op => op adapter c w
  | None => (Fulfilled, c, w)
  end.

(** The event a hook leaves in the trace: none when the hook is absent. *)
Definition hook_events {World} (ev : bool -> event) (f : option (Op World)) (o : Outcome)
  : list event :=
  match f with
  | Some _ => [ev (fulfilled o)]
  | None => []
  end.

(** [n] calls one after the other, each on the context and the world the
    previous one left, whether it fulfilled or rejected: how each call
    settled, and the context and the world after the last. *)
Fixpoint calls {World} (call : CaseContext -> World -> Outcome * CaseContext * World)
         (n : nat) (c : CaseContext) (w : World) : list bool * CaseContext * World :=
  match n with
  | O => ([], c, w)
  | S k =>
      let '(o, c1, w1) := call c w in
      let '(oks, c2, w2) := calls call k c1 w1 in
      (fulfilled o :: oks, c2, w2)
  end.

(** One timed call: the clock is read, the call is made, the clock is read
    again; the sample is the difference of the two readings, together with
    how the call settled. *)
Definition timed_call {World} (clock : World -> Q * World)
           (call : CaseContext -> World -> Outcome * CaseContext * World)
           (c : CaseContext) (w : World) : (Q * bool) * CaseContext * World :=
  let '(t0, w0) := clock w in
  let '(o, c1, w1) := call c w0 in
  let '(t1, w2) := clock w1 in
  ((Binary64.round64 (t1 - t0), fulfilled o), c1, w2).

(** [n] timed calls one after the other. *)
Fixpoint timed_calls {World} (clock : World -> Q * World)
         (call : CaseContext -> World -> Outcome * CaseContext * World)
         (n : nat) (c : CaseContext) (w : World) : list (Q * bool) * CaseContext * World :=
  match n with
  | O => ([], c, w)
  | S k =>
      let '(sample, c1, w1) := timed_call clock call c w in
      let '(samples, c2, w2) := timed_calls clock call k c1 w1 in
      (sample :: samples, c2, w2)
  end.

(** The state after [console.log] of the banner of an adapter. *)
Definition announced {World} (adapterName : string) (s : HState World) : HState World :=
  mkH (world s) (ctx s) (trace s ++ [EvStdout (("── " ++ adapterName ++ " ──") ++ LF)]).

(** The state after [adapter.close()] has fulfilled and the empty line
    has been printed. *)
Definition closed_by {World} (adapterName : string) (adapter : DbAdapter World)
           (s : HState World) : HState World :=
  mkH (snd (close adapter (world s))) (ctx s)
      (trace s ++ [EvClose adapterName; EvStdout (EmptyString ++ LF)]).

(** The adapters [names] have been served one after the other, from the
    state [s] and the results [allResults] to the state [s'] and the
    results [results]: each was constructed, the loop over the cases
    returned on it, and its [close], applied to the world the cases left,
    fulfilled. *)
Inductive served {World} (host : Host World) (cases : list (BenchCase World))
          (caseNames : list string) (warmup iterations : Z)
  : list string -> list RunResult.t -> HState World ->
    list RunResult.t -> HState World -> Prop :=
| served_none (allResults : list RunResult.t) (s : HState World) :
    served host cases caseNames warmup iterations [] allResults s allResults s
| served_next (a : string) (rest : list string) (allResults mid results : list RunResult.t)
              (s s1 s2 s' : HState World) (adapter : DbAdapter World) :
    createAdapter host a (announced a s) = (Normal adapter, s1) ->
    cases_loop host cases adapter a caseNames warmup iterations allResults s1
    = (Normal mid, s2) ->
    fst (close adapter (world s2)) = Fulfilled ->
    served host cases caseNames warmup iterations rest mid (closed_by a adapter s2) results s' ->
    served host cases caseNames warmup iterations (a :: rest) allResults s results s'.

(* ================================================================== *)
(** * The raw SQL adapter *)
(* ================================================================== *)

Module RawSql.

(** A value bound to a placeholder of a statement. *)
Inductive sqlparam : Type :=
| PNumber (q : Q)
| PText (text : string)
| PDate (time : Z)
| PNumbers (qs : list Q)
| PNull
| PUndefined.

Record ListUsersFilters : Type :=
  { createdAfter : option Z;       (* a [Date], by its time value *)
    search : option string }.

Record SortOptions : Type := { field : string; dir : string }.

Record PageOptions : Type := { page : Q; limit : Q }.

Record NewProduct : Type :=
  { categoryId : Q; name : string; price : Q; stock : Q }.

Record NewOrderItem : Type := { productId : Q; quantity : Q; unitPrice : Q }.

Record NewOrderInput : Type :=
  { userId : Q; items : list NewOrderItem; paymentAmount : Q }.

(** What [query] resolves to. *)
Record QueryResult (Row : Type) : Type :=
  { rows : list Row; rowCount : option Z }.

Arguments rows {Row} q.
Arguments rowCount {Row} q.

(** The row of [getOrderWithDetails] the order and the user are read
    from, and the rows of its items. *)
Record OrderWithDetails (Row : Type) : Type :=
  { order_row : Row; order_items : list Row }.

(** The calls made on the pool and on a client checked out of it. *)
Inductive pgevent : Type :=
| PgQuery (sql : string) (params : list sqlparam)        (* pool.query *)
| PgConnect                                              (* pool.connect *)
| PgClientQuery (sql : string) (params : list sqlparam)  (* client.query *)
| PgRelease                                              (* client.release *)
| PgEnd.                                                 (* pool.end *)

(** The driver and the database behind it. *)
Record Pg (World Row : Type) : Type :=
  { pg_query : string -> list sqlparam -> World -> (exn + QueryResult Row) * World;
    pg_connect : World -> option exn * World;
    pg_client_query : string -> list sqlparam -> World -> (exn + QueryResult Row) * World;
    pg_release : World -> option exn * World;
    pg_end : World -> option exn * World;
    (** [row.id] *)
    row_id : Row -> sqlparam }.

Arguments pg_query {World Row} p sql params w.
Arguments pg_connect {World Row} p w.
Arguments pg_client_query {World Row} p sql params w.
Arguments pg_release {World Row} p w.
Arguments pg_end {World Row} p w.
Arguments row_id {World Row} p row.

Record PgState (World : Type) : Type :=
  mkPg { pg_world : World; pg_log : list pgevent }.

Arguments mkPg {World} pg_world pg_log.
Arguments pg_world {World} p.
Arguments pg_log {World} p.

(** [ALLOWED_SORT_FIELDS] *)
Definition ALLOWED_SORT_FIELDS : list string := ["id"; "name"; "email"; "created_at"].

(** [`($${i * 4 + 1}, $${i * 4 + 2}, $${i * 4 + 3}, $${i * 4 + 4})`] *)
Definition tuple4 (i : N) : string :=
  "($" ++ dec (i * 4 + 1) ++ ", $" ++ dec (i * 4 + 2) ++ ", $" ++ dec (i * 4 + 3)
  ++ ", $" ++ dec (i * 4 + 4) ++ ")".

(** [data.map((_, i) => f(i))] *)
Definition map_index {A B} (f : N -> B) (data : list A) : list B :=
  map (fun i => f (N.of_nat i)) (seq 0 (List.length data)).

Definition placeholders4 {A} (data : list A) : string := join ", " (map_index tuple4 data).

(** [xs.flatMap(f)], where [f] may throw. *)
Definition flatMap_throwing {A B} (f : A -> completion (list B)) (xs : list A)
  : completion (list B) :=
  and_then (map_throwing f xs) (fun ys => Normal (List.concat ys)).

(** [if (text)] for an optional string: [undefined] and the empty string
    are falsy. *)
Definition nonempty (text : option string) : bool :=
  match text with
  | Some (String _ _) => true
  | _ => false
  end.

(** The statement and the parameters of [listUsers]. *)
Definition listUsers_query (filters : ListUsersFilters) (sort : SortOptions)
           (paging : PageOptions) : string * list sqlparam :=
  let conditions : list string := [] in
  let params : list sqlparam := [] in
  let p : N := 1%N in
  let '(conditions, params, p) :=
    match createdAfter filters with
    | Some date =>
        ((conditions ++ [("created_at > $" ++ dec p)%string])%list, (params ++ [PDate date])%list,
         (p + 1)%N)
    | None => (conditions, params, p)
    end in
  let '(conditions, params, p) :=
    match search filters with
    | Some text =>
        if nonempty (Some text) then
          ((conditions ++ [("name ILIKE $" ++ dec p)%string])%list,
           (params ++ [PText ("%" ++ text ++ "%")%string])%list, (p + 1)%N)
        else (conditions, params, p)
    | None => (conditions, params, p)
    end in
  let whereClause :=
    match conditions with
    | [] => EmptyString
    | _ :: _ => "WHERE " ++ join " AND " conditions
    end in
  let sortCol := if mem (field sort) ALLOWED_SORT_FIELDS then field sort else "id" in
  let sortDir := if String.eqb (dir sort) "desc" then "DESC" else "ASC" in
  let offset := ((page paging - 1) * limit paging)%Q in
  let params := (params ++ [PNumber (limit paging); PNumber offset])%list in
  let sql :=
    LF ++
    "      SELECT id, email, name, created_at" ++ LF ++
    "      FROM users" ++ LF ++
    "      " ++ whereClause ++ LF ++
    "      ORDER BY " ++ sortCol ++ " " ++ sortDir ++ LF ++
    "      LIMIT $" ++ dec p ++ " OFFSET $" ++ dec (p + 1) ++ LF ++
    "    " in
  (sql, params).

Definition getOrderWithDetails_order_sql : string :=
  "SELECT o.id, o.user_id, o.status, o.total, o.created_at," ++ LF ++
  "              u.id AS uid, u.email AS user_email, u.name AS user_name" ++ LF ++
  "       FROM orders o" ++ LF ++
  "       JOIN users u ON u.id = o.user_id" ++ LF ++
  "       WHERE o.id = $1".

Definition getOrderWithDetails_items_sql : string :=
  "SELECT oi.id, oi.order_id, oi.product_id, oi.quantity, oi.unit_price," ++ LF ++
  "              p.name AS product_name" ++ LF ++
  "       FROM order_items oi" ++ LF ++
  "       JOIN products p ON p.id = oi.product_id" ++ LF ++
  "       WHERE oi.order_id = $1".

Definition getUserOrderTotals_sql : string :=
  "SELECT u.id AS user_id, u.name AS user_name," ++ LF ++
  "              COUNT(o.id)::int AS order_count," ++ LF ++
  "              COALESCE(SUM(o.total), 0)::text AS total_spent" ++ LF ++
  "       FROM users u" ++ LF ++
  "       LEFT JOIN orders o ON o.user_id = u.id" ++ LF ++
  "       GROUP BY u.id, u.name" ++ LF ++
  "       ORDER BY total_spent::numeric DESC" ++ LF ++
  "       LIMIT $1".

Definition getLastOrderPerUser_sql : string :=
  "WITH ranked AS (" ++ LF ++
  "         SELECT o.id          AS last_order_id," ++ LF ++
  "                o.user_id," ++ LF ++
  "                o.total       AS last_order_total," ++ LF ++
  "                o.created_at  AS last_order_at," ++ LF ++
  "                ROW_NUMBER() OVER (PARTITION BY o.user_id ORDER BY o.created_at DESC) AS rn" ++ LF ++
  "         FROM orders o" ++ LF ++
  "       )" ++ LF ++
  "       SELECT r.user_id, u.email AS user_email," ++ LF ++
  "              r.last_order_id, r.last_order_total, r.last_order_at" ++ LF ++
  "       FROM ranked r" ++ LF ++
  "       JOIN users u ON u.id = r.user_id" ++ LF ++
  "       WHERE r.rn = 1" ++ LF ++
  "       ORDER BY r.last_order_at DESC" ++ LF ++
  "       LIMIT $1".

Definition insert_order_sql : string :=
  "INSERT INTO orders (user_id, status, total)" ++ LF ++
  "         VALUES ($1, 'pending', $2)" ++ LF ++
  "         RETURNING id, user_id, status, total, created_at".

Definition insert_order_items_sql (placeholders : string) : string :=
  "INSERT INTO order_items (order_id, product_id, quantity, unit_price) VALUES "
  ++ placeholders.

Definition insert_payment_sql : string :=
  "INSERT INTO payments (order_id, amount, status) VALUES ($1, $2, 'pending')".

Definition insert_products_sql (placeholders : string) : string :=
  "INSERT INTO products (category_id, name, price, stock) VALUES " ++ placeholders.

Section Adapter.

Variable World : Type.
Variable Row : Type.
Variable pg : Pg World Row.

Definition settled {A} (r : exn + A) : completion A :=
  match r with
  | inl e => Throw e
  | inr a => Normal a
  end.

Definition finished (r : option exn) : completion unit :=
  match r with
  | Some e => Throw e
  | None => Normal tt
  end.

(** [await this.pool.query(sql, params)] *)
Definition pool_query (sql : string) (params : list sqlparam)
  : M (PgState World) (QueryResult Row) :=
  fun s =>
    let '(r, w) := pg_query pg sql params (pg_world s) in
    (settled r, mkPg w (pg_log s ++ [PgQuery sql params])).

(** [await this.pool.connect()] *)
Definition pool_connect : M (PgState World) unit :=
  fun s =>
    let '(r, w) := pg_connect pg (pg_world s) in
    (finished r, mkPg w (pg_log s ++ [PgConnect])).

(** [await client.query(sql, params)] *)
Definition client_query (sql : string) (params : list sqlparam)
  : M (PgState World) (QueryResult Row) :=
  fun s =>
    let '(r, w) := pg_client_query pg sql params (pg_world s) in
    (settled r, mkPg w (pg_log s ++ [PgClientQuery sql params])).

(** [client.release()] *)
Definition client_release : M (PgState World) unit :=
  fun s =>
    let '(r, w) := pg_release pg (pg_world s) in
    (finished r, mkPg w (pg_log s ++ [PgRelease])).

(** [await this.pool.end()] *)
Definition pool_end : M (PgState World) unit :=
  fun s =>
    let '(r, w) := pg_end pg (pg_world s) in
    (finished r, mkPg w (pg_log s ++ [PgEnd])).

(** [order.id], where [order] may be [undefined]. *)
Definition id_of (order : option Row) : completion sqlparam :=
  match order with
  | Some row => Normal (row_id pg row)
  | None => Throw (TypeError "Cannot read properties of undefined (reading 'id')")
  end.

Definition findUserById (id : Q) : M (PgState World) (option Row) :=
  res <- pool_query "SELECT id, email, name, created_at FROM users WHERE id = $1"
                    [PNumber id] ;;
  ret (hd_error (rows res)).

Definition findUserByEmail (email : string) : M (PgState World) (option Row) :=
  res <- pool_query "SELECT id, email, name, created_at FROM users WHERE email = $1"
                    [PText email] ;;
  ret (hd_error (rows res)).

Definition listUsers (filters : ListUsersFilters) (sort : SortOptions) (paging : PageOptions)
  : M (PgState World) (list Row) :=
  let '(sql, params) := listUsers_query filters sort paging in
  res <- pool_query sql params ;;
  ret (rows res).

Definition getOrderWithDetails (orderId : Q)
  : M (PgState World) (option (OrderWithDetails Row)) :=
  res <- pool_query getOrderWithDetails_order_sql [PNumber orderId] ;;
  match hd_error (rows res) with
  | None => ret None
  | Some row =>
      res' <- pool_query getOrderWithDetails_items_sql [PNumber orderId] ;;
      ret (Some {| order_row := row; order_items := rows res' |})
  end.

(** [limit = 20]: a missing argument reads as 20. *)
Definition getUserOrderTotals (limit : option Q) : M (PgState World) (list Row) :=
  let limit := match limit with Some n => n | None => 20%Q end in
  res <- pool_query getUserOrderTotals_sql [PNumber limit] ;;
  ret (rows res).

Definition getLastOrderPerUser (limit : option Q) : M (PgState World) (list Row) :=
  let limit := match limit with Some n => n | None => 20%Q end in
  res <- pool_query getLastOrderPerUser_sql [PNumber limit] ;;
  ret (rows res).

Definition batchGetUsers (ids : list Q) : M (PgState World) (list Row) :=
  if (len ids =? 0)%Z then ret []
  else
    res <- pool_query "SELECT id, email, name, created_at FROM users WHERE id = ANY($1::int[])"
                      [PNumbers ids] ;;
    ret (rows res).

Definition insertOneUser (email name : string) : M (PgState World) (option Row) :=
  res <- pool_query
           "INSERT INTO users (email, name) VALUES ($1, $2) RETURNING id, email, name, created_at"
           [PText email; PText name] ;;
  ret (hd_error (rows res)).

Definition insertManyProducts (data : list NewProduct) : M (PgState World) Z :=
  if (len data =? 0)%Z then ret 0%Z
  else
    let placeholders := placeholders4 data in
    let params :=
      flat_map (fun d => [PNumber (categoryId d); PText (name d); PNumber (price d);
                          PNumber (stock d)]) data in
    res <- pool_query (insert_products_sql placeholders) params ;;
    ret (match rowCount res with Some n => n | None => 0%Z end).

(** The body of the [try] block of [createOrderWithItems]. *)
Definition createOrderWithItems_body (data : NewOrderInput) : M (PgState World) (option Row) :=
  client_query "BEGIN" [] ;;
  res <- client_query insert_order_sql [PNumber (userId data); PNumber (paymentAmount data)] ;;
  let order := hd_error (rows res) in
  (if (0 <? len (items data))%Z then
     let placeholders := placeholders4 (items data) in
     params <- lift (flatMap_throwing
                       (fun it => and_then (id_of order) (fun order_id =>
                                  Normal [order_id; PNumber (productId it);
                                          PNumber (quantity it); PNumber (unitPrice it)]))
                       (items data)) ;;
     client_query (insert_order_items_sql placeholders) params ;;
     ret tt
   else ret tt) ;;
  order_id <- lift (id_of order) ;;
  client_query insert_payment_sql [order_id; PNumber (paymentAmount data)] ;;
  client_query "COMMIT" [] ;;
  ret order.

Definition createOrderWithItems (data : NewOrderInput) : M (PgState World) (option Row) :=
  pool_connect ;;
  try_finally
    (try_catch (createOrderWithItems_body data)
               (fun err => client_query "ROLLBACK" [] ;; throw err))
    client_release.

Definition updateOrderStatus (orderId : Q) (status : string) : M (PgState World) bool :=
  res <- pool_query "UPDATE orders SET status = $1 WHERE id = $2"
                    [PText status; PNumber orderId] ;;
  ret (0 <? match rowCount res with Some n => n | None => 0 end)%Z.

Definition deleteOrder (orderId : Q) : M (PgState World) bool :=
  res <- pool_query "DELETE FROM orders WHERE id = $1" [PNumber orderId] ;;
  ret (0 <? match rowCount res with Some n => n | None => 0 end)%Z.

Definition close : M (PgState World) unit := pool_end.

End Adapter.

Arguments pool_query {World Row} pg sql params.
Arguments pool_connect {World Row} pg.
Arguments client_query {World Row} pg sql params.
Arguments client_release {World Row} pg.
Arguments pool_end {World Row} pg.
Arguments id_of {World Row} pg order.
Arguments findUserById {World Row} pg id.
Arguments findUserByEmail {World Row} pg email.
Arguments listUsers {World Row} pg filters sort paging.
Arguments getOrderWithDetails {World Row} pg orderId.
Arguments getUserOrderTotals {World Row} pg limit.
Arguments getLastOrderPerUser {World Row} pg limit.
Arguments batchGetUsers {World Row} pg ids.
Arguments insertOneUser {World Row} pg email name.
Arguments insertManyProducts {World Row} pg data.
Arguments createOrderWithItems_body {World Row} pg data.
Arguments createOrderWithItems {World Row} pg data.
Arguments updateOrderStatus {World Row} pg orderId status.
Arguments deleteOrder {World Row} pg orderId.
Arguments close {World Row} pg.

(* ---------------------------------------------------------------- *)
(** ** Vocabulary of the properties of the adapter *)

Definition flush (cur : option string) : list string :=
  match cur with
  | Some digits => [digits]
  | None => []
  end.

(** The placeholders of a statement, in the order they appear: the digits
    that follow each dollar sign. [cur] holds the digits of the
    placeholder being read, if one is. *)
Fixpoint scan (text : string) (cur : option string) : list string :=
  match text with
  | EmptyString => flush cur
  | String c rest =>
      if Ascii.eqb c "$" then (flush cur ++ scan rest (Some EmptyString))%list
      else if is_digit c then
        match cur with
        | Some digits => scan rest (Some (digits ++ String c EmptyString))
        | None => scan rest None
        end
      else (flush cur ++ scan rest None)%list
  end.

Definition placeholders_of (sql : string) : list string := scan sql None.

Fixpoint no_dollar (text : string) : bool :=
  match text with
  | EmptyString => true
  | String c rest => negb (Ascii.eqb c "$") && no_dollar rest
  end.

(** The placeholders of [tuple4 i]. *)
Definition tokens4 (i : N) : list string :=
  [dec (i * 4 + 1); dec (i * 4 + 2); dec (i * 4 + 3); dec (i * 4 + 4)].

(** The placeholders [$1 ... $n]. *)
Definition numbered (n : nat) : list string := map (fun k => dec (N.of_nat k)) (seq 1 n).

(** A statement sent with as many parameters as it has placeholders,
    numbered from 1 in the order they appear. *)
Definition well_parameterised (e : pgevent) : Prop :=
  match e with
  | PgQuery sql params | PgClientQuery sql params =>
      placeholders_of sql = numbered (List.length params)
  | _ => True
  end.

(** A method every database call of which satisfies [P]. *)
Definition issues (World : Type) (P : pgevent -> Prop) {A} (m : M (PgState World) A) : Prop :=
  forall s c s', m s = (c, s') ->
    exists evs, pg_log s' = (pg_log s ++ evs)%list /\ Forall P evs.

Definition is_client_query (e : pgevent) : Prop :=
  match e with
  | PgClientQuery _ _ => True
  | _ => False
  end.

(** The statements of a successful [createOrderWithItems] between
    [BEGIN] and [COMMIT], [row] being the order row the database
    returned. *)
Definition order_statements {World Row} (pg : Pg World Row) (data : NewOrderInput) (row : Row)
  : list pgevent :=
  (PgClientQuery insert_order_sql [PNumber (userId data); PNumber (paymentAmount data)]
   :: match items data with
      | [] => []
      | _ :: _ =>
          [PgClientQuery (insert_order_items_sql (placeholders4 (items data)))
                         (flat_map (fun it => [row_id pg row; PNumber (productId it);
                                               PNumber (quantity it); PNumber (unitPrice it)])
                                   (items data))]
      end
   ++ [PgClientQuery insert_payment_sql [row_id pg row; PNumber (paymentAmount data)]])%list.



(* ---------------------------------------------------------------- *)
(** ** A sample database *)

Module Sample.

(** The world counts the calls made so far; a row is its [id]. *)
Definition World : Type := nat.
Definition Row : Type := Z.

Definition answer (w : World) : QueryResult Row :=
  {| rows := [Z.of_nat w]; rowCount := Some 1%Z |}.

(** A database that answers every call with one row. *)
Definition pg : Pg World Row :=
  {| pg_query := fun _ _ w => (inr (answer w), S w);
     pg_connect := fun w => (None, S w);
     pg_client_query := fun _ _ w => (inr (answer w), S w);
     pg_release := fun w => (None, S w);
     pg_end := fun w => (None, S w);
     row_id := fun row => PNumber (inject_Z row) |}.

(** A database whose [call]-th call, a statement on a client, is
    rejected. *)
Definition failing (call : nat) : Pg World Row :=
  {| pg_query := fun _ _ w => (inr (answer w), S w);
     pg_connect := fun w => (None, S w);
     pg_client_query := fun _ _ w =>
       (if Nat.eqb w call then inl (Rejection "deadlock detected") else inr (answer w), S w);
     pg_release := fun w => (None, S w);
     pg_end := fun w => (None, S w);
     row_id := fun row => PNumber (inject_Z row) |}.

Definition start : PgState World := mkPg 0%nat [].

Definition two_items : NewOrderInput :=
  {| userId := 7; paymentAmount := 30;
     items := [ {| productId := 3; quantity := 1; unitPrice := 10 |};
                {| productId := 4; quantity := 2; unitPrice := 10 |} ] |}.

Definition two_products : list NewProduct :=
  [ {| categoryId := 1; name := "Lamp"; price := 12; stock := 5 |};
    {| categoryId := 2; name := "Desk"; price := 80; stock := 1 |} ].

(** An order of two items on a database that rejects the statement that
    inserts the items. *)
Definition failed_order_run : completion (option Row) * PgState World :=
  createOrderWithItems (failing 3) two_items start.

Definition products_run : completion Z * PgState World :=
  insertManyProducts pg two_products start.







End Sample.

End RawSql.

(* ================================================================== *)
(** * The seed script *)
(* ================================================================== *)

Module Seed.

Import RawSql.

Record DataSize : Type := { users : Z; products : Z; ordersPerUser : Z }.

(** [benchConfig.dataSizes] and [benchConfig.defaultSize] *)
Definition dataSizes : list (string * DataSize) :=
  [ ("S", {| users := 1000; products := 500; ordersPerUser := 2 |});
    ("M", {| users := 10000; products := 2000; ordersPerUser := 5 |});
    ("L", {| users := 100000; products := 10000; ordersPerUser := 10 |}) ].

Definition defaultSize : string := "M".

(** [process.env.SEED_SIZE ?? benchConfig.defaultSize] *)
Definition SIZE (SEED_SIZE : option string) : string :=
  match SEED_SIZE with
  | Some value => value
  | None => defaultSize
  end.

(** [benchConfig.dataSizes[SIZE]]: a data size, a member inherited from
    [Object.prototype] (none of which has a property [users], [products]
    or [ordersPerUser]), or [undefined]. *)
Inductive config : Type :=
| Size (d : DataSize)
| InheritedMember (key : string)
| NoSize.

Definition cfg (size : string) : config :=
  match find (fun kv => String.eqb (fst kv) size) dataSizes with
  | Some kv => Size (snd kv)
  | None => if mem size Object_prototype_keys then InheritedMember size else NoSize
  end.

(** [cfg.users], [cfg.products] and [cfg.ordersPerUser] of a [cfg] that
    is not [undefined]: a number, or [undefined]. *)
Definition cfg_users (c : config) : option Z :=
  match c with Size d => Some (users d) | _ => None end.

Definition cfg_products (c : config) : option Z :=
  match c with Size d => Some (products d) | _ => None end.

Definition cfg_ordersPerUser (c : config) : option Z :=
  match c with Size d => Some (ordersPerUser d) | _ => None end.

Definition CATEGORY_NAMES : list string :=
  ["Electronics"; "Books"; "Clothing"; "Home & Garden"; "Sports"; "Toys"; "Food"; "Beauty"].

(** [toLowerCase] on the characters of ASCII. *)
Definition lower (c : ascii) : ascii :=
  let n := nat_of_ascii c in
  if (65 <=? n)%nat && (n <=? 90)%nat then ascii_of_nat (n + 32) else c.

Definition slug_char (c : ascii) : bool :=
  let n := nat_of_ascii c in
  ((97 <=? n)%nat && (n <=? 122)%nat) || is_digit c.

(** [text.replace(/[^a-z0-9]+/g, '-')]; [inside] tells that the run of
    characters being replaced has begun. *)
Fixpoint replace_runs (text : string) (inside : bool) : string :=
  match text with
  | EmptyString => EmptyString
  | String c rest =>
      if slug_char c then String c (replace_runs rest false)
      else if inside then replace_runs rest true
      else String "-" (replace_runs rest true)
  end.

Fixpoint toLowerCase (text : string) : string :=
  match text with
  | EmptyString => EmptyString
  | String c rest => String (lower c) (toLowerCase rest)
  end.

(** [name.toLowerCase().replace(/[^a-z0-9]+/g, '-')], for a name of
    ASCII characters. *)
Definition slug (name : string) : string := replace_runs (toLowerCase name) false.

(** [`($${j * 2 + 1}, $${j * 2 + 2})`] *)
Definition tuple2 (j : N) : string :=
  "($" ++ dec (j * 2 + 1) ++ ", $" ++ dec (j * 2 + 2) ++ ")".

(** [Array.from({ length }, (_, j) => f(j))] for a pure [f]. *)
Definition array_of (length : Z) {B} (f : N -> B) : list B :=
  map (fun j => f (N.of_nat j)) (seq 0 (Z.to_nat length)).

(** [xs[idx]] for a numeric index. *)
Definition element (xs : list sqlparam) (idx : Z) : sqlparam :=
  if (idx <? 0)%Z then PUndefined else nth (Z.to_nat idx) xs PUndefined.

Definition products_sql (placeholders : string) : string :=
  "INSERT INTO products (category_id, name, price, stock) VALUES " ++ placeholders
  ++ " RETURNING id".

Definition users_sql (placeholders : string) : string :=
  "INSERT INTO users (email, name) VALUES " ++ placeholders ++ " RETURNING id".

Definition order_sql : string :=
  "INSERT INTO orders (user_id, status, total) VALUES ($1, $2, $3) RETURNING id".

Definition order_items_sql (placeholders : string) : string :=
  "INSERT INTO order_items (order_id, product_id, quantity, unit_price) VALUES "
  ++ placeholders.

Definition payment_sql : string :=
  "INSERT INTO payments (order_id, amount, status, paid_at) VALUES ($1, $2, $3, $4)".

Definition category_sql : string :=
  "INSERT INTO categories (name, slug) VALUES ($1, $2) RETURNING id".

Definition truncate_sql : string :=
  "TRUNCATE payments, order_items, orders, products, users, categories RESTART IDENTITY CASCADE".

(** [status === 'cancelled' ? 'failed' : status === 'pending' ? 'pending' : 'completed'] *)
Definition payStatus (status : string) : string :=
  if String.eqb status "cancelled" then "failed"
  else if String.eqb status "pending" then "pending"
  else "completed".

(** The random data of the script and the clock. *)
Record Faker (World : Type) : Type :=
  { Math_random : World -> Q * World;
    (** [new Date()], by its time value *)
    Date_now : World -> Z * World;
    commerce_productName : World -> string * World;
    (** [parseFloat(faker.commerce.price({ min, max }))] *)
    commerce_price : Q -> Q -> World -> Q * World;
    (** [faker.number.int({ min, max })] *)
    number_int : Z -> Z -> World -> Z * World;
    person_fullName : World -> string * World;
    helpers_arrayElement : list string -> World -> string * World;
    Number_toString_exp : Q -> string }.

Arguments Math_random {World} f w.
Arguments Date_now {World} f w.
Arguments commerce_productName {World} f w.
Arguments commerce_price {World} f min max w.
Arguments number_int {World} f min max w.
Arguments person_fullName {World} f w.
Arguments helpers_arrayElement {World} f xs w.
Arguments Number_toString_exp {World} f q.

(** The database calls made so far and what was written to the
    console. *)
Record SeedState (World : Type) : Type :=
  mkSeed { seed_pg : PgState World; seed_out : list string; seed_err : list string }.

Arguments mkSeed {World} seed_pg seed_out seed_err.
Arguments seed_pg {World} s.
Arguments seed_out {World} s.
Arguments seed_err {World} s.

(** An item of an order being seeded. *)
Record Item : Type := { productId : sqlparam; qty : Z; price : Q }.

Section Script.

Variable World : Type.
Variable Row : Type.
Variable pg : Pg World Row.
Variable faker : Faker World.

Definition db {A} (m : M (PgState World) A) : M (SeedState World) A :=
  fun s =>
    let '(c, p) := m (seed_pg s) in
    (c, mkSeed p (seed_out s) (seed_err s)).

Definition oracle {A} (f : World -> A * World) : M (SeedState World) A :=
  fun s =>
    let '(a, w) := f (pg_world (seed_pg s)) in
    (Normal a, mkSeed (mkPg w (pg_log (seed_pg s))) (seed_out s) (seed_err s)).

Definition stdout_write (text : string) : M (SeedState World) unit :=
  fun s => (Normal tt, mkSeed (seed_pg s) (seed_out s ++ [text]) (seed_err s)).

Definition console_log (text : string) : M (SeedState World) unit :=
  stdout_write (text ++ LF).

Definition console_error (text : string) : M (SeedState World) unit :=
  fun s => (Normal tt, mkSeed (seed_pg s) (seed_out s) (seed_err s ++ [text ++ LF])).

Definition toString (z : Z) : string :=
  Number_toString_int (Number_toString_exp faker) z.

(** A number or [undefined] in a template literal. *)
Definition show (v : option Z) : string :=
  match v with
  | Some z => toString z
  | None => "undefined"
  end.

(** [Array.from({ length: n }, (_, j) => f(j))] for an [f] that draws
    random data; [j] counts from [start]. *)
Fixpoint array_from {A} (n : nat) (start : N) (f : N -> M (SeedState World) A)
  : M (SeedState World) (list A) :=
  match n with
  | O => ret []
  | S n' =>
      x <- f start ;;
      xs <- array_from n' (start + 1)%N f ;;
      ret (x :: xs)
  end.

(** [xs[Math.floor(Math.random() * xs.length)]] *)
Definition random_element (xs : list sqlparam) : M (SeedState World) sqlparam :=
  r <- oracle (Math_random faker) ;;
  ret (element xs (Qfloor (r * inject_Z (len xs)))).

(** [for (const name of CATEGORY_NAMES) { ... }] *)
Fixpoint categories (names : list string) (catIds : list sqlparam)
  : M (SeedState World) (list sqlparam) :=
  match names with
  | [] => ret catIds
  | name :: rest =>
      res <- db (client_query pg category_sql [PText name; PText (slug name)]) ;;
      id <- lift (id_of pg (hd_error (rows res))) ;;
      categories rest (catIds ++ [id])%list
  end.

Definition product_row (catIds : list sqlparam) : M (SeedState World) (list sqlparam) :=
  categoryId <- random_element catIds ;;
  name <- oracle (commerce_productName faker) ;;
  price <- oracle (commerce_price faker 1 500) ;;
  stock <- oracle (number_int faker 0 1000) ;;
  ret [categoryId; PText name; PNumber price; PNumber (inject_Z stock)].

(** [for (let i = 0; i < cfg.products; i += PROD_BATCH) { ... }], from
    [i] on; [i] grows by 500 a turn, so the loop makes no more than
    [cfg.products - i] turns, which [fuel] bounds. *)
Fixpoint products_loop (fuel : nat) (products : Z) (i : Z) (catIds productIds : list sqlparam)
  : M (SeedState World) (list sqlparam) :=
  match fuel with
  | O => ret productIds
  | S fuel' =>
      if (i <? products)%Z then
        let batchSize := Z.min 500 (products - i) in
        let placeholders := join ", " (array_of batchSize tuple4) in
        table <- array_from (Z.to_nat batchSize) 0 (fun _ => product_row catIds) ;;
        let params := List.concat table in
        res <- db (client_query pg (products_sql placeholders) params) ;;
        products_loop fuel' products (i + 500) catIds
                      (productIds ++ map (row_id pg) (rows res))%list
      else ret productIds
  end.

Definition item (productIds : list sqlparam) : M (SeedState World) Item :=
  productId <- random_element productIds ;;
  qty <- oracle (number_int faker 1 10) ;;
  price <- oracle (commerce_price faker 1 200) ;;
  ret {| productId := productId; qty := qty; price := price |}.

(** One turn of [for (let o = 0; o < numOrders; o++) { ... }]. *)
Definition order (productIds : list sqlparam) (user : Row) : M (SeedState World) unit :=
  numItems <- oracle (number_int faker 1 5) ;;
  items <- array_from (Z.to_nat numItems) 0 (fun _ => item productIds) ;;
  let total := fold_left (fun s it => Binary64.round64
                                       (s + Binary64.round64 (price it * inject_Z (qty it))))
                         items 0%Q in
  status <- oracle (helpers_arrayElement faker
                      ["pending"; "paid"; "shipped"; "delivered"; "cancelled"]) ;;
  amount <- lift (toFixed (Number_toString_exp faker) (Num total) 2) ;;
  res <- db (client_query pg order_sql [row_id pg user; PText status; PText amount]) ;;
  let order := hd_error (rows res) in
  (if (0 <? len items)%Z then
     let iPlaceholders := placeholders4 items in
     iParams <- lift (flatMap_throwing
                        (fun it => and_then (id_of pg order) (fun order_id =>
                                   Normal [order_id; productId it; PNumber (inject_Z (qty it));
                                           PNumber (price it)]))
                        items) ;;
     db (client_query pg (order_items_sql iPlaceholders) iParams) ;;
     ret tt
   else ret tt) ;;
  let payStatus := payStatus status in
  paidAt <- (if String.eqb payStatus "completed"
             then time <- oracle (Date_now faker) ;; ret (PDate time)
             else ret PNull) ;;
  order_id <- lift (id_of pg order) ;;
  db (client_query pg payment_sql [order_id; PText amount; PText payStatus; paidAt]) ;;
  ret tt.

(** [for (let o = 0; o < numOrders; o++) { ...; totalOrders++ }] *)
Fixpoint orders (numOrders : nat) (productIds : list sqlparam) (user : Row) (totalOrders : Z)
  : M (SeedState World) Z :=
  match numOrders with
  | O => ret totalOrders
  | S n =>
      order productIds user ;;
      orders n productIds user (totalOrders + 1)%Z
  end.

(** [for (const user of userRows) { ... }] *)
Fixpoint orders_of_users (d : DataSize) (productIds : list sqlparam) (userRows : list Row)
         (totalOrders : Z) : M (SeedState World) Z :=
  match userRows with
  | [] => ret totalOrders
  | user :: rest =>
      numOrders <- oracle (number_int faker 1 (ordersPerUser d * 2)) ;;
      totalOrders' <- orders (Z.to_nat numOrders) productIds user totalOrders ;;
      orders_of_users d productIds rest totalOrders'
  end.

Definition email (k : Z) : string := "user_" ++ toString k ++ "@example.com".

Definition user_row (i : Z) (j : N) : M (SeedState World) (list sqlparam) :=
  name <- oracle (person_fullName faker) ;;
  ret [PText (email (i + Z.of_N j + 1)); PText name].

(** [for (let i = 0; i < cfg.users; i += USER_BATCH) { ... }], from [i]
    on; [fuel] bounds the number of turns. *)
Fixpoint users_loop (fuel : nat) (d : DataSize) (i : Z) (productIds : list sqlparam)
         (totalOrders : Z) : M (SeedState World) Z :=
  match fuel with
  | O => ret totalOrders
  | S fuel' =>
      if (i <? users d)%Z then
        let batchSize := Z.min 200 (users d - i) in
        let userPlaceholders := join ", " (array_of batchSize tuple2) in
        table <- array_from (Z.to_nat batchSize) 0 (user_row i) ;;
        let userParams := List.concat table in
        res <- db (client_query pg (users_sql userPlaceholders) userParams) ;;
        totalOrders' <- orders_of_users d productIds (rows res) totalOrders ;;
        (if (Z.rem (i + batchSize) 1000 =? 0)%Z || (users d <=? i + batchSize)%Z then
           stdout_write (String (ascii_of_nat 13) EmptyString ++ "  users: "
                         ++ toString (i + batchSize) ++ "/" ++ toString (users d)
                         ++ "  orders: " ++ toString totalOrders')
         else ret tt) ;;
        users_loop fuel' d (i + 200) productIds totalOrders'
      else ret totalOrders
  end.

(** The statements of the [try] block of [main] after [TRUNCATE] and
    before [COMMIT]; the value is [totalOrders]. *)
Definition fill_tables (c : config) : M (SeedState World) Z :=
  catIds <- categories CATEGORY_NAMES [] ;;
  productIds <- match cfg_products c with
                | Some products => products_loop (Z.to_nat products) products 0 catIds []
                | None => ret []
                end ;;
  console_log ("  products: " ++ toString (len productIds)) ;;
  match c with
  | Size d => users_loop (Z.to_nat (users d)) d 0 productIds 0
  | _ => ret 0%Z
  end.

(** The body of the [try] block of [main]. *)
Definition body (c : config) : M (SeedState World) unit :=
  db (client_query pg "BEGIN" []) ;;
  db (client_query pg truncate_sql []) ;;
  totalOrders <- fill_tables c ;;
  db (client_query pg "COMMIT" []) ;;
  console_log (LF ++ "Seeding complete. users=" ++ show (cfg_users c)
               ++ "  orders=" ++ toString totalOrders).

(** [main] once [cfg] is known not to be [undefined]. *)
Definition run (size : string) (c : config) : M (SeedState World) unit :=
  console_log ("Seeding [size=" ++ size ++ "]: " ++ show (cfg_users c) ++ " users, "
               ++ show (cfg_products c) ++ " products, ~" ++ show (cfg_ordersPerUser c)
               ++ " orders/user") ;;
  db (pool_connect pg) ;;
  try_finally
    (try_catch (body c)
               (fun err => db (client_query pg "ROLLBACK" []) ;; throw err))
    (db (client_release pg) ;; db (pool_end pg)).

(** [main]: reading [cfg.users] off [undefined] throws. *)
Definition main (SEED_SIZE : option string) : M (SeedState World) unit :=
  let size := SIZE SEED_SIZE in
  match cfg size with
  | NoSize => throw (TypeError "Cannot read properties of undefined (reading 'users')")
  | c => run size c
  end.

(** [main().catch(err => { console.error(err); process.exit(1) })] *)
Definition program (SEED_SIZE : option string) : M (SeedState World) unit :=
  try_catch (main SEED_SIZE)
            (fun err => console_error (exn_text err) ;; process_exit 1).

End Script.

Arguments db {World A} m.
Arguments oracle {World A} f.
Arguments stdout_write {World} text.
Arguments console_log {World} text.
Arguments console_error {World} text.
Arguments toString {World} faker z.
Arguments show {World} faker v.
Arguments array_from {World A} n start f.
Arguments random_element {World} faker xs.
Arguments categories {World Row} pg names catIds.
Arguments product_row {World} faker catIds.
Arguments products_loop {World Row} pg faker fuel products i catIds productIds.
Arguments item {World} faker productIds.
Arguments order {World Row} pg faker productIds user.
Arguments orders {World Row} pg faker numOrders productIds user totalOrders.
Arguments orders_of_users {World Row} pg faker d productIds userRows totalOrders.
Arguments email {World} faker k.
Arguments user_row {World} faker i j.
Arguments users_loop {World Row} pg faker fuel d i productIds totalOrders.
Arguments fill_tables {World Row} pg faker c.
Arguments body {World Row} pg faker c.
Arguments run {World Row} pg faker size c.
Arguments main {World Row} pg faker SEED_SIZE.
Arguments program {World Row} pg faker SEED_SIZE.

(* ---------------------------------------------------------------- *)
(** ** Vocabulary of the properties of the script *)

(** The database calls made so far. *)
Definition log {World} (s : SeedState World) : list pgevent := pg_log (seed_pg s).

(** The elements at the even positions. *)
Fixpoint evens {A} (xs : list A) : list A :=
  match xs with
  | [] => []
  | x :: rest =>
      x :: match rest with
           | [] => []
           | _ :: rest' => evens rest'
           end
  end.

(** What a statement adds to the database: a user, by the email
    parameter of its row, or a product. *)
Inductive seeded : Type :=
| User (email : sqlparam)
| Product.

Definition seeded_by (e : pgevent) : list seeded :=
  match e with
  | PgClientQuery sql params =>
      if prefix "INSERT INTO users" sql then map User (evens params)
      else if prefix "INSERT INTO products" sql
           then repeat Product (List.length params / 4)%nat
           else []
  | _ => []
  end.

Definition seeded_rows (evs : list pgevent) : list seeded := flat_map seeded_by evs.

(** The integers [lo], [lo + 1], ..., [count] of them. *)
Definition z_range (lo : Z) (count : nat) : list Z :=
  map (fun k => (lo + Z.of_nat k)%Z) (seq 0 count).

(** A statement of the transaction: sent on the client, with as many
    parameters as placeholders. *)
Definition statement (e : pgevent) : Prop := is_client_query e /\ well_parameterised e.

(** A part of the script that sends only statements of the transaction,
    does not end the process, and, when it completes, has returned a
    value that satisfies [Q] and has seeded the rows [expected]. *)
Definition seeds (World : Type) {A} (Q : A -> Prop) (expected : list seeded)
           (m : M (SeedState World) A) : Prop :=
  forall s c s', m s = (c, s') ->
    exists evs,
      log s' = (log s ++ evs)%list /\
      Forall statement evs /\
      (forall code, c <> Exit code) /\
      (forall a, c = Normal a -> Q a /\ seeded_rows evs = expected).

(** The rows of [Array.from({ length }, (_, j) => row(j))], [j] counting
    from [start], each satisfying [Q j]. *)
Fixpoint rows_from {A} (Q : N -> A -> Prop) (start : N) (table : list A) : Prop :=
  match table with
  | [] => True
  | row :: rest => Q start row /\ rows_from Q (start + 1)%N rest
  end.

(** What a run with the configuration [c] seeds: the products, then the
    users [user_1@example.com], [user_2@example.com], ... in order. *)
Definition seeded_for {World} (faker : Faker World) (c : config) : list seeded :=
  match c with
  | Size d =>
      (repeat Product (Z.to_nat (products d))
       ++ map (fun k => User (PText (email faker k))) (z_range 1 (Z.to_nat (users d))))%list
  | _ => []
  end.

(** The placeholders of [tuple2 j]. *)
Definition tokens2 (j : N) : list string := [dec (j * 2 + 1); dec (j * 2 + 2)].

(* ---------------------------------------------------------------- *)
(** ** A sample run *)

Module Sample.

(** Random data that is anything but random: the least number, the
    first element, a fixed name and price. *)
Definition faker : Faker RawSql.Sample.World :=
  {| Math_random := fun w => (0%Q, w);
     Date_now := fun w => (1700000000000%Z, w);
     commerce_productName := fun w => ("Chair", w);
     commerce_price := fun min _ w => (min, w);
     number_int := fun min _ w => (min, w);
     person_fullName := fun w => ("Ada Lovelace", w);
     helpers_arrayElement := fun xs w => (hd EmptyString xs, w);
     Number_toString_exp := fun _ => "1e+21" |}.

Definition start : SeedState RawSql.Sample.World :=
  mkSeed RawSql.Sample.start [] [].

(** The script at the size [S], on the sample database. *)
Definition small_run : completion unit * SeedState RawSql.Sample.World :=
  program RawSql.Sample.pg faker (Some "S") start.

(** The script at a size that is the name of a member of
    [Object.prototype]. *)
Definition inherited_run : completion unit * SeedState RawSql.Sample.World :=
  program RawSql.Sample.pg faker (Some "constructor") start.

(** The script on a database that rejects the insertion of the first
    batch of users (its 12th call). *)
Definition failed_run : completion unit * SeedState RawSql.Sample.World :=
  program (RawSql.Sample.failing 12) faker (Some "S") start.

End Sample.

End Seed.

(* ---------------------------------------------------------------- *)
(** ** Vocabulary of the robustness of the benchmark *)

(** A host whose adapters can be constructed and closed and whose file
    system accepts what it is given.  Nothing is said of the operations
    of the adapters: each of them may reject at every call. *)
Definition dependable {World} (host : Host World) : Prop :=
  (forall new,
      In new [new_RawSqlAdapter World host; new_QueryBuilderAdapter World host;
              new_DataAccessLayerAdapter World host; new_PrismaAdapter World host] ->
      forall w, exists adapter w',
          new w = (inr adapter, w') /\ forall w0, fst (close adapter w0) = Fulfilled) /\
  (forall dir w, fst (fs_mkdirSync World host dir w) = None) /\
  (forall path data w, fst (fs_writeFileSync World host path data w) = None).

(** The selection of the command line names adapters of the registry and
    shipped cases only. *)
Definition selectable (World : Type) (adapterNames : list string)
           (caseOption : option (list string)) : Prop :=
  Forall (fun a => In a ADAPTER_NAMES) adapterNames /\
  match caseOption with
  | Some names => Forall (fun n => In n (map name (Registry.cases World))) names
  | None => True
  end.

(* ================================================================== *)
(** * Properties of the statistics *)
(* ================================================================== *)

Section StatsFacts.

Local Open Scope Q_scope.

Lemma Qle_bool_false (x y : Q) : Qle_bool x y = false -> y <= x.
Proof.
  intros H. destruct (Qlt_le_dec x y) as [Hlt | Hle]; [| exact Hle].
  apply Qlt_le_weak, Qle_bool_iff in Hlt. congruence.
Qed.

Lemma inject_Z_pos (n : Z) : (0 < n)%Z -> 0 < inject_Z n.
Proof. intros H. change (inject_Z 0 < inject_Z n). now rewrite <- Zlt_Qlt. Qed.

Lemma inject_Z_pos_inv (n : Z) : 0 < inject_Z n -> (0 < n)%Z.
Proof. intros H. change (inject_Z 0 < inject_Z n) in H. now rewrite <- Zlt_Qlt in H. Qed.

Lemma inject_Z_nonneg (n : Z) : (0 <= n)%Z -> 0 <= inject_Z n.
Proof. intros H. change (inject_Z 0 <= inject_Z n). now rewrite <- Zle_Qle. Qed.

Lemma insert_asc_perm (x : Q) (l : list Q) : Permutation (insert_asc x l) (x :: l).
Proof.
  induction l as [| y l IH]; simpl; [reflexivity |].
  destruct (Qle_bool x y); [reflexivity |].
  rewrite IH. apply perm_swap.
Qed.

Lemma sort_asc_perm (l : list Q) : Permutation (sort_asc l) l.
Proof.
  induction l as [| x l IH]; simpl; [constructor |].
  rewrite insert_asc_perm. now constructor.
Qed.

Lemma sort_asc_length (l : list Q) : List.length (sort_asc l) = List.length l.
Proof. apply Permutation_length, sort_asc_perm. Qed.

Lemma insert_asc_sorted (x : Q) (l : list Q) :
  StronglySorted Qle l -> StronglySorted Qle (insert_asc x l).
Proof.
  induction 1 as [| y l Hs IH Hall]; simpl.
  - repeat constructor.
  - destruct (Qle_bool x y) eqn:E.
    + apply Qle_bool_iff in E.
      constructor; [now constructor |].
      constructor; [exact E |].
      eapply Forall_impl; [| exact Hall].
      intros z Hz. now apply Qle_trans with y.
    + apply Qle_bool_false in E.
      constructor; [exact IH |].
      eapply Permutation_Forall; [symmetry; apply insert_asc_perm |].
      now constructor.
Qed.

Lemma sort_asc_sorted (l : list Q) : StronglySorted Qle (sort_asc l).
Proof.
  induction l as [| x l IH]; simpl; [constructor | now apply insert_asc_sorted].
Qed.

(** In an ascending list a later position holds a value that is not
    smaller. *)
Lemma sorted_nth_le (l : list Q) :
  StronglySorted Qle l ->
  forall (i j : nat) (x y : Q),
    (i <= j)%nat -> nth_error l i = Some x -> nth_error l j = Some y -> x <= y.
Proof.
  induction 1 as [| z l Hs IH Hall]; intros i j x y Hij Hi Hj.
  - destruct i; discriminate.
  - destruct i as [| i], j as [| j]; simpl in *.
    + injection Hi as <-. injection Hj as <-. apply Qle_refl.
    + injection Hi as <-. apply nth_error_In in Hj.
      rewrite Forall_forall in Hall. now apply Hall.
    + lia.
    + apply (IH i j); [lia | assumption | assumption].
Qed.

(** The rank [ceil(p/100 * n)] lies in [[1, n]] for [p] in [(0, 100]]. *)
Lemma rank_bounds (p : Q) (n : Z) :
  (1 <= n)%Z -> 0 < p -> p <= 100 ->
  (1 <= Qceiling ((p / 100) * inject_Z n) <= n)%Z.
Proof.
  intros Hn Hp Hp'.
  assert (Hn0 : 0 < inject_Z n) by (apply inject_Z_pos; lia).
  assert (Hpos : 0 < (p / 100) * inject_Z n).
  { apply Qmult_lt_0_compat; [| exact Hn0].
    apply Qlt_shift_div_l; [reflexivity |]. now rewrite Qmult_0_l. }
  assert (Hle : (p / 100) * inject_Z n <= inject_Z n).
  { setoid_replace (inject_Z n) with (1 * inject_Z n) at 2 by ring.
    apply Qmult_le_compat_r; [| now apply Qlt_le_weak].
    apply Qle_shift_div_r; [reflexivity |]. now rewrite Qmult_1_l. }
  split.
  - pose proof (Qle_ceiling ((p / 100) * inject_Z n)) as Hc.
    assert (H0 : 0 < inject_Z (Qceiling ((p / 100) * inject_Z n)))
      by (eapply Qlt_le_trans; eassumption).
    apply inject_Z_pos_inv in H0. lia.
  - apply Qceiling_resp_le in Hle. now rewrite Qceiling_Z in Hle.
Qed.

Lemma rank_monotone (p q : Q) (n : Z) :
  (0 <= n)%Z -> p <= q ->
  (Qceiling ((p / 100) * inject_Z n) <= Qceiling ((q / 100) * inject_Z n))%Z.
Proof.
  intros Hn Hpq. apply Qceiling_resp_le.
  apply Qmult_le_compat_r; [| apply inject_Z_nonneg; exact Hn].
  apply Qmult_le_compat_r; [exact Hpq | discriminate].
Qed.

Lemma len_pos {A} (l : list A) : l <> [] -> (1 <= len l)%Z.
Proof. destruct l; [congruence | unfold len; simpl; lia]. Qed.

Lemma index_nth (l : list Q) (i : Z) :
  (0 <= i < len l)%Z ->
  exists x, nth_error l (Z.to_nat i) = Some x /\ index l i = Num x.
Proof.
  intros Hi. unfold index.
  destruct (Z.ltb_spec i 0) as [Hneg | _]; [lia |].
  destruct (nth_error l (Z.to_nat i)) as [x |] eqn:E; [now exists x |].
  apply nth_error_None in E. unfold len in Hi. lia.
Qed.

(** [percentile] on a non-empty array reads the position
    [ceil(p/100 * n) - 1], which is the clamped nearest rank. *)
Lemma percentile_reads_rank (l : list Q) (p : Q) :
  l <> [] -> 0 < p -> p <= 100 ->
  (0 <= nearest_rank p (len l) < len l)%Z /\
  nearest_rank p (len l) = (Qceiling ((p / 100) * inject_Z (len l)) - 1)%Z /\
  exists x, nth_error l (Z.to_nat (nearest_rank p (len l))) = Some x /\
            percentile l p = Num x.
Proof.
  intros Hl Hp Hp'. pose proof (len_pos l Hl) as Hn.
  pose proof (rank_bounds p (len l) Hn Hp Hp') as Hr.
  assert (Heq : nearest_rank p (len l) = (Qceiling ((p / 100) * inject_Z (len l)) - 1)%Z)
    by (unfold nearest_rank, clamp; lia).
  split; [lia |]. split; [exact Heq |].
  unfold percentile. destruct (Z.eqb_spec (len l) 0) as [E | _]; [lia |].
  cbv zeta. rewrite Z.max_r by lia. rewrite Heq.
  apply index_nth. lia.
Qed.

End StatsFacts.

(** ** Rounding to binary64 *)

Section Binary64Facts.

Local Open Scope Q_scope.

Lemma pow_max_pos (e : Z) : 0 < inject_Z (2 ^ Z.max e 0).
Proof.
  change 0 with (inject_Z 0). rewrite <- Zlt_Qlt. apply Z.pow_pos_nonneg; lia.
Qed.

Lemma pow2_pos (e : Z) : 0 < Binary64.pow2 e.
Proof.
  unfold Binary64.pow2. apply Qlt_shift_div_l; [apply pow_max_pos |].
  rewrite Qmult_0_l. apply pow_max_pos.
Qed.

Lemma pow2_nonneg_exp (e : Z) : (0 <= e)%Z -> Binary64.pow2 e == inject_Z (2 ^ e).
Proof.
  intros H. unfold Binary64.pow2. rewrite Z.max_l by lia. rewrite (Z.max_r (- e) 0) by lia.
  change (inject_Z (2 ^ 0)) with 1. field.
Qed.

Lemma pow2_add (a b : Z) : Binary64.pow2 (a + b) == Binary64.pow2 a * Binary64.pow2 b.
Proof.
  assert (HZ : (2 ^ Z.max (a + b) 0 * (2 ^ Z.max (- a) 0 * 2 ^ Z.max (- b) 0)
                = 2 ^ Z.max a 0 * 2 ^ Z.max b 0 * 2 ^ Z.max (- (a + b)) 0)%Z).
  { rewrite <- !Z.pow_add_r by lia. f_equal. lia. }
  apply (f_equal inject_Z) in HZ. rewrite !inject_Z_mult in HZ.
  pose proof (pow_max_pos a). pose proof (pow_max_pos b). pose proof (pow_max_pos (a + b)).
  pose proof (pow_max_pos (- a)). pose proof (pow_max_pos (- b)).
  pose proof (pow_max_pos (- (a + b))).
  unfold Binary64.pow2. 
  set (x := inject_Z (2 ^ Z.max (a + b) 0)) in *.
  set (y := inject_Z (2 ^ Z.max (- (a + b)) 0)) in *.
  set (a1 := inject_Z (2 ^ Z.max a 0)) in *.
  set (a2 := inject_Z (2 ^ Z.max (- a) 0)) in *.
  set (b1 := inject_Z (2 ^ Z.max b 0)) in *.
  set (b2 := inject_Z (2 ^ Z.max (- b) 0)) in *.
  assert (HQ : x * (a2 * b2) == a1 * b1 * y) by (rewrite HZ; reflexivity).
  field_simplify_eq; [| repeat split; lra].
  nra.
Qed.

Lemma pow2_le (a b : Z) : (a <= b)%Z -> Binary64.pow2 a <= Binary64.pow2 b.
Proof.
  intros H. replace b with (a + (b - a))%Z by lia. rewrite pow2_add.
  rewrite (pow2_nonneg_exp (b - a)) by lia.
  assert (H1 : 1 <= inject_Z (2 ^ (b - a))).
  { change 1 with (inject_Z 1). rewrite <- Zle_Qle.
    pose proof (Z.pow_pos_nonneg 2 (b - a)). lia. }
  pose proof (pow2_pos a). nra.
Qed.

Lemma pow2_lt_inv (a b : Z) : Binary64.pow2 a < Binary64.pow2 b -> (a < b)%Z.
Proof.
  intros H. destruct (Z.lt_ge_cases a b) as [Hlt | Hge]; [exact Hlt |].
  apply pow2_le in Hge. lra.
Qed.

(** An integer is never crossed by the rounding to the nearest integer. *)
Lemma round_half_even_le (q : Q) (j : Z) : q <= inject_Z j -> (Binary64.round_half_even q <= j)%Z.
Proof.
  intros H. unfold Binary64.round_half_even.
  pose proof (Qfloor_le q) as Hf. pose proof (Qlt_floor q) as Hf'.
  assert (Hfj : (Qfloor q <= j)%Z).
  { rewrite Zle_Qle. lra. }
  assert (Hup : 0 < q - inject_Z (Qfloor q) -> (Qfloor q + 1 <= j)%Z).
  { intros Hpos. assert (Hlt : inject_Z (Qfloor q) < inject_Z j) by lra.
    rewrite <- Zlt_Qlt in Hlt. lia. }
  destruct (Qcompare (q - inject_Z (Qfloor q)) (1 # 2)) eqn:E.
  - apply Qeq_alt in E. destruct (Z.even (Qfloor q)); [exact Hfj | apply Hup; lra].
  - exact Hfj.
  - apply Qgt_alt in E. apply Hup. lra.
Qed.

Lemma round_half_even_ge (q : Q) (j : Z) : inject_Z j <= q -> (j <= Binary64.round_half_even q)%Z.
Proof.
  intros H. unfold Binary64.round_half_even.
  assert (Hfj : (j <= Qfloor q)%Z).
  { apply Qfloor_resp_le in H. now rewrite Qfloor_Z in H. }
  destruct (Qcompare (q - inject_Z (Qfloor q)) (1 # 2));
    [destruct (Z.even (Qfloor q)) | |]; lia.
Qed.

Lemma pow2_le_frac (k n : Z) (d : positive) :
  (2 ^ Z.max k 0 * Zpos d <= n * 2 ^ Z.max (- k) 0)%Z -> Binary64.pow2 k <= n # d.
Proof.
  intros H. unfold Binary64.pow2. apply Qle_shift_div_r; [apply pow_max_pos |].
  unfold Qle, Qmult, inject_Z. cbn [Qnum Qden].
  rewrite Pos.mul_1_r, Z.mul_1_r. exact H.
Qed.

Lemma frac_lt_pow2 (k n : Z) (d : positive) :
  (n * 2 ^ Z.max (- k) 0 < 2 ^ Z.max k 0 * Zpos d)%Z -> n # d < Binary64.pow2 k.
Proof.
  intros H. unfold Binary64.pow2. apply Qlt_shift_div_l; [apply pow_max_pos |].
  unfold Qlt, Qmult, inject_Z. cbn [Qnum Qden].
  rewrite Pos.mul_1_r, Z.mul_1_r. exact H.
Qed.

Lemma exponent_spec (a : Q) : 0 < a -> Binary64.pow2 (Binary64.exponent a) <= a /\ a < Binary64.pow2 (Binary64.exponent a + 1).
Proof.
  intros Ha. destruct a as [n d]. unfold Qlt in Ha. cbn [Qnum Qden] in Ha.
  rewrite Z.mul_1_r in Ha. cbn in Ha.
  pose proof (Z.log2_spec n Ha) as Hn.
  pose proof (Z.log2_spec (Zpos d) (Pos2Z.is_pos d)) as Hd.
  pose proof (Z.log2_nonneg n) as Ln. pose proof (Z.log2_nonneg (Zpos d)) as Ld.
  unfold Binary64.exponent. cbn [Qnum Qden].
  set (ln := Z.log2 n) in *. set (ld := Z.log2 (Zpos d)) in *.
  assert (Hlow : Binary64.pow2 (ln - ld - 1) <= n # d).
  { apply pow2_le_frac.
    assert (E : (2 ^ Z.max (ln - ld - 1) 0 * 2 ^ Z.succ ld
                 = 2 ^ ln * 2 ^ Z.max (- (ln - ld - 1)) 0)%Z)
      by (rewrite <- !Z.pow_add_r by lia; f_equal; lia).
    pose proof (Z.pow_pos_nonneg 2 (Z.max (ln - ld - 1) 0)).
    pose proof (Z.pow_pos_nonneg 2 (Z.max (- (ln - ld - 1)) 0)). nia. }
  assert (Hhigh : n # d < Binary64.pow2 (ln - ld + 1)).
  { apply frac_lt_pow2.
    assert (E : (2 ^ Z.succ ln * 2 ^ Z.max (- (ln - ld + 1)) 0
                 = 2 ^ Z.max (ln - ld + 1) 0 * 2 ^ ld)%Z)
      by (rewrite <- !Z.pow_add_r by lia; f_equal; lia).
    pose proof (Z.pow_pos_nonneg 2 (Z.max (ln - ld + 1) 0)).
    pose proof (Z.pow_pos_nonneg 2 (Z.max (- (ln - ld + 1)) 0)). nia. }
  destruct (Qle_bool (Binary64.pow2 (ln - ld)) (n # d)) eqn:E.
  - apply Qle_bool_iff in E. split; [exact E | exact Hhigh].
  - split; [exact Hlow |]. replace (ln - ld - 1 + 1)%Z with (ln - ld)%Z by lia.
    apply Qnot_le_lt. intros Hle. apply Qle_bool_iff in Hle. congruence.
Qed.

(** A number [z] on the grid of [y] (a multiple of the gap between the
    binary64 numbers around [y]) is never crossed when [y] is rounded. *)
Lemma round64_grid (y z : Q) (j : Z) :
  0 < y ->
  z == inject_Z j * Binary64.pow2 (Z.max (Binary64.exponent (Qabs y)) (-1022) - 52) ->
  (y <= z -> Binary64.round64 y <= z) /\ (z <= y -> z <= Binary64.round64 y).
Proof.
  intros Hy Hz. unfold Binary64.round64.
  assert (E0 : Qeq_bool y 0 = false).
  { destruct (Qeq_bool y 0) eqn:E; [| reflexivity]. apply Qeq_bool_iff in E. lra. }
  assert (E1 : Qle_bool 0 y = true) by (apply Qle_bool_iff; lra).
  rewrite E0, E1. cbv zeta. rewrite Qred_correct.
  set (e := Z.max (Binary64.exponent (Qabs y)) (-1022)) in *.
  pose proof (pow2_pos (e - 52)) as Hu.
  assert (Habs : Qabs y == y) by (apply Qabs_pos; lra).
  set (u := Binary64.pow2 (e - 52)) in *.
  split; intros H.
  - assert (Hq : Qabs y / u <= inject_Z j).
    { apply Qle_shift_div_r; [exact Hu |]. rewrite Habs, <- Hz. exact H. }
    apply round_half_even_le in Hq. rewrite Zle_Qle in Hq.
    rewrite Hz. nra.
  - assert (Hq : inject_Z j <= Qabs y / u).
    { apply Qle_shift_div_l; [exact Hu |]. rewrite Habs, <- Hz. exact H. }
    apply round_half_even_ge in Hq. rewrite Zle_Qle in Hq.
    rewrite Hz. nra.
Qed.

(** Below [2^(53-k)] the binary64 numbers include every multiple of
    [2^-k]. *)
Lemma round64_dyadic (k : Z) (y : Q) (j : Z) :
  (0 <= k <= 52)%Z -> 0 < y -> y < inject_Z (2 ^ (53 - k)) ->
  (y <= inject_Z j / inject_Z (2 ^ k) -> Binary64.round64 y <= inject_Z j / inject_Z (2 ^ k)) /\
  (inject_Z j / inject_Z (2 ^ k) <= y -> inject_Z j / inject_Z (2 ^ k) <= Binary64.round64 y).
Proof.
  intros Hk Hy Hhi.
  assert (Habs : Qabs y == y) by (apply Qabs_pos; lra).
  assert (Hpos : 0 < Qabs y) by (rewrite Habs; exact Hy).
  destruct (exponent_spec (Qabs y) Hpos) as [Hs1 _].
  assert (He : (Binary64.exponent (Qabs y) < 53 - k)%Z).
  { apply pow2_lt_inv. rewrite (pow2_nonneg_exp (53 - k)) by lia.
    apply Qle_lt_trans with y; [| exact Hhi].
    apply Qle_trans with (Qabs y); [exact Hs1 | rewrite Habs; apply Qle_refl]. }
  set (e := Z.max (Binary64.exponent (Qabs y)) (-1022)).
  assert (He' : (e <= 52 - k)%Z) by (unfold e; lia).
  apply (round64_grid y (inject_Z j / inject_Z (2 ^ k)) (j * 2 ^ (52 - k - e)) Hy).
  fold e. rewrite inject_Z_mult, <- (pow2_nonneg_exp (52 - k - e)) by lia.
  rewrite <- Qmult_assoc, <- pow2_add. replace (52 - k - e + (e - 52))%Z with (- k)%Z by lia.
  assert (E : Binary64.pow2 (- k) == 1 / inject_Z (2 ^ k)).
  { unfold Binary64.pow2. rewrite Z.max_r by lia. rewrite Z.opp_involutive, Z.max_l by lia.
    reflexivity. }
  rewrite E. pose proof (pow_max_pos k) as Hp. rewrite Z.max_l in Hp by lia.
  field. lra.
Qed.

(** Below [2^53] the binary64 numbers include every integer. *)
Lemma round64_integer (y : Q) (j : Z) :
  0 < y -> y < 9007199254740992 # 1 ->
  (y <= inject_Z j -> Binary64.round64 y <= inject_Z j) /\
  (inject_Z j <= y -> inject_Z j <= Binary64.round64 y).
Proof.
  intros Hy Hhi.
  destruct (round64_dyadic 0 y j ltac:(lia) Hy Hhi) as [Hle Hge].
  assert (E : inject_Z j / inject_Z (2 ^ 0) == inject_Z j)
    by (change (inject_Z (2 ^ 0)) with 1; field).
  rewrite E in Hle, Hge. now split.
Qed.

Lemma round64_zero (q : Q) : q == 0 -> Binary64.round64 q = 0.
Proof.
  intros H. unfold Binary64.round64.
  apply Qeq_bool_iff in H. now rewrite H.
Qed.

Lemma ceiling_unique (x : Q) (k : Z) :
  inject_Z (k - 1) < x -> x <= inject_Z k -> Qceiling x = k.
Proof.
  intros Hlo Hhi.
  assert (H1 : (Qceiling x <= k)%Z).
  { apply Qceiling_resp_le in Hhi. now rewrite Qceiling_Z in Hhi. }
  assert (H2 : (k - 1 < Qceiling x)%Z).
  { pose proof (Qle_ceiling x) as Hc. rewrite Zlt_Qlt. lra. }
  lia.
Qed.

(** A quotient [p / 100] for [p] in (0, 100] is rounded to a number from
    0 to 1. *)
Lemma quotient_unit (p : Q) :
  0 < p -> p <= 100 ->
  0 <= Binary64.round64 (p / 100) /\ Binary64.round64 (p / 100) <= 1.
Proof.
  intros Hp Hp'.
  assert (Hx : 0 < p / 100) by (apply Qlt_shift_div_l; lra).
  assert (Hx' : p / 100 <= 1) by (apply Qle_shift_div_r; lra).
  set (x := p / 100) in *. clearbody x.
  assert (Hbig : x < 9007199254740992 # 1) by lra.
  destruct (round64_integer x 0 Hx Hbig) as [_ Hge].
  destruct (round64_integer x 1 Hx Hbig) as [Hle _].
  split; [apply Hge | apply Hle]; assumption || (apply Qlt_le_weak; assumption).
Qed.

(** For every [p] in (0, 100] the index computed in binary64 lies in the
    array. *)
Lemma index_binary64_in_range (p : Q) (n : Z) :
  0 < p -> p <= 100 -> (1 <= n < 2 ^ 32)%Z ->
  (0 <= Z.max 0 (Qceiling (Binary64.round64 (Binary64.round64 (p / 100) * inject_Z n)) - 1)
   < n)%Z.
Proof.
  intros Hp Hp' Hn.
  destruct (quotient_unit p Hp Hp') as [Hc0 Hc1].
  set (c := Binary64.round64 (p / 100)) in *. clearbody c.
  assert (Hn1 : 1 <= inject_Z n) by (change 1 with (inject_Z 1); rewrite <- Zle_Qle; lia).
  assert (Hn2 : inject_Z n < inject_Z (2 ^ 32)) by (rewrite <- Zlt_Qlt; lia).
  change (inject_Z (2 ^ 32)) with (4294967296 # 1) in Hn2.
  assert (Hm : 0 <= (1 - c) * inject_Z n) by (apply Qmult_le_0_compat; lra).
  assert (Hceil : (Qceiling (Binary64.round64 (c * inject_Z n)) <= n)%Z).
  { destruct (Qlt_le_dec 0 (c * inject_Z n)) as [Hy | Hy].
    - assert (Hbig : c * inject_Z n < 9007199254740992 # 1) by lra.
      destruct (round64_integer (c * inject_Z n) n Hy Hbig) as [Hle _].
      assert (Hr : Binary64.round64 (c * inject_Z n) <= inject_Z n) by (apply Hle; lra).
      apply Qceiling_resp_le in Hr. now rewrite Qceiling_Z in Hr.
    - assert (Hzero : c * inject_Z n == 0).
      { assert (0 <= c * inject_Z n) by (apply Qmult_le_0_compat; lra). lra. }
      rewrite (round64_zero _ Hzero). change (Qceiling 0) with 0%Z. lia. }
  lia.
Qed.

Lemma quotients_near (P : Z) :
  (0 < P <= 100)%Z ->
  0 < Binary64.round64 (inject_Z P / 100) /\
  inject_Z P / 100 - Binary64.round64 (inject_Z P / 100) <= 1 # 18014398509481984.
Proof.
  intros HP.
  assert (Hall : forallb quotient_near (map Z.of_nat (seq 1 100)) = true)
    by (vm_compute; reflexivity).
  rewrite forallb_forall in Hall.
  assert (Hin : In P (map Z.of_nat (seq 1 100))).
  { apply in_map_iff. exists (Z.to_nat P). split; [lia |]. apply in_seq. lia. }
  specialize (Hall P Hin). unfold quotient_near in Hall. cbv zeta in Hall.
  apply andb_prop in Hall as [H1 H2]. apply Qle_bool_iff in H2.
  split.
  - apply Qnot_le_lt. intros Hle. apply Qle_bool_iff in Hle. now rewrite Hle in H1.
  - eapply Qle_trans; [apply Qle_Qabs | exact H2].
Qed.

(** When the binary64 quotient [P/100] of an integer percent is not above
    the exact one, the rounded product has the ceiling of the exact
    product, for every length an array can have. *)
Lemma rank_rounding (P n : Z) :
  (0 < P <= 100)%Z -> (1 <= n < 2 ^ 32)%Z ->
  Binary64.round64 (inject_Z P / 100) <= inject_Z P / 100 ->
  Qceiling (Binary64.round64 (Binary64.round64 (inject_Z P / 100) * inject_Z n))
  = Qceiling (inject_Z P / 100 * inject_Z n).
Proof.
  intros HP Hn Hdown.
  destruct (quotients_near P HP) as [Hpos Hnear].
  set (c := Binary64.round64 (inject_Z P / 100)) in *. clearbody c.
  set (k := Qceiling (inject_Z P / 100 * inject_Z n)).
  pose proof (Qle_ceiling (inject_Z P / 100 * inject_Z n)) as Hk1.
  pose proof (Qceiling_lt (inject_Z P / 100 * inject_Z n)) as Hk2.
  fold k in Hk1, Hk2.
  assert (Hn1 : 1 <= inject_Z n) by (change 1 with (inject_Z 1); rewrite <- Zle_Qle; lia).
  assert (Hn2 : inject_Z n < inject_Z (2 ^ 32)) by (rewrite <- Zlt_Qlt; lia).
  assert (HP2 : inject_Z P <= 100) by (change 100 with (inject_Z 100); rewrite <- Zle_Qle; lia).
  change (inject_Z (2 ^ 32)) with (4294967296 # 1) in Hn2.
  set (x := inject_Z P / 100) in *.
  assert (Hx : x <= 1) by (unfold x; apply Qle_shift_div_r; [reflexivity | lra]).
  set (m := inject_Z n) in *.
  assert (Hm1 : 0 < c * m) by (apply Qmult_lt_0_compat; lra).
  assert (Hm2 : 0 <= (x - c) * m) by (apply Qmult_le_0_compat; lra).
  assert (Hm3 : 0 <= (x - c) * (4294967296 - m)) by (apply Qmult_le_0_compat; lra).
  assert (Hm4 : 0 <= (1 - x) * m) by (apply Qmult_le_0_compat; lra).
  assert (Hy2 : c * m < inject_Z (2 ^ (53 - 7))).
  { change (inject_Z (2 ^ (53 - 7))) with (70368744177664 # 1). lra. }
  assert (Hdy : forall j : Z,
             (c * m <= inject_Z j * (1 # 128) ->
              Binary64.round64 (c * m) <= inject_Z j * (1 # 128)) /\
             (inject_Z j * (1 # 128) <= c * m ->
              inject_Z j * (1 # 128) <= Binary64.round64 (c * m))).
  { intros j. destruct (round64_dyadic 7 (c * m) j ltac:(lia) Hm1 Hy2) as [Hle Hge].
    assert (E : inject_Z j / inject_Z (2 ^ 7) == inject_Z j * (1 # 128))
      by (change (inject_Z (2 ^ 7)) with 128; field).
    rewrite E in Hle, Hge. now split. }
  (* the exact product exceeds [k - 1] by a hundredth at least *)
  assert (Hgap : inject_Z (k - 1) + (1 # 100) <= x * m).
  { assert (E : inject_Z (P * n) == 100 * (x * m))
      by (unfold x, m; rewrite inject_Z_mult; field).
    assert (Hz : (100 * (k - 1) < P * n)%Z).
    { rewrite Zlt_Qlt, inject_Z_mult, E. change (inject_Z 100) with 100. lra. }
    assert (Hz' : (100 * (k - 1) + 1 <= P * n)%Z) by lia.
    rewrite Zle_Qle, inject_Z_plus, inject_Z_mult, E in Hz'.
    change (inject_Z 100) with 100 in Hz'. change (inject_Z 1) with 1 in Hz'. lra. }
  apply ceiling_unique.
  - destruct (Hdy (128 * (k - 1) + 1)%Z) as [_ Hge].
    assert (E : inject_Z (128 * (k - 1) + 1) * (1 # 128) == inject_Z (k - 1) + (1 # 128)).
    { rewrite inject_Z_plus, inject_Z_mult. change (inject_Z 128) with 128.
      change (inject_Z 1) with 1. ring. }
    rewrite E in Hge.
    assert (Hlow : inject_Z (k - 1) + (1 # 128) <= c * m) by lra.
    specialize (Hge Hlow). lra.
  - destruct (Hdy (128 * k)%Z) as [Hle _].
    assert (E : inject_Z (128 * k) * (1 # 128) == inject_Z k).
    { rewrite inject_Z_mult. change (inject_Z 128) with 128. ring. }
    rewrite E in Hle. apply Hle. lra.
Qed.

(** At such a percent the index computed in binary64 is the exact one. *)
Lemma percentile_binary64_exact (sorted : list Q) (P : Z) :
  (len sorted < 2 ^ 32)%Z -> (0 < P <= 100)%Z ->
  Binary64.round64 (inject_Z P / 100) <= inject_Z P / 100 ->
  Binary64.percentile sorted (inject_Z P) = percentile sorted (inject_Z P).
Proof.
  intros Hlen HP Hdown. unfold Binary64.percentile, percentile.
  destruct (Z.eqb_spec (len sorted) 0) as [E | Hne]; [reflexivity |].
  cbv zeta. rewrite (rank_rounding P (len sorted) HP); [reflexivity | | exact Hdown].
  unfold len in *. lia.
Qed.

(** [round64] is the rounding of the machine: at every integer percent
    from 1 to 100 and at the lengths below, the product [(p / 100) * n]
    rounded by [round64] is the one the binary64 division and
    multiplication of the kernel give. *)
Lemma round64_is_machine_rounding :
  forallb (fun p => forallb (same_product (Z.of_nat p))
                            [1; 2; 3; 4; 7; 10; 20; 25; 50; 100; 200; 1000; 4294967295]%Z)
          (seq 1 100)
  = true.
Proof. vm_compute. reflexivity. Qed.

(** So are the sum and the difference of two tenths, at the tenths from
    0.1 to 4. *)
Lemma round64_is_machine_sum :
  forallb (fun i => forallb (same_sum (Z.of_nat i)) (map Z.of_nat (seq 1 40))) (seq 1 40)
  = true.
Proof. vm_compute. reflexivity. Qed.

(** 50, 95 and 99 are such percents; 7 is not. *)
Lemma quotients_rounded_down :
  Forall (fun P => Binary64.round64 (inject_Z P / 100) <= inject_Z P / 100) [50; 95; 99]%Z /\
  inject_Z 7 / 100 < Binary64.round64 (inject_Z 7 / 100).
Proof.
  split.
  - repeat constructor; apply Qle_bool_iff; vm_compute; reflexivity.
  - vm_compute. reflexivity.
Qed.

End Binary64Facts.

Section StatsTheorems.

Local Open Scope Q_scope.

Lemma percentile_monotone (sorted : list Q) (p q : Q) :
  sorted <> [] -> StronglySorted Qle sorted -> 0 < p -> p <= q -> q <= 100 ->
  exists u v, percentile sorted p = Num u /\ percentile sorted q = Num v /\ u <= v.
Proof.
  intros Hne Hs Hp Hpq Hq.
  assert (Hp' : p <= 100) by (eapply Qle_trans; eassumption).
  assert (Hq' : 0 < q) by (eapply Qlt_le_trans; eassumption).
  destruct (percentile_reads_rank sorted p Hne Hp Hp') as (Hbp & Hep & u & Hu & Hpu).
  destruct (percentile_reads_rank sorted q Hne Hq' Hq) as (Hbq & Heq & v & Hv & Hqv).
  exists u, v. repeat split; try assumption.
  refine (sorted_nth_le sorted Hs _ _ u v _ Hu Hv).
  pose proof (len_pos sorted Hne) as Hn.
  assert (Hn0 : (0 <= len sorted)%Z) by lia.
  pose proof (rank_monotone p q (len sorted) Hn0 Hpq) as Hm. lia.
Qed.

Lemma first_le_percentile (sorted : list Q) (p : Q) :
  sorted <> [] -> StronglySorted Qle sorted -> 0 < p -> p <= 100 ->
  exists m u, nullish (index sorted 0) (Num 0) = Num m /\
              percentile sorted p = Num u /\ m <= u.
Proof.
  intros Hne Hs Hp Hp'. pose proof (len_pos sorted Hne) as Hn.
  destruct (index_nth sorted 0) as (m & Hm & Him); [lia |].
  destruct (percentile_reads_rank sorted p Hne Hp Hp') as (Hb & _ & u & Hu & Hpu).
  exists m, u. rewrite Him. repeat split; try assumption.
  refine (sorted_nth_le sorted Hs _ _ m u _ Hm Hu). lia.
Qed.

Lemma percentile_le_last (sorted : list Q) (p : Q) :
  sorted <> [] -> StronglySorted Qle sorted -> 0 < p -> p <= 100 ->
  exists u m, percentile sorted p = Num u /\
              nullish (index sorted (len sorted - 1)) (Num 0) = Num m /\ u <= m.
Proof.
  intros Hne Hs Hp Hp'. pose proof (len_pos sorted Hne) as Hn.
  destruct (index_nth sorted (len sorted - 1)) as (m & Hm & Him); [lia |].
  destruct (percentile_reads_rank sorted p Hne Hp Hp') as (Hb & _ & u & Hu & Hpu).
  exists u, m. rewrite Him. repeat split; try assumption.
  refine (sorted_nth_le sorted Hs _ _ u m _ Hu Hm). lia.
Qed.

Lemma sort_asc_nonempty (timings : list Q) : timings <> [] -> sort_asc timings <> [].
Proof.
  intros Hne E. apply Hne, length_zero_iff_nil.
  rewrite <- sort_asc_length, E. reflexivity.
Qed.

(** C2 (as amended). For a non-empty sequence of durations, of a length
    an array can have, [percentile] as the machine computes it
    ([Binary64.percentile]) returns, for every [p] in (0, 100], an element
    of the ascending sort of the durations, at an index in [0, n-1].  For
    an integer percent [P] whose quotient [P / 100] the machine does not
    round up, the index is [ceil(P/100 * n) - 1] clamped to [0, n-1]
    ([nearest_rank]), and the element is the one [percentile] returns with
    exact arithmetic; 50, 95 and 99, the percents [computeStats] asks for,
    are such percents.  For [10, 20, 30, 40] the percentiles are p50 = 20,
    p95 = 40, p99 = 40; for a one-element sequence [x] they are
    p50 = p95 = p99 = x. *)
Theorem percentile_nearest_rank (timings : list Q) (P : Z) (p x : Q) :
  timings <> [] -> (len timings < 2 ^ 32)%Z ->
  (0 < p -> p <= 100 ->
   exists k v,
     (0 <= k < len timings)%Z /\
     nth_error (sort_asc timings) (Z.to_nat k) = Some v /\
     Binary64.percentile (sort_asc timings) p = Num v)
  /\
  ((0 < P <= 100)%Z ->
   Binary64.round64 (inject_Z P / 100) <= inject_Z P / 100 ->
   let sorted := sort_asc timings in
   let k := nearest_rank (inject_Z P) (len timings) in
   StronglySorted Qle sorted /\ Permutation sorted timings /\
   (0 <= k < len timings)%Z /\
   exists v, nth_error sorted (Z.to_nat k) = Some v /\
             Binary64.percentile sorted (inject_Z P) = Num v /\
             percentile sorted (inject_Z P) = Num v)
  /\ Forall (fun P => Binary64.round64 (inject_Z P / 100) <= inject_Z P / 100) [50; 95; 99]%Z
  /\ (Binary64.percentile (sort_asc [10; 20; 30; 40]) 50 = Num 20 /\
      Binary64.percentile (sort_asc [10; 20; 30; 40]) 95 = Num 40 /\
      Binary64.percentile (sort_asc [10; 20; 30; 40]) 99 = Num 40)
  /\ (Binary64.percentile (sort_asc [x]) 50 = Num x /\
      Binary64.percentile (sort_asc [x]) 95 = Num x /\
      Binary64.percentile (sort_asc [x]) 99 = Num x).
Proof.
  intros Hne Hlen.
  assert (Hl : len (sort_asc timings) = len timings)
    by (unfold len; now rewrite sort_asc_length).
  pose proof (len_pos timings Hne) as Hn.
  split; [| split; [| split; [apply quotients_rounded_down | split; repeat split]]].
  - intros Hp Hp'.
    pose proof (index_binary64_in_range p (len timings) Hp Hp' ltac:(lia)) as Hi.
    unfold Binary64.percentile. rewrite Hl.
    destruct (Z.eqb_spec (len timings) 0) as [E | _]; [lia |]. cbv zeta.
    set (k := Z.max 0 (Qceiling (Binary64.round64 (Binary64.round64 (p / 100)
                                                     * inject_Z (len timings))) - 1)) in *.
    destruct (index_nth (sort_asc timings) k) as (v & Hv & Hiv); [rewrite Hl; exact Hi |].
    exists k, v. split; [exact Hi |]. split; [exact Hv | exact Hiv].
  - intros HP Hdown. cbv zeta.
    assert (Hrange : 0 < inject_Z P /\ inject_Z P <= 100).
    { split; [change 0 with (inject_Z 0); rewrite <- Zlt_Qlt; lia |].
      change 100 with (inject_Z 100). rewrite <- Zle_Qle. lia. }
    destruct (percentile_reads_rank (sort_asc timings) (inject_Z P)
                (sort_asc_nonempty timings Hne) (proj1 Hrange) (proj2 Hrange))
      as (Hb & _ & v & Hv & Hpv).
    rewrite Hl in Hb, Hv.
    split; [apply sort_asc_sorted |]. split; [apply sort_asc_perm |].
    split; [exact Hb |]. exists v. split; [exact Hv |]. split; [| exact Hpv].
    rewrite percentile_binary64_exact; [exact Hpv | now rewrite Hl | exact HP | exact Hdown].
Qed.

Lemma percentile_nearest_rank_witness :
  exists v, nth_error (sort_asc [30; 10; 40; 20])
              (Z.to_nat (nearest_rank 95 (len [30; 10; 40; 20]))) = Some v /\
            Binary64.percentile (sort_asc [30; 10; 40; 20]) 95 = Num v /\
            percentile (sort_asc [30; 10; 40; 20]) 95 = Num v.
Proof.
  refine (proj2 (proj2 (proj2
    (proj1 (proj2 (percentile_nearest_rank [30; 10; 40; 20] 95 95 7 _ _)) _ _)))).
  - discriminate.
  - reflexivity.
  - lia.
  - apply Qle_bool_iff. vm_compute. reflexivity.
Defined.

(** C2 (the claim as stated fails). 7 is in (0, 100], and of the hundred
    durations 1, 2, ..., 100, already ascending, the nearest rank
    [ceil(7/100 * 100) - 1] is 6, where the array holds 7.  On the
    machine 7 / 100 is rounded up, its product with 100 is rounded to the
    binary64 number next above 7, the ceiling is 8, and [percentile]
    reads index 7: it returns 8. *)
Theorem percentile_seven_of_hundred :
  sort_asc one_to_hundred = one_to_hundred /\
  nearest_rank 7 (len one_to_hundred) = 6%Z /\
  index one_to_hundred 6 = Num 7 /\
  Binary64.round64 (Binary64.round64 (7 / 100) * 100)
  == 7881299347898369 # 1125899906842624 /\
  Binary64.percentile (sort_asc one_to_hundred) 7 = Num 8.
Proof.
  split; [vm_compute; reflexivity |]. split; [vm_compute; reflexivity |].
  split; [vm_compute; reflexivity |]. split; [vm_compute; reflexivity |].
  vm_compute. reflexivity.
Qed.

(** The five order statistics of a non-empty sequence are finite and
    ascending. *)
Lemma order_statistics_ascending (timings : list Q) :
  timings <> [] ->
  exists mn a b c mx,
    Stats.min (computeStats timings) = Num mn /\
    Stats.p50 (computeStats timings) = Num a /\
    Stats.p95 (computeStats timings) = Num b /\
    Stats.p99 (computeStats timings) = Num c /\
    Stats.max (computeStats timings) = Num mx /\
    mn <= a /\ a <= b /\ b <= c /\ c <= mx.
Proof.
  intros Hne.
  pose proof (sort_asc_nonempty timings Hne) as Hn.
  pose proof (sort_asc_sorted timings) as Hsorted.
  destruct (first_le_percentile _ 50 Hn Hsorted) as (mn & a & Hmn & Ha & Hle1);
    [reflexivity | unfold Qle; simpl; lia |].
  destruct (percentile_monotone _ 50 95 Hn Hsorted) as (a' & b & Ha' & Hb & Hle2);
    [reflexivity | unfold Qle; simpl; lia | unfold Qle; simpl; lia |].
  destruct (percentile_monotone _ 95 99 Hn Hsorted) as (b' & c & Hb' & Hc & Hle3);
    [reflexivity | unfold Qle; simpl; lia | unfold Qle; simpl; lia |].
  destruct (percentile_le_last _ 99 Hn Hsorted) as (c' & mx & Hc' & Hmx & Hle4);
    [reflexivity | unfold Qle; simpl; lia |].
  assert (a' = a) by congruence. assert (b' = b) by congruence.
  assert (c' = c) by congruence. subst a' b' c'.
  exists mn, a, b, c, mx. unfold computeStats; simpl.
  repeat split; assumption.
Qed.



(** C3 (the code at the empty sequence). [computeStats] of the empty
    sequence returns without throwing; p50, p95, p99, min and max are 0,
    and the mean is [0 / 0], which is [NaN]. *)
Theorem computeStats_empty :
  computeStats [] =
  {| Stats.mean := NaN; Stats.p50 := Num 0; Stats.p95 := Num 0;
     Stats.p99 := Num 0; Stats.min := Num 0; Stats.max := Num 0 |}.
Proof. reflexivity. Qed.

End StatsTheorems.

(* ================================================================== *)
(** * Properties of the case runner *)
(* ================================================================== *)

Section MonadFacts.

Context {S A B : Type}.

Lemma bind_inv_normal (m : M S A) (k : A -> M S B) (s s' : S) (b : B) :
  bind m k s = (Normal b, s') ->
  exists a s1, m s = (Normal a, s1) /\ k a s1 = (Normal b, s').
Proof.
  unfold bind. destruct (m s) as [[a | e | code] s1]; intros H;
    [now exists a, s1 | discriminate | discriminate].
Qed.

Lemma bind_normal (m : M S A) (k : A -> M S B) (s s1 : S) (a : A) :
  m s = (Normal a, s1) -> bind m k s = k a s1.
Proof. unfold bind. now intros ->. Qed.


Lemma bind_exit (m : M S A) (k : A -> M S B) (s s1 : S) (code : Z) :
  m s = (Exit code, s1) -> bind m k s = (Exit code, s1).
Proof. unfold bind. now intros ->. Qed.

End MonadFacts.

Section RunnerFacts.

Variable World : Type.
Variable host : Host World.
Variable cases : list (BenchCase World).

Implicit Types (s : HState World) (bench : property World) (adapter : DbAdapter World).

Lemma count_failed_app (xs ys : list bool) :
  count_failed (xs ++ ys) = count_failed xs + count_failed ys.
Proof. unfold count_failed, len. rewrite filter_app, length_app. lia. Qed.

Lemma count_failed_cons (ok : bool) (oks : list bool) :
  count_failed (ok :: oks) = (if ok then 0 else 1) + count_failed oks.
Proof.
  unfold count_failed, len. destruct ok; cbn [filter negb]; [reflexivity |].
  cbn [List.length]. lia.
Qed.

Lemma count_failed_bounds (oks : list bool) : 0 <= count_failed oks <= len oks.
Proof.
  unfold count_failed, len. pose proof (filter_length_le negb oks). lia.
Qed.

Lemma count_failed_all (oks : list bool) :
  Forall (fun ok => ok = false) oks -> count_failed oks = len oks.
Proof.
  induction 1 as [| ok oks Hok _ IH]; [reflexivity |].
  subst ok. unfold count_failed, len in *. simpl. lia.
Qed.

Lemma run_outcomes_app (xs ys : list event) :
  run_outcomes (xs ++ ys) = (run_outcomes xs ++ run_outcomes ys)%list.
Proof.
  induction xs as [| e xs IH]; [reflexivity |].
  destruct e; simpl; now rewrite IH.
Qed.

Lemma run_outcomes_runs (caseName : string) (oks : list bool) :
  run_outcomes (map (EvRun caseName) oks) = oks.
Proof. induction oks as [| ok oks IH]; simpl; [reflexivity | now rewrite IH]. Qed.

(** A call of the measured operation settles, and the trace records how. *)
Lemma await_run_settles bench caseName adapter s :
  exists o c w,
    await_run bench caseName adapter s =
    (completion_of o, mkH w c (trace s ++ [EvRun caseName (fulfilled o)])).
Proof.
  unfold await_run. destruct (get_run bench) as [op |].
  - unfold await_op. destruct (op adapter (ctx s) (world s)) as [[o c] w].
    now exists o, c, w.
  - now exists (Rejected (TypeError "bench.run is not a function")), (ctx s), (world s).
Qed.

Lemma await_run_fails bench caseName adapter s :
  run_always_fails adapter bench ->
  exists e c w,
    await_run bench caseName adapter s =
    (Throw e, mkH w c (trace s ++ [EvRun caseName false])).
Proof.
  unfold run_always_fails, await_run. destruct (get_run bench) as [op |]; intros H.
  - unfold await_op. specialize (H (ctx s) (world s)).
    destruct (op adapter (ctx s) (world s)) as [[o c] w]. simpl in H.
    destruct o as [| e]; [discriminate |]. now exists e, c, w.
  - now exists (TypeError "bench.run is not a function"), (ctx s), (world s).
Qed.

(** The warmup loop ends normally after exactly [n] calls. *)
Lemma warmup_loop_spec bench caseName adapter (n : nat) s :
  exists s' oks,
    warmup_loop bench caseName adapter n s = (Normal tt, s') /\
    trace s' = (trace s ++ map (EvRun caseName) oks)%list /\
    List.length oks = n.
Proof.
  revert s. induction n as [| n IH]; intros s.
  - exists s, []. simpl. now rewrite app_nil_r.
  - destruct (await_run_settles bench caseName adapter s) as (o & c & w & Hrun).
    destruct (IH (mkH w c (trace s ++ [EvRun caseName (fulfilled o)])))
      as (s' & oks & Hloop & Htrace & Hlen).
    exists s', (fulfilled o :: oks).
    split; [| split].
    + simpl. unfold bind, try_catch. rewrite Hrun.
      destruct o; simpl; exact Hloop.
    + rewrite Htrace. simpl. now rewrite <- app_assoc.
    + simpl. now rewrite Hlen.
Qed.

(** One measured iteration ends normally, adds one sample, and adds one
    to [errors] exactly when the call failed. *)
Lemma measure_iteration_spec bench caseName adapter timings errors s :
  exists (ok : bool) (d : Q) s',
    measure_iteration host bench caseName adapter timings errors s =
    (Normal ((timings ++ [d])%list, if ok then errors else errors + 1), s') /\
    trace s' = (trace s ++ [EvRun caseName ok])%list /\
    (run_always_fails adapter bench -> ok = false).
Proof.
  unfold measure_iteration, bind at 1, now.
  destruct (performance_now host (world s)) as [t0 w0].
  destruct (await_run_settles bench caseName adapter (mkH w0 (ctx s) (trace s)))
    as (o & c & w & Hrun).
  assert (Hfail : run_always_fails adapter bench -> fulfilled o = false).
  { intros Hf.
    destruct (await_run_fails bench caseName adapter (mkH w0 (ctx s) (trace s)) Hf)
      as (e & c' & w' & Hrun').
    rewrite Hrun in Hrun'. destruct o; [discriminate | reflexivity]. }
  unfold bind at 1, try_catch, bind at 1. rewrite Hrun.
  destruct o as [| e]; simpl; unfold bind, now, ret; simpl;
    destruct (performance_now host w) as [t1 w1]; simpl.
  - now exists true, (Binary64.round64 (t1 - t0)), (mkH w1 c (trace s ++ [EvRun caseName true])).
  - now exists false, (Binary64.round64 (t1 - t0)), (mkH w1 c (trace s ++ [EvRun caseName false])).
Qed.

(** The measured loop ends normally after exactly [n] iterations with
    [n] more samples; [errors] grows by the number of failed calls. *)
Lemma measure_loop_spec bench caseName adapter (n : nat) timings errors s :
  exists oks ds s',
    measure_loop host bench caseName adapter n timings errors s =
    (Normal ((timings ++ ds)%list, errors + count_failed oks), s') /\
    List.length ds = n /\ List.length oks = n /\
    trace s' = (trace s ++ map (EvRun caseName) oks)%list /\
    (run_always_fails adapter bench -> Forall (fun ok => ok = false) oks).
Proof.
  revert timings errors s. induction n as [| n IH]; intros timings errors s.
  - exists [], [], s. simpl. unfold ret, count_failed, len. simpl.
    rewrite !app_nil_r, Z.add_0_r. auto.
  - destruct (measure_iteration_spec bench caseName adapter timings errors s)
      as (ok & d & s1 & Hit & Ht1 & Hf1).
    destruct (IH (timings ++ [d])%list (if ok then errors else errors + 1) s1)
      as (oks & ds & s' & Hloop & Hds & Hoks & Ht & Hf).
    exists (ok :: oks), (d :: ds), s'.
    split; [| split; [| split; [| split]]].
    + cbn [measure_loop]. unfold bind. rewrite Hit, Hloop.
      assert (E : (if ok then errors else errors + 1) + count_failed oks
                  = errors + ((if ok then 0 else 1) + count_failed oks))
        by (destruct ok; lia).
      rewrite <- app_assoc, count_failed_cons, E. reflexivity.
    + simpl. now rewrite Hds.
    + simpl. now rewrite Hoks.
    + rewrite Ht, Ht1. simpl. now rewrite <- app_assoc.
    + intros H. constructor; auto.
Qed.

(** An optional lifecycle operation ends normally or throws, and adds
    at most its own event to the trace. *)
Lemma await_optional_spec (ev : bool -> event) (f : option (Op World)) adapter s :
  exists c s' evs,
    await_optional ev f adapter s = (c, s') /\
    trace s' = (trace s ++ evs)%list /\
    (evs = [] \/ exists ok, evs = [ev ok]) /\
    (forall code, c <> Exit code) /\
    (c = Normal tt -> evs = [] \/ evs = [ev true]) /\
    (cannot_fail adapter f -> c = Normal tt) /\
    (forall e op, f = Some op -> always_rejects_with e adapter op ->
                  c = Throw e /\ evs = [ev false]).
Proof.
  destruct f as [op |]; simpl.
  - unfold await_op. pose proof (fun e (H : always_rejects_with e adapter op) =>
                                   H (ctx s) (world s)) as Hrej.
    assert (Hful : always_fulfils adapter op -> fst (fst (op adapter (ctx s) (world s))) = Fulfilled)
      by (intros H; apply H).
    destruct (op adapter (ctx s) (world s)) as [[o c] w]. simpl in *.
    exists (completion_of o), (mkH w c (trace s ++ [ev (fulfilled o)])), [ev (fulfilled o)].
    split; [reflexivity |]. split; [reflexivity |].
    split; [right; now exists (fulfilled o) |].
    split; [destruct o; discriminate |].
    split; [destruct o; [now right | discriminate] |].
    split; [intros H; now rewrite (Hful H) |].
    intros e op' E H. injection E as <-. now rewrite (Hrej e H).
  - exists (Normal tt), s, []. rewrite app_nil_r.
    repeat split; auto; discriminate.
Qed.

(** What a run that returns a result has done: an optional setup event,
    [warmup] warmup calls, [iterations] measured calls, an optional
    teardown event; the result holds one sample per measured call and
    counts the failed measured calls. *)
Lemma runCase_normal_inv adapter caseName adapterName warmup iterations s r s' :
  runCase host cases adapter caseName adapterName warmup iterations s = (Normal r, s') ->
  exists pre wk mk post ds,
    trace s' = (trace s ++ pre ++ map (EvRun caseName) wk
                        ++ map (EvRun caseName) mk ++ post)%list /\
    (pre = [] \/ pre = [EvSetup caseName true]) /\
    (post = [] \/ post = [EvTeardown caseName true]) /\
    List.length wk = Z.to_nat warmup /\
    List.length mk = Z.to_nat iterations /\
    List.length ds = Z.to_nat iterations /\
    r = assemble adapterName caseName warmup iterations ds (count_failed mk).
Proof.
  unfold runCase. destruct (truthy (caseMap cases caseName)); simpl negb; cbv iota;
    [| discriminate].
  intros H.
  apply bind_inv_normal in H as ([] & s0 & H0 & H).
  apply bind_inv_normal in H as ([] & s1 & H1 & H).
  apply bind_inv_normal in H as ([] & s2 & H2 & H).
  apply bind_inv_normal in H as ([ts es] & s3 & H3 & H).
  apply bind_inv_normal in H as ([] & s4 & H4 & H).
  unfold ret in H. injection H as <- <-.
  unfold fresh_ctx in H0. injection H0 as <-.
  destruct (await_optional_spec (EvSetup caseName) (get_setup (caseMap cases caseName))
              adapter (mkH (world s) [] (trace s)))
    as (c1 & s1' & pre & E1 & T1 & _ & _ & P1 & _).
  rewrite H1 in E1. injection E1 as <- <-.
  destruct (warmup_loop_spec (caseMap cases caseName) caseName adapter (Z.to_nat warmup) s1)
    as (s2' & wk & E2 & T2 & L2).
  rewrite H2 in E2. injection E2 as <-.
  destruct (measure_loop_spec (caseMap cases caseName) caseName adapter
              (Z.to_nat iterations) [] 0 s2)
    as (mk & ds & s3' & E3 & Lds & Lmk & T3 & _).
  rewrite H3 in E3. injection E3 as -> -> <-.
  destruct (await_optional_spec (EvTeardown caseName)
              (get_teardown (caseMap cases caseName)) adapter s3)
    as (c4 & s4' & post & E4 & T4 & _ & _ & P4 & _).
  rewrite H4 in E4. injection E4 as <- <-.
  exists pre, wk, mk, post, ds.
  split; [| split; [| split; [| split; [| split; [| split]]]]]; try assumption.
  - rewrite T4, T3, T2, T1. simpl. now rewrite <- !app_assoc.
  - now apply P1.
  - now apply P4.
  - reflexivity.
Qed.

(** A run of a known case whose setup cannot fail reaches the teardown
    after [warmup] warmup calls and [iterations] measured calls; it
    returns the assembled result when the teardown ends normally and
    throws what the teardown throws otherwise. *)
Lemma runCase_reaches_teardown adapter caseName adapterName warmup iterations s :
  truthy (caseMap cases caseName) = true ->
  cannot_fail adapter (get_setup (caseMap cases caseName)) ->
  exists pre wk mk ds post c s',
    runCase host cases adapter caseName adapterName warmup iterations s =
    (and_then c (fun _ =>
       Normal (assemble adapterName caseName warmup iterations ds (count_failed mk))), s') /\
    trace s' = (trace s ++ pre ++ map (EvRun caseName) wk
                        ++ map (EvRun caseName) mk ++ post)%list /\
    (pre = [] \/ pre = [EvSetup caseName true]) /\
    (post = [] \/ exists ok, post = [EvTeardown caseName ok]) /\
    List.length wk = Z.to_nat warmup /\
    List.length mk = Z.to_nat iterations /\
    List.length ds = Z.to_nat iterations /\
    (forall code, c <> Exit code) /\
    (cannot_fail adapter (get_teardown (caseMap cases caseName)) -> c = Normal tt) /\
    (forall e op, get_teardown (caseMap cases caseName) = Some op ->
                  always_rejects_with e adapter op ->
                  c = Throw e /\ post = [EvTeardown caseName false]) /\
    (run_always_fails adapter (caseMap cases caseName) -> Forall (fun ok => ok = false) mk).
Proof.
  intros Hknown Hsetup.
  destruct (await_optional_spec (EvSetup caseName) (get_setup (caseMap cases caseName))
              adapter (mkH (world s) [] (trace s)))
    as (c1 & s1 & pre & E1 & T1 & _ & _ & P1 & N1 & _).
  specialize (N1 Hsetup). subst c1. specialize (P1 eq_refl).
  destruct (warmup_loop_spec (caseMap cases caseName) caseName adapter (Z.to_nat warmup) s1)
    as (s2 & wk & E2 & T2 & L2).
  destruct (measure_loop_spec (caseMap cases caseName) caseName adapter
              (Z.to_nat iterations) [] 0 s2)
    as (mk & ds & s3 & E3 & Lds & Lmk & T3 & F3).
  destruct (await_optional_spec (EvTeardown caseName)
              (get_teardown (caseMap cases caseName)) adapter s3)
    as (c4 & s4 & post & E4 & T4 & Q4 & X4 & _ & N4 & R4).
  exists pre, wk, mk, ds, post, c4, s4.
  split; [| split; [| split; [| split; [| split; [| split; [| split; [| split; [| split; [| split]]]]]]]]];
    try assumption.
  - unfold runCase. cbv zeta. rewrite Hknown. cbn [negb].
    rewrite (bind_normal fresh_ctx _ s (mkH (world s) [] (trace s)) tt eq_refl).
    rewrite (bind_normal _ _ _ _ _ E1).
    rewrite (bind_normal _ _ _ _ _ E2).
    rewrite (bind_normal _ _ _ _ _ E3).
    unfold bind. rewrite E4. destruct c4 as [[] | e | code]; reflexivity.
  - rewrite T4, T3, T2, T1. simpl. now rewrite <- !app_assoc.
Qed.

End RunnerFacts.

(** ** The calls of a run *)

Section ScheduleFacts.

Variable World : Type.
Variable host : Host World.
Variable cases : list (BenchCase World).

Implicit Types (s : HState World) (bench : property World) (adapter : DbAdapter World).

(** A call of the measured operation is [call_run] applied to the context
    and the world of the state. *)
Lemma await_run_call bench caseName adapter s :
  await_run bench caseName adapter s =
  let '(o, c, w) := call_run bench adapter (ctx s) (world s) in
  (completion_of o, mkH w c (trace s ++ [EvRun caseName (fulfilled o)])).
Proof.
  unfold await_run, call_run. destruct (get_run bench) as [op |]; [reflexivity |].
  destruct s; reflexivity.
Qed.

Lemma await_optional_call (ev : bool -> event) (f : option (Op World)) adapter s :
  await_optional ev f adapter s =
  let '(o, c, w) := call_hook f adapter (ctx s) (world s) in
  (completion_of o, mkH w c (trace s ++ hook_events ev f o)).
Proof.
  unfold await_optional, call_hook, hook_events. destruct f as [op |]; [reflexivity |].
  cbn. rewrite app_nil_r. destruct s; reflexivity.
Qed.

Lemma warmup_loop_calls bench caseName adapter (n : nat) s :
  warmup_loop bench caseName adapter n s =
  let '(oks, c, w) := calls (call_run bench adapter) n (ctx s) (world s) in
  (Normal tt, mkH w c (trace s ++ map (EvRun caseName) oks)).
Proof.
  revert s. induction n as [| n IH]; intros s.
  - cbn. rewrite app_nil_r. destruct s; reflexivity.
  - cbn [warmup_loop calls]. unfold bind, try_catch. rewrite await_run_call.
    destruct (call_run bench adapter (ctx s) (world s)) as [[o c1] w1].
    assert (E : forall r : completion unit * HState World,
               match match (completion_of o, mkH w1 c1 (trace s ++ [EvRun caseName (fulfilled o)])) with
                     | (Throw _, s') => ret tt s'
                     | other => other
                     end with
               | (Normal _, s') => warmup_loop bench caseName adapter n s'
               | (Throw e, s') => (Throw e, s')
               | (Exit code, s') => (Exit code, s')
               end
               = warmup_loop bench caseName adapter n
                   (mkH w1 c1 (trace s ++ [EvRun caseName (fulfilled o)])))
      by (intros _; destruct o; reflexivity).
    rewrite (E (Normal tt, s)). rewrite IH. cbn [ctx world trace].
    destruct (calls (call_run bench adapter) n c1 w1) as [[oks c2] w2].
    cbn [map]. now rewrite <- app_assoc.
Qed.

Lemma calls_length (call : CaseContext -> World -> Outcome * CaseContext * World)
      (n : nat) (c : CaseContext) (w : World) :
  List.length (fst (fst (calls call n c w))) = n.
Proof.
  revert c w. induction n as [| n IH]; intros c w; [reflexivity |].
  cbn [calls]. destruct (call c w) as [[o c1] w1]. specialize (IH c1 w1).
  destruct (calls call n c1 w1) as [[oks c2] w2]. cbn in *. now rewrite IH.
Qed.

Lemma timed_calls_length (clock : World -> Q * World)
      (call : CaseContext -> World -> Outcome * CaseContext * World)
      (n : nat) (c : CaseContext) (w : World) :
  List.length (fst (fst (timed_calls clock call n c w))) = n.
Proof.
  revert c w. induction n as [| n IH]; intros c w; [reflexivity |].
  cbn [timed_calls]. destruct (timed_call clock call c w) as [[sample c1] w1].
  specialize (IH c1 w1).
  destruct (timed_calls clock call n c1 w1) as [[samples c2] w2]. cbn in *. now rewrite IH.
Qed.

(** One measured iteration: the two readings of the clock around the
    call, the sample appended, the error counted when the call
    rejected. *)
Lemma measure_iteration_timed bench caseName adapter timings errors s :
  measure_iteration host bench caseName adapter timings errors s =
  let '(t0, w0) := performance_now host (world s) in
  let '(o, c1, w1) := call_run bench adapter (ctx s) w0 in
  let '(t1, w2) := performance_now host w1 in
  (Normal ((timings ++ [Binary64.round64 (t1 - t0)])%list,
           match o with Fulfilled => errors | Rejected _ => errors + 1 end),
   mkH w2 c1 (trace s ++ [EvRun caseName (fulfilled o)])).
Proof.
  unfold measure_iteration, bind at 1, now.
  destruct (performance_now host (world s)) as [t0 w0].
  unfold bind at 1, try_catch, bind at 1. rewrite await_run_call. cbn [ctx world trace].
  destruct (call_run bench adapter (ctx s) w0) as [[o c1] w1].
  destruct o as [| e]; cbn; unfold bind, now, ret; cbn;
    destruct (performance_now host w1) as [t1 w2]; reflexivity.
Qed.

Lemma measure_iteration_timed_call bench caseName adapter timings errors s :
  measure_iteration host bench caseName adapter timings errors s =
  let '(sample, c, w) := timed_call (performance_now host) (call_run bench adapter)
                                    (ctx s) (world s) in
  (Normal ((timings ++ [fst sample])%list, errors + count_failed [snd sample]),
   mkH w c (trace s ++ [EvRun caseName (snd sample)])).
Proof.
  rewrite measure_iteration_timed. unfold timed_call.
  destruct (performance_now host (world s)) as [t0 w0].
  destruct (call_run bench adapter (ctx s) w0) as [[o c1] w1].
  destruct (performance_now host w1) as [t1 w2].
  destruct o; cbn [fst snd fulfilled]; unfold count_failed, len; cbn;
    rewrite ?Z.add_0_r; reflexivity.
Qed.

Lemma measure_loop_timed bench caseName adapter (n : nat) timings errors s :
  measure_loop host bench caseName adapter n timings errors s =
  let '(samples, c, w) := timed_calls (performance_now host) (call_run bench adapter) n
                                      (ctx s) (world s) in
  (Normal ((timings ++ map fst samples)%list, errors + count_failed (map snd samples)),
   mkH w c (trace s ++ map (EvRun caseName) (map snd samples))).
Proof.
  revert timings errors s. induction n as [| n IH]; intros timings errors s.
  - cbn. unfold ret, count_failed, len. cbn. rewrite !app_nil_r, Z.add_0_r.
    destruct s; reflexivity.
  - cbn [measure_loop timed_calls]. unfold bind. rewrite measure_iteration_timed_call.
    destruct (timed_call (performance_now host) (call_run bench adapter) (ctx s) (world s))
      as [[sample c1] w1].
    rewrite IH. cbn [ctx world trace].
    destruct (timed_calls (performance_now host) (call_run bench adapter) n c1 w1)
      as [[samples c2] w2].
    cbn [map]. rewrite <- !app_assoc. cbn [app].
    rewrite (count_failed_cons (snd sample) (map snd samples)).
    assert (E : count_failed [snd sample] = (if snd sample then 0 else 1))
      by (destruct (snd sample); reflexivity).
    rewrite E, Z.add_assoc. reflexivity.
Qed.

(** The whole of [runCase] on a name that reads as a case or as an
    inherited property: the setup on a fresh context, then, unless the
    setup rejected, the warmup calls, the timed calls and the teardown,
    each on the context and the world the previous step left. *)
Lemma runCase_schedule adapter caseName adapterName warmup iterations s :
  truthy (caseMap cases caseName) = true ->
  runCase host cases adapter caseName adapterName warmup iterations s =
  let bench := caseMap cases caseName in
  let '(o1, c1, w1) := call_hook (get_setup bench) adapter [] (world s) in
  match o1 with
  | Rejected e =>
      (Throw e, mkH w1 c1 (trace s ++ hook_events (EvSetup caseName) (get_setup bench) o1))
  | Fulfilled =>
      let '(wk, c2, w2) := calls (call_run bench adapter) (Z.to_nat warmup) c1 w1 in
      let '(samples, c3, w3) :=
        timed_calls (performance_now host) (call_run bench adapter)
                    (Z.to_nat iterations) c2 w2 in
      let '(o4, c4, w4) := call_hook (get_teardown bench) adapter c3 w3 in
      (match o4 with
       | Rejected e => Throw e
       | Fulfilled =>
           Normal (assemble adapterName caseName warmup iterations
                            (map fst samples) (count_failed (map snd samples)))
       end,
       mkH w4 c4 (trace s ++ hook_events (EvSetup caseName) (get_setup bench) o1
                          ++ map (EvRun caseName) wk
                          ++ map (EvRun caseName) (map snd samples)
                          ++ hook_events (EvTeardown caseName) (get_teardown bench) o4))
  end.
Proof.
  intros Hknown. unfold runCase. cbv zeta. rewrite Hknown. cbn [negb].
  rewrite (bind_normal fresh_ctx _ s (mkH (world s) [] (trace s)) tt eq_refl).
  unfold bind at 1. rewrite await_optional_call. cbn [ctx world trace].
  destruct (call_hook (get_setup (caseMap cases caseName)) adapter [] (world s))
    as [[o1 c1] w1].
  destruct o1 as [| e1]; cbn [completion_of]; [| reflexivity].
  unfold bind at 1. rewrite warmup_loop_calls. cbn [ctx world trace].
  destruct (calls (call_run (caseMap cases caseName) adapter) (Z.to_nat warmup) c1 w1)
    as [[wk c2] w2].
  unfold bind at 1. rewrite measure_loop_timed. cbn [ctx world trace].
  destruct (timed_calls (performance_now host) (call_run (caseMap cases caseName) adapter)
                        (Z.to_nat iterations) c2 w2) as [[samples c3] w3].
  unfold bind at 1. rewrite await_optional_call. cbn [ctx world trace].
  destruct (call_hook (get_teardown (caseMap cases caseName)) adapter c3 w3)
    as [[o4 c4] w4].
  cbn [app]. rewrite <- !app_assoc.
  destruct o4 as [| e4]; cbn [completion_of]; reflexivity.
Qed.

Lemma call_hook_cannot_fail (f : option (Op World)) adapter (c : CaseContext) (w : World) :
  cannot_fail adapter f -> fst (fst (call_hook f adapter c w)) = Fulfilled.
Proof.
  destruct f as [op |]; cbn [cannot_fail call_hook]; [intros H; apply H | reflexivity].
Qed.

Lemma call_run_fails bench adapter (c : CaseContext) (w : World) :
  run_always_fails adapter bench -> fulfilled (fst (fst (call_run bench adapter c w))) = false.
Proof.
  unfold run_always_fails, call_run. destruct (get_run bench) as [op |];
    [intros H; apply H | reflexivity].
Qed.

Lemma timed_calls_fail bench adapter (n : nat) (c : CaseContext) (w : World) :
  run_always_fails adapter bench ->
  Forall (fun ok => ok = false)
         (map snd (fst (fst (timed_calls (performance_now host) (call_run bench adapter) n c w)))).
Proof.
  intros Hf. revert c w. induction n as [| n IH]; intros c w; [constructor |].
  cbn [timed_calls]. unfold timed_call.
  destruct (performance_now host w) as [t0 w0].
  pose proof (call_run_fails bench adapter c w0 Hf) as Hcall.
  destruct (call_run bench adapter c w0) as [[o c1] w1]. cbn [fst] in Hcall.
  destruct (performance_now host w1) as [t1 w2].
  specialize (IH c1 w2).
  destruct (timed_calls (performance_now host) (call_run bench adapter) n c1 w2)
    as [[samples c2] w3].
  cbn [fst snd map] in *. constructor; [exact Hcall | exact IH].
Qed.

Lemma run_outcomes_hook (ev : bool -> event) (f : option (Op World)) (o : Outcome) :
  (forall ok, run_outcomes [ev ok] = []) -> run_outcomes (hook_events ev f o) = [].
Proof. intros H. destruct f; cbn [hook_events]; [apply H | reflexivity]. Qed.

End ScheduleFacts.

Section RunnerTheorems.

Variable World : Type.
Variable host : Host World.
Variable cases : list (BenchCase World).

Implicit Types (s : HState World) (adapter : DbAdapter World).

(** C1. Every result [runCase] returns for an iteration count
    [iterations >= 0] records that count, holds exactly [iterations]
    timings, and counts at most [iterations] errors, whatever the case,
    the adapter and the state, hence whatever the measured operation
    does. *)
Theorem runCase_timings_length adapter caseName adapterName warmup iterations s r s' :
  0 <= iterations ->
  runCase host cases adapter caseName adapterName warmup iterations s = (Normal r, s') ->
  RunResult.iterations r = iterations /\
  len (RunResult.timings_ms r) = RunResult.iterations r /\
  0 <= RunResult.errors r <= RunResult.iterations r.
Proof.
  intros Hn H.
  apply runCase_normal_inv in H
    as (pre & wk & mk & post & ds & _ & _ & _ & _ & Lmk & Lds & ->).
  cbn [assemble RunResult.iterations RunResult.timings_ms RunResult.errors].
  pose proof (count_failed_bounds mk) as Hb.
  unfold len in *. lia.
Qed.

(** C4. In the measurement phase one iteration reads the clock, awaits
    the call of the measured operation on the context and the world as
    they are, reads the clock again, and always ends normally: it appends
    the difference of the two readings (the binary64 number [t1 - t0]
    is) to [timings], whether the call fulfilled or rejected, and adds
    one to [errors] exactly when the call rejected.  The loop of [iterations] iterations always ends normally:
    it has made [iterations] timed calls one after the other, appended
    their durations in order, and added the number of rejected calls to
    [errors].  And the run of a known case whose setup and teardown
    cannot fail returns a result whose timings are the durations of the
    [iterations] timed calls made after the setup and the warmup calls,
    and whose [errors] is the number of those calls that rejected, which
    is [iterations] when the measured operation fails on every call. *)
Theorem measured_failures_counted adapter caseName adapterName warmup iterations
        s timings errors :
  0 <= iterations ->
  let bench := caseMap cases caseName in
  let clock := performance_now host in
  let call := call_run bench adapter in
  (let '(t0, w0) := clock (world s) in
   let '(o, c1, w1) := call (ctx s) w0 in
   let '(t1, w2) := clock w1 in
   measure_iteration host bench caseName adapter timings errors s =
   (Normal ((timings ++ [Binary64.round64 (t1 - t0)])%list,
            match o with Fulfilled => errors | Rejected _ => errors + 1 end),
    mkH w2 c1 (trace s ++ [EvRun caseName (fulfilled o)])))
  /\
  (let '(samples, c, w) := timed_calls clock call (Z.to_nat iterations) (ctx s) (world s) in
   measure_loop host bench caseName adapter (Z.to_nat iterations) timings errors s =
   (Normal ((timings ++ map fst samples)%list, errors + count_failed (map snd samples)),
    mkH w c (trace s ++ map (EvRun caseName) (map snd samples))) /\
   len samples = iterations)
  /\
  (truthy bench = true ->
   cannot_fail adapter (get_setup bench) ->
   cannot_fail adapter (get_teardown bench) ->
   let '(_, c1, w1) := call_hook (get_setup bench) adapter [] (world s) in
   let '(wk, c2, w2) := calls call (Z.to_nat warmup) c1 w1 in
   let '(samples, c3, w3) := timed_calls clock call (Z.to_nat iterations) c2 w2 in
   let '(_, c4, w4) := call_hook (get_teardown bench) adapter c3 w3 in
   exists r evs,
     runCase host cases adapter caseName adapterName warmup iterations s
     = (Normal r, mkH w4 c4 (trace s ++ evs)) /\
     run_outcomes evs = (wk ++ map snd samples)%list /\
     RunResult.timings_ms r = map fst samples /\
     len (RunResult.timings_ms r) = iterations /\
     RunResult.iterations r = iterations /\
     RunResult.errors r = count_failed (map snd samples) /\
     (run_always_fails adapter bench -> RunResult.errors r = iterations)).
Proof.
  intros Hn bench clock call. split; [| split].
  - rewrite measure_iteration_timed. subst clock call.
    destruct (performance_now host (world s)) as [t0 w0].
    destruct (call_run bench adapter (ctx s) w0) as [[o c1] w1].
    destruct (performance_now host w1) as [t1 w2]. reflexivity.
  - pose proof (measure_loop_timed World host bench caseName adapter (Z.to_nat iterations)
                  timings errors s) as H.
    pose proof (timed_calls_length World clock call (Z.to_nat iterations) (ctx s) (world s))
      as L.
    fold clock call in H.
    destruct (timed_calls clock call (Z.to_nat iterations) (ctx s) (world s))
      as [[samples c] w].
    cbn [fst] in L. split; [exact H | unfold len; lia].
  - intros Hknown Hsetup Hteardown.
    pose proof (runCase_schedule World host cases adapter caseName adapterName warmup iterations
                  s Hknown) as H.
    cbv zeta in H. fold bench clock call in H.
    pose proof (call_hook_cannot_fail World (get_setup bench) adapter [] (world s) Hsetup) as H1.
    destruct (call_hook (get_setup bench) adapter [] (world s)) as [[o1 c1] w1].
    cbn [fst] in H1. subst o1.
    destruct (calls call (Z.to_nat warmup) c1 w1) as [[wk c2] w2].
    pose proof (timed_calls_length World clock call (Z.to_nat iterations) c2 w2) as L.
    pose proof (timed_calls_fail World host bench adapter (Z.to_nat iterations) c2 w2) as F.
    fold clock call in F.
    destruct (timed_calls clock call (Z.to_nat iterations) c2 w2) as [[samples c3] w3].
    cbn [fst] in L, F.
    pose proof (call_hook_cannot_fail World (get_teardown bench) adapter c3 w3 Hteardown) as H4.
    destruct (call_hook (get_teardown bench) adapter c3 w3) as [[o4 c4] w4].
    cbn [fst] in H4. subst o4.
    eexists _, _. split; [exact H |].
    cbn [assemble RunResult.timings_ms RunResult.iterations RunResult.errors].
    assert (Lm : len (map fst samples) = iterations)
      by (unfold len; rewrite length_map; lia).
    split.
    { rewrite !run_outcomes_app, !run_outcomes_runs.
      rewrite !run_outcomes_hook by (intros ok; reflexivity).
      cbn [app]. now rewrite app_nil_r. }
    split; [reflexivity |]. split; [exact Lm |]. split; [reflexivity |].
    split; [reflexivity |].
    intros Hf. rewrite (count_failed_all _ (F Hf)). unfold len in *.
    rewrite length_map in *. lia.
Qed.



End RunnerTheorems.

(* ------------------------------------------------------------------ *)
(** ** The runner on the sample world *)

Module SampleRuns.

Import Sample.

Lemma runCase_timings_length_witness :
  exists r s',
    refused_run = (Normal r, s') /\
    RunResult.iterations r = 3 /\
    len (RunResult.timings_ms r) = RunResult.iterations r /\
    0 <= RunResult.errors r <= RunResult.iterations r.
Proof.
  eexists. eexists. split.
  - vm_compute. reflexivity.
  - eapply (runCase_timings_length World host (Registry.cases World) (adapter 3 refused)
              "findUserById" "knex" 1 3 start).
    + lia.
    + vm_compute. reflexivity.
Defined.

Lemma measured_failures_counted_witness :
  exists r s',
    refused_run = (Normal r, s') /\
    len (RunResult.timings_ms r) = 3 /\ RunResult.errors r = 3.
Proof.
  pose proof (proj2 (proj2 (measured_failures_counted World host (Registry.cases World)
                              (adapter 3 refused) "findUserById" "knex" 1 3 start [] 0
                              ltac:(lia)))) as H.
  cbv zeta in H.
  assert (Hknown : truthy (caseMap (Registry.cases World) "findUserById") = true)
    by reflexivity.
  assert (Hsetup : cannot_fail (adapter 3 refused)
                     (get_setup (caseMap (Registry.cases World) "findUserById")))
    by (intros c w; reflexivity).
  assert (Hteardown : cannot_fail (adapter 3 refused)
                        (get_teardown (caseMap (Registry.cases World) "findUserById")))
    by exact I.
  specialize (H Hknown Hsetup Hteardown).
  vm_compute in H.
  destruct H as (r & evs & Hrun & _ & _ & Ht & _ & _ & He).
  exists r. eexists. split; [vm_compute; exact Hrun |].
  split; [exact Ht |]. apply He. intros c w. reflexivity.
Defined.




End SampleRuns.

(* ================================================================== *)
(** * Properties of the orchestrator *)
(* ================================================================== *)

Section TraceFacts.

Lemma lc_run_app (open : option string) (xs ys : list event) :
  lc_run open (xs ++ ys) =
  match lc_run open xs with
  | Some open' => lc_run open' ys
  | None => None
  end.
Proof.
  revert open. induction xs as [| e xs IH]; intros open; simpl; [reflexivity |].
  destruct (lc_step open e); [apply IH | reflexivity].
Qed.

Lemma lc_run_output (open : option string) (evs : list event) :
  forallb is_output evs = true -> lc_run open evs = Some open.
Proof.
  induction evs as [| e evs IH]; simpl; [reflexivity |].
  intros H. apply andb_prop in H as [He Hevs].
  destruct e; try discriminate; destruct open; simpl; auto.
Qed.

Lemma lc_run_inside (a : string) (evs : list event) :
  forallb not_lifecycle evs = true -> lc_run (Some a) evs = Some (Some a).
Proof.
  induction evs as [| e evs IH]; simpl; [reflexivity |].
  intros H. apply andb_prop in H as [He Hevs].
  destruct e; try discriminate; simpl; auto.
Qed.

Lemma constructs_app (xs ys : list event) :
  constructs (xs ++ ys) = (constructs xs ++ constructs ys)%list.
Proof.
  induction xs as [| e xs IH]; [reflexivity |].
  destruct e; simpl; now rewrite IH.
Qed.

Lemma closes_app (xs ys : list event) :
  closes (xs ++ ys) = (closes xs ++ closes ys)%list.
Proof.
  induction xs as [| e xs IH]; [reflexivity |].
  destruct e; simpl; now rewrite IH.
Qed.

Lemma constructs_not_lifecycle (evs : list event) :
  forallb not_lifecycle evs = true -> constructs evs = [] /\ closes evs = [].
Proof.
  induction evs as [| e evs IH]; simpl; [auto |].
  intros H. apply andb_prop in H as [He Hevs].
  destruct e; try discriminate; simpl; auto.
Qed.

Lemma output_not_lifecycle (evs : list event) :
  forallb is_output evs = true -> forallb not_lifecycle evs = true.
Proof.
  induction evs as [| e evs IH]; simpl; [auto |].
  intros H. apply andb_prop in H as [He Hevs].
  rewrite (IH Hevs). destruct e; try discriminate; reflexivity.
Qed.

(** In an accepted trace the adapters closed are the adapters
    constructed, in the same order. *)
Lemma lc_run_closes (evs : list event) (open final : option string) :
  lc_run open evs = Some final ->
  (match open with Some a => [a] | None => [] end ++ constructs evs)%list =
  (closes evs ++ match final with Some a => [a] | None => [] end)%list.
Proof.
  revert open. induction evs as [| e evs IH]; intros open H; simpl in *.
  - injection H as <-. now rewrite app_nil_r.
  - destruct (lc_step open e) as [open' |] eqn:E; [| discriminate].
    specialize (IH open' H).
    destruct e, open as [b |]; simpl in E; try discriminate.
    all: try (destruct (String.eqb_spec adapterName b) as [-> |]; [| discriminate]).
    all: injection E as <-; simpl in *; try exact IH.
    now rewrite <- IH.
Qed.

Lemma balanced_closes (evs : list event) : balanced evs -> closes evs = constructs evs.
Proof.
  intros H. apply lc_run_closes in H. simpl in H. now rewrite app_nil_r in H.
Qed.

End TraceFacts.

Section EffectFacts.

Variable World : Type.

Implicit Types (s : HState World).

Lemma bind_inv {A B} (m : M (HState World) A) (k : A -> M (HState World) B) s c s' :
  bind m k s = (c, s') ->
  (exists a s1, m s = (Normal a, s1) /\ k a s1 = (c, s')) \/
  (exists e, m s = (Throw e, s') /\ c = Throw e) \/
  (exists code, m s = (Exit code, s') /\ c = Exit code).
Proof.
  unfold bind. destruct (m s) as [[a | e | code] s1]; intros H.
  - left. now exists a, s1.
  - right. left. injection H as <- <-. now exists e.
  - right. right. injection H as <- <-. now exists code.
Qed.

Lemma emits_ret P {A} (a : A) : emits World P (ret a).
Proof.
  intros s c s' H. injection H as <- <-. exists []. now rewrite app_nil_r.
Qed.

Lemma emits_throw P {A} (e : exn) : emits World P (@throw _ A e).
Proof.
  intros s c s' H. injection H as <- <-. exists []. now rewrite app_nil_r.
Qed.

Lemma emits_exit P {A} (code : Z) : emits World P (@process_exit _ A code).
Proof.
  intros s c s' H. injection H as <- <-. exists []. now rewrite app_nil_r.
Qed.

Lemma emits_lift P {A} (c : completion A) : emits World P (lift c).
Proof.
  intros s c' s' H. injection H as <- <-. exists []. now rewrite app_nil_r.
Qed.

Lemma emits_log P (e : event) : P e = true -> emits World P (log e).
Proof.
  intros He s c s' H. injection H as <- <-. exists [e]. simpl. now rewrite He.
Qed.

Lemma emits_bind P {A B} (m : M (HState World) A) (k : A -> M (HState World) B) :
  emits World P m -> (forall a, emits World P (k a)) -> emits World P (bind m k).
Proof.
  intros Hm Hk s c s' H.
  apply bind_inv in H as [(a & s1 & H1 & H2) | [(e & H1 & _) | (code & H1 & _)]].
  - destruct (Hm _ _ _ H1) as (evs1 & T1 & F1).
    destruct (Hk a _ _ _ H2) as (evs2 & T2 & F2).
    exists (evs1 ++ evs2)%list. rewrite T2, T1, <- app_assoc, forallb_app, F1, F2. auto.
  - exact (Hm _ _ _ H1).
  - exact (Hm _ _ _ H1).
Qed.

Lemma emits_try_catch P {A} (m : M (HState World) A) (h : exn -> M (HState World) A) :
  emits World P m -> (forall e, emits World P (h e)) -> emits World P (try_catch m h).
Proof.
  intros Hm Hh s c s' H. unfold try_catch in H.
  destruct (m s) as [[a | e | code] s1] eqn:E.
  - injection H as <- <-. exact (Hm _ _ _ E).
  - destruct (Hm _ _ _ E) as (evs1 & T1 & F1).
    destruct (Hh e _ _ _ H) as (evs2 & T2 & F2).
    exists (evs1 ++ evs2)%list. rewrite T2, T1, <- app_assoc, forallb_app, F1, F2. auto.
  - injection H as <- <-. exact (Hm _ _ _ E).
Qed.

Lemma emits_weaken (P Q : event -> bool) {A} (m : M (HState World) A) :
  (forall e, P e = true -> Q e = true) -> emits World P m -> emits World Q m.
Proof.
  intros HPQ Hm s c s' H. destruct (Hm _ _ _ H) as (evs & T & F).
  exists evs. split; [exact T |].
  rewrite forallb_forall in *. auto.
Qed.

Lemma no_exit_ret {A} (a : A) : no_exit World (ret a).
Proof. intros s c s' H code. injection H as <- <-. discriminate. Qed.

Lemma no_exit_throw {A} (e : exn) : no_exit World (@throw _ A e).
Proof. intros s c s' H code. injection H as <- <-. discriminate. Qed.

Lemma no_exit_log (e : event) : no_exit World (log e).
Proof. intros s c s' H code. injection H as <- <-. discriminate. Qed.

Lemma no_exit_lift {A} (c : completion A) :
  (forall code, c <> Exit code) -> no_exit World (lift c).
Proof. intros Hc s c' s' H code. injection H as <- <-. apply Hc. Qed.

Lemma no_exit_bind {A B} (m : M (HState World) A) (k : A -> M (HState World) B) :
  no_exit World m -> (forall a, no_exit World (k a)) -> no_exit World (bind m k).
Proof.
  intros Hm Hk s c s' H code.
  apply bind_inv in H as [(a & s1 & H1 & H2) | [(e & H1 & ->) | (code' & H1 & ->)]].
  - exact (Hk a _ _ _ H2 code).
  - discriminate.
  - exfalso. exact (Hm _ _ _ H1 code' eq_refl).
Qed.

Lemma no_exit_try_catch {A} (m : M (HState World) A) (h : exn -> M (HState World) A) :
  no_exit World m -> (forall e, no_exit World (h e)) -> no_exit World (try_catch m h).
Proof.
  intros Hm Hh s c s' H code. unfold try_catch in H.
  destruct (m s) as [[a | e | code'] s1] eqn:E.
  - injection H as <- <-. discriminate.
  - exact (Hh e _ _ _ H code).
  - exfalso. exact (Hm _ _ _ E code' eq_refl).
Qed.

(** What [try ... finally] does when the body cannot end the process. *)
Lemma try_finally_inv {A} (m : M (HState World) A) (f : M (HState World) unit) s c s' :
  no_exit World m ->
  try_finally m f s = (c, s') ->
  exists c1 s1 c2,
    m s = (c1, s1) /\ f s1 = (c2, s') /\
    c = match c2 with
        | Normal _ => c1
        | Throw e => Throw e
        | Exit code => Exit code
        end.
Proof.
  intros Hm H. unfold try_finally in H.
  destruct (m s) as [c1 s1] eqn:E.
  pose proof (Hm _ _ _ E) as Hc1.
  destruct c1 as [a | e | code]; [| | exfalso; exact (Hc1 code eq_refl)];
    destruct (f s1) as [[[] | e2 | code2] s2] eqn:E2; injection H as <- <-;
    eexists _, s1, _; (split; [reflexivity | split; [exact E2 | reflexivity]]).
Qed.

End EffectFacts.

Section OrchestratorFacts.

Variable World : Type.
Variable host : Host World.
Variable cases : list (BenchCase World).

Implicit Types (s : HState World) (adapter : DbAdapter World) (bench : property World).

Lemma calm_ret {A} (a : A) : calm World (ret a).
Proof. split; [apply emits_ret | apply no_exit_ret]. Qed.

Lemma calm_throw {A} (e : exn) : calm World (@throw _ A e).
Proof. split; [apply emits_throw | apply no_exit_throw]. Qed.

Lemma calm_log (e : event) : not_lifecycle e = true -> calm World (log e).
Proof. intros H. split; [now apply emits_log | apply no_exit_log]. Qed.

Lemma calm_bind {A B} (m : M (HState World) A) (k : A -> M (HState World) B) :
  calm World m -> (forall a, calm World (k a)) -> calm World (bind m k).
Proof.
  intros [Hm1 Hm2] Hk. split.
  - apply emits_bind; [exact Hm1 | intros a; apply Hk].
  - apply no_exit_bind; [exact Hm2 | intros a; apply Hk].
Qed.

Lemma calm_try_catch {A} (m : M (HState World) A) (h : exn -> M (HState World) A) :
  calm World m -> (forall e, calm World (h e)) -> calm World (try_catch m h).
Proof.
  intros [Hm1 Hm2] Hh. split.
  - apply emits_try_catch; [exact Hm1 | intros e; apply Hh].
  - apply no_exit_try_catch; [exact Hm2 | intros e; apply Hh].
Qed.

Lemma calm_lift {A} (c : completion A) : (forall code, c <> Exit code) -> calm World (lift c).
Proof. intros H. split; [apply emits_lift | now apply no_exit_lift]. Qed.

Lemma calm_await_op (ev : bool -> event) (op : Op World) adapter :
  (forall ok, not_lifecycle (ev ok) = true) -> calm World (await_op ev op adapter).
Proof.
  intros Hev. split; intros s c s' H; unfold await_op in H;
    destruct (op adapter (ctx s) (world s)) as [[o c0] w]; injection H as <- <-.
  - exists [ev (fulfilled o)]. simpl. now rewrite Hev.
  - intros code. destruct o; discriminate.
Qed.

Lemma calm_await_optional (ev : bool -> event) (f : option (Op World)) adapter :
  (forall ok, not_lifecycle (ev ok) = true) -> calm World (await_optional ev f adapter).
Proof.
  intros Hev. destruct f as [op |]; simpl; [now apply calm_await_op | apply calm_ret].
Qed.

Lemma calm_await_run bench caseName adapter : calm World (await_run bench caseName adapter).
Proof.
  unfold await_run. destruct (get_run bench) as [op |].
  - now apply calm_await_op.
  - apply calm_bind; [now apply calm_log | intros _; apply calm_throw].
Qed.

Lemma calm_now : calm World (now host).
Proof.
  split; intros s c s' H; unfold now in H;
    destruct (performance_now host (world s)) as [t w]; injection H as <- <-.
  - exists []. simpl. now rewrite app_nil_r.
  - discriminate.
Qed.

Lemma calm_fresh_ctx : calm World (@fresh_ctx World).
Proof.
  split; intros s c s' H; injection H as <- <-.
  - exists []. simpl. now rewrite app_nil_r.
  - discriminate.
Qed.

Lemma calm_warmup_loop bench caseName adapter (n : nat) :
  calm World (warmup_loop bench caseName adapter n).
Proof.
  induction n as [| n IH]; simpl; [apply calm_ret |].
  apply calm_bind; [| intros _; exact IH].
  apply calm_try_catch; [apply calm_await_run | intros _; apply calm_ret].
Qed.

Lemma calm_measure_iteration bench caseName adapter timings errors :
  calm World (measure_iteration host bench caseName adapter timings errors).
Proof.
  unfold measure_iteration.
  apply calm_bind; [apply calm_now | intros t0].
  apply calm_bind.
  - apply calm_try_catch; [| intros _; apply calm_ret].
    apply calm_bind; [apply calm_await_run | intros _; apply calm_ret].
  - intros errors'. apply calm_bind; [apply calm_now | intros t1; apply calm_ret].
Qed.

Lemma calm_measure_loop bench caseName adapter (n : nat) timings errors :
  calm World (measure_loop host bench caseName adapter n timings errors).
Proof.
  revert timings errors. induction n as [| n IH]; intros timings errors; simpl;
    [apply calm_ret |].
  apply calm_bind; [apply calm_measure_iteration | intros [timings' errors']; apply IH].
Qed.

Lemma calm_runCase adapter caseName adapterName warmup iterations :
  calm World (runCase host cases adapter caseName adapterName warmup iterations).
Proof.
  unfold runCase. destruct (negb (truthy (caseMap cases caseName))); [apply calm_throw |].
  apply calm_bind; [apply calm_fresh_ctx | intros _].
  apply calm_bind; [now apply calm_await_optional | intros _].
  apply calm_bind; [apply calm_warmup_loop | intros _].
  apply calm_bind; [apply calm_measure_loop | intros [timings errors]].
  apply calm_bind; [now apply calm_await_optional | intros _; apply calm_ret].
Qed.

Lemma and_then_no_exit {A B} (c : completion A) (k : A -> completion B) :
  (forall code, c <> Exit code) -> (forall a code, k a <> Exit code) ->
  forall code, and_then c k <> Exit code.
Proof.
  intros Hc Hk code. destruct c as [a | e | code']; simpl;
    [apply Hk | discriminate | exfalso; exact (Hc code' eq_refl)].
Qed.

Lemma toFixed_no_exit (exp : Q -> string) (x : jsval) (f : nat) (code : Z) :
  toFixed exp x f <> Exit code.
Proof.
  destruct x as [q | | negative |]; unfold toFixed, digits_checked;
    destruct (100 <? f)%nat; try discriminate.
  destruct (Qle_bool (inject_Z (10 ^ 21)) (Qabs q)); [discriminate |].
  destruct (Nat.eqb f 0); discriminate.
Qed.

Lemma progress_line_no_exit (result : RunResult.t) (code : Z) :
  progress_line World host result <> Exit code.
Proof.
  unfold progress_line.
  repeat (apply and_then_no_exit; [intros ?; apply toFixed_no_exit | intros ? ?; cbv beta]).
  discriminate.
Qed.

Lemma calm_cases_loop adapter adapterName caseNames warmup iterations allResults :
  calm World (cases_loop host cases adapter adapterName caseNames warmup iterations allResults).
Proof.
  revert allResults. induction caseNames as [| caseName rest IH]; intros allResults; simpl;
    [apply calm_ret |].
  apply calm_bind; [now apply calm_log | intros _].
  apply calm_bind; [apply calm_runCase | intros result].
  apply calm_bind; [apply calm_lift; intros code; apply progress_line_no_exit | intros line].
  apply calm_bind; [now apply calm_log | intros _; apply IH].
Qed.

(** [createAdapter] either throws without a trace, or returns an
    instance and records its construction. *)
Lemma createAdapter_spec (adapterName : string) s c s' :
  createAdapter host adapterName s = (c, s') ->
  (exists e, c = Throw e /\ trace s' = trace s) \/
  (exists adapter, c = Normal adapter /\
                   trace s' = (trace s ++ [EvConstruct adapterName])%list).
Proof.
  assert (Hc : forall new, construct World adapterName new s = (c, s') ->
             (exists e, c = Throw e /\ trace s' = trace s) \/
             (exists adapter, c = Normal adapter /\
                              trace s' = (trace s ++ [EvConstruct adapterName])%list)).
  { intros new H. unfold construct in H.
    destruct (new (world s)) as [[e | adapter] w]; injection H as <- <-.
    - left. now exists e.
    - right. now exists adapter. }
  unfold createAdapter.
  repeat (match goal with |- context [if ?b then _ else _] => destruct b end;
          [apply Hc |]).
  intros H. injection H as <- <-. left. eexists. split; reflexivity.
Qed.

Lemma adapter_close_spec (adapterName : string) adapter s c s' :
  adapter_close adapterName adapter s = (c, s') ->
  trace s' = (trace s ++ [EvClose adapterName])%list /\ forall code, c <> Exit code.
Proof.
  unfold adapter_close. destruct (close adapter (world s)) as [o w].
  intros H. injection H as <- <-. split; [reflexivity |].
  intros code. destruct o; discriminate.
Qed.

(** The loop over the adapters never ends the process, and its trace is
    balanced: each adapter it constructs is closed once, after the case
    operations run on it, whether they ended normally or threw. *)
Lemma adapters_loop_balanced (adapterNames caseNames : list string) (warmup iterations : Z)
      (allResults : list RunResult.t) s c s' :
  adapters_loop host cases adapterNames caseNames warmup iterations allResults s = (c, s') ->
  (forall code, c <> Exit code) /\
  exists evs,
    trace s' = (trace s ++ evs)%list /\
    balanced evs /\
    (forall results, c = Normal results -> constructs evs = adapterNames).
Proof.
  revert allResults s. induction adapterNames as [| a rest IH]; intros allResults s H.
  - injection H as <- <-. split; [discriminate |].
    exists []. rewrite app_nil_r. repeat split.
  - cbn [adapters_loop] in H.
    apply bind_inv in H as [(u & s1 & H1 & H) | [(e & H1 & _) | (code & H1 & _)]];
      [| discriminate H1 | discriminate H1].
    injection H1 as _ <-.
    apply bind_inv in H as [(adapter & s2 & H2 & H) | [(e & H2 & ->) | (code & H2 & ->)]];
      apply createAdapter_spec in H2;
      destruct H2 as [(e' & E2 & T2) | (adapter' & E2 & T2)]; try discriminate E2.
    + injection E2 as <-.
      apply bind_inv in H as [(results & s4 & H3 & H) | [(e & H3 & ->) | (code & H3 & ->)]];
        apply try_finally_inv in H3; try apply calm_cases_loop;
        destruct H3 as (c1 & s3 & c2 & Hbody & Hclose & Hc);
        destruct (proj1 (calm_cases_loop adapter a caseNames warmup iterations allResults)
                    _ _ _ Hbody) as (inner & T3 & F3);
        apply adapter_close_spec in Hclose as [T4 Hc2].
      * apply bind_inv in H as [(u' & s5 & H5 & H) | [(e & H5 & _) | (code & H5 & _)]];
          [| discriminate H5 | discriminate H5].
        injection H5 as _ <-.
        destruct (IH _ _ H) as (Hexit & evs & T & B & C).
        split; [exact Hexit |].
        exists ([EvStdout (("── " ++ a ++ " ──") ++ LF); EvConstruct a] ++ inner
                ++ [EvClose a; EvStdout (EmptyString ++ LF)] ++ evs)%list.
        split; [| split].
        -- rewrite T. cbn [trace]. rewrite T4, T3, T2. cbn [trace].
           rewrite <- !app_assoc. reflexivity.
        -- unfold balanced. cbn [app lc_run lc_step].
           rewrite lc_run_app, (lc_run_inside a inner F3).
           cbn [app lc_run lc_step]. rewrite String.eqb_refl. exact B.
        -- intros results' ->. cbn [app constructs].
           rewrite constructs_app, (proj1 (constructs_not_lifecycle inner F3)).
           cbn [app constructs]. f_equal. now apply (C results').
      * split; [discriminate |].
        exists ([EvStdout (("── " ++ a ++ " ──") ++ LF); EvConstruct a] ++ inner
                ++ [EvClose a])%list.
        split; [| split].
        -- rewrite T4, T3, T2. cbn [trace]. rewrite <- !app_assoc. reflexivity.
        -- unfold balanced. cbn [app lc_run lc_step].
           rewrite lc_run_app, (lc_run_inside a inner F3).
           cbn [app lc_run lc_step]. now rewrite String.eqb_refl.
        -- discriminate.
      * exfalso. destruct c2 as [[] | e2 | code2].
        -- destruct (proj2 (calm_cases_loop adapter a caseNames warmup iterations allResults)
                       _ _ _ Hbody code (eq_sym Hc)).
        -- discriminate.
        -- exact (Hc2 code2 eq_refl).
    + split; [discriminate |].
      exists [EvStdout (("── " ++ a ++ " ──") ++ LF)].
      split; [| split].
      * rewrite T2. reflexivity.
      * reflexivity.
      * discriminate.
Qed.

Lemma emits_console_log (text : string) : emits World is_output (console_log World text).
Proof. now apply emits_log. Qed.

Lemma emits_console_error (text : string) : emits World is_output (console_error World text).
Proof. now apply emits_log. Qed.

Lemma emits_validate_adapters (adapterNames : list string) :
  emits World is_output (validate_adapters adapterNames).
Proof.
  induction adapterNames as [| a rest IH]; cbn [validate_adapters]; [apply emits_ret |].
  apply emits_bind; [| intros _; exact IH].
  destruct (mem a ADAPTER_NAMES); [apply emits_ret |].
  apply emits_bind; [apply emits_console_error | intros _; apply emits_exit].
Qed.

Lemma emits_validate_cases (caseNames : list string) :
  emits World is_output (validate_cases cases caseNames).
Proof.
  induction caseNames as [| c rest IH]; cbn [validate_cases]; [apply emits_ret |].
  apply emits_bind; [| intros _; exact IH].
  destruct (truthy (caseMap cases c)); [apply emits_ret |].
  apply emits_bind; [apply emits_console_error | intros _; apply emits_exit].
Qed.

Lemma emits_mkdirSync (dir : string) : emits World is_output (mkdirSync World host dir).
Proof.
  intros s c s' H. unfold mkdirSync in H.
  destruct (fs_mkdirSync World host dir (world s)) as [r w]. injection H as <- <-.
  now exists [EvMkdir dir].
Qed.

Lemma emits_writeFileSync (path data : string) :
  emits World is_output (writeFileSync World host path data).
Proof.
  intros s c s' H. unfold writeFileSync in H.
  destruct (fs_writeFileSync World host path data (world s)) as [r w]. injection H as <- <-.
  now exists [EvWriteFile path data].
Qed.

Lemma emits_toISOString : emits World is_output (toISOString World host).
Proof.
  intros s c s' H. unfold toISOString in H.
  destruct (Date_toISOString World host (world s)) as [t w]. injection H as <- <-.
  exists []. simpl. now rewrite app_nil_r.
Qed.

Lemma lifecycled_output_then (names : list string) {A B}
      (m : M (HState World) A) (k : A -> M (HState World) B) :
  emits World is_output m -> (forall a, lifecycled World names (k a)) ->
  lifecycled World names (bind m k).
Proof.
  intros Hm Hk s c s' H.
  apply bind_inv in H as [(a & s1 & H1 & H2) | [(e & H1 & ->) | (code & H1 & ->)]].
  - destruct (Hm _ _ _ H1) as (outs & T1 & F1).
    destruct (Hk a _ _ _ H2) as (evs & T2 & Bal & C).
    exists (outs ++ evs)%list. split; [| split].
    + now rewrite T2, T1, <- app_assoc.
    + unfold balanced. now rewrite lc_run_app, (lc_run_output None outs F1).
    + intros b Hb. rewrite constructs_app.
      rewrite (proj1 (constructs_not_lifecycle outs (output_not_lifecycle outs F1))).
      now apply (C b).
  - destruct (Hm _ _ _ H1) as (outs & T1 & F1).
    exists outs. split; [exact T1 |]. split; [now apply lc_run_output | discriminate].
  - destruct (Hm _ _ _ H1) as (outs & T1 & F1).
    exists outs. split; [exact T1 |]. split; [now apply lc_run_output | discriminate].
Qed.

Lemma lifecycled_then_output (names : list string) {A B}
      (m : M (HState World) A) (k : A -> M (HState World) B) :
  lifecycled World names m -> (forall a, emits World is_output (k a)) ->
  lifecycled World names (bind m k).
Proof.
  intros Hm Hk s c s' H.
  apply bind_inv in H as [(a & s1 & H1 & H2) | [(e & H1 & ->) | (code & H1 & ->)]].
  - destruct (Hm _ _ _ H1) as (evs & T1 & Bal & C).
    destruct (Hk a _ _ _ H2) as (outs & T2 & F2).
    exists (evs ++ outs)%list. split; [| split].
    + now rewrite T2, T1, <- app_assoc.
    + unfold balanced in *. rewrite lc_run_app, Bal. now apply lc_run_output.
    + intros b Hb. rewrite constructs_app.
      rewrite (proj1 (constructs_not_lifecycle outs (output_not_lifecycle outs F2))).
      rewrite app_nil_r. now apply (C a).
  - destruct (Hm _ _ _ H1) as (evs & T1 & Bal & C).
    exists evs. split; [exact T1 |]. split; [exact Bal | discriminate].
  - destruct (Hm _ _ _ H1) as (evs & T1 & Bal & C).
    exists evs. split; [exact T1 |]. split; [exact Bal | discriminate].
Qed.

Lemma lifecycled_main (adapterNames : list string) (caseOption : option (list string))
      (warmup iterations : Z) (outDir : string) :
  lifecycled World adapterNames (main host cases adapterNames caseOption warmup iterations outDir).
Proof.
  unfold main.
  apply lifecycled_output_then; [apply emits_validate_adapters | intros _].
  apply lifecycled_output_then; [apply emits_validate_cases | intros _].
  apply lifecycled_output_then; [apply emits_mkdirSync | intros _].
  do 3 (apply lifecycled_output_then; [apply emits_console_log | intros _]).
  apply lifecycled_then_output.
  - intros s c s' H. apply adapters_loop_balanced in H as (_ & evs & T & B & C).
    exists evs. split; [exact T |]. split; [exact B |]. intros a ->. now apply (C a).
  - intros allResults.
    apply emits_bind; [apply emits_toISOString | intros iso].
    apply emits_bind; [apply emits_writeFileSync | intros _].
    apply emits_bind; [apply emits_lift | intros csv].
    apply emits_bind; [apply emits_writeFileSync | intros _; apply emits_console_log].
Qed.

End OrchestratorFacts.

Section TurnFacts.

Variable World : Type.
Variable host : Host World.
Variable cases : list (BenchCase World).

Implicit Types (s : HState World) (adapter : DbAdapter World).

(** One turn of the loop over the adapters, once the adapter is
    constructed and the loop over the cases has ended: [close] is applied
    to the world the cases left, whether they returned or threw. *)
Lemma adapters_loop_turn (a : string) (rest caseNames : list string) (warmup iterations : Z)
      (allResults : list RunResult.t) s adapter s1 (c1 : completion (list RunResult.t)) s2 :
  createAdapter host a (announced a s) = (Normal adapter, s1) ->
  cases_loop host cases adapter a caseNames warmup iterations allResults s1 = (c1, s2) ->
  let closed := mkH (snd (close adapter (world s2))) (ctx s2) (trace s2 ++ [EvClose a]) in
  match c1 with
  | Normal results =>
      adapters_loop host cases (a :: rest) caseNames warmup iterations allResults s =
      match fst (close adapter (world s2)) with
      | Fulfilled =>
          adapters_loop host cases rest caseNames warmup iterations results
                        (closed_by a adapter s2)
      | Rejected e => (Throw e, closed)
      end
  | Throw e1 =>
      adapters_loop host cases (a :: rest) caseNames warmup iterations allResults s =
      (Throw match fst (close adapter (world s2)) with
             | Fulfilled => e1
             | Rejected e => e
             end, closed)
  | Exit _ => False
  end.
Proof.
  intros Hcreate Hcases closed.
  pose proof (proj2 (calm_cases_loop World host cases adapter a caseNames warmup iterations
                       allResults) _ _ _ Hcases) as Hexit.
  assert (Hturn :
            adapters_loop host cases (a :: rest) caseNames warmup iterations allResults s =
            bind (try_finally
                    (cases_loop host cases adapter a caseNames warmup iterations allResults)
                    (adapter_close a adapter))
                 (fun allResults' =>
                    console_log World EmptyString ;;
                    adapters_loop host cases rest caseNames warmup iterations allResults') s1).
  { cbn [adapters_loop]. unfold console_log at 1. unfold bind at 1. cbn [log].
    fold (announced a s). unfold bind at 1. rewrite Hcreate. reflexivity. }
  destruct c1 as [results | e1 | code]; [| | exact (Hexit code eq_refl)]; rewrite Hturn;
    unfold bind at 1, try_finally; rewrite Hcases; unfold adapter_close; subst closed;
    destruct (close adapter (world s2)) as [o w] eqn:E; cbn [fst snd];
    destruct o as [| e]; cbn [completion_of]; try reflexivity.
  unfold closed_by. rewrite E. cbn [snd]. unfold console_log, bind, log.
  cbn [world ctx trace]. rewrite <- app_assoc. reflexivity.
Qed.

(** A loop over the adapters that returns has served every adapter. *)
Lemma adapters_loop_served (adapterNames caseNames : list string) (warmup iterations : Z)
      (allResults results : list RunResult.t) s s' :
  adapters_loop host cases adapterNames caseNames warmup iterations allResults s
  = (Normal results, s') ->
  served host cases caseNames warmup iterations adapterNames allResults s results s'.
Proof.
  revert allResults s. induction adapterNames as [| a rest IH]; intros allResults s H.
  - injection H as <- <-. constructor.
  - pose proof H as H0. cbn [adapters_loop] in H.
    unfold console_log at 1 in H. unfold bind at 1 in H. cbn [log] in H.
    fold (announced a s) in H.
    apply bind_inv_normal in H as (adapter & s1 & Hcreate & H).
    destruct (cases_loop host cases adapter a caseNames warmup iterations allResults s1)
      as [c1 s2] eqn:Hcases.
    pose proof (adapters_loop_turn a rest caseNames warmup iterations allResults s adapter
                  s1 c1 s2 Hcreate Hcases) as Hturn.
    cbv zeta in Hturn. destruct c1 as [mid | e1 | code]; [| | contradiction].
    + rewrite Hturn in H0.
      destruct (fst (close adapter (world s2))) eqn:Hclose; [| discriminate H0].
      econstructor; [exact Hcreate | exact Hcases | exact Hclose | now apply IH].
    + rewrite Hturn in H0. discriminate H0.
Qed.

End TurnFacts.

Section OrchestratorTheorems.

Variable World : Type.
Variable host : Host World.
Variable cases : list (BenchCase World).

(** C5. Whatever the adapters, the cases and the outside world do, the
    trace of a run of the program is balanced: the [close] of an adapter
    instance is invoked exactly once for every instance constructed, after
    the case operations run on that instance and before the next instance
    is constructed, also when a case run (its setup, say) throws; the
    adapters closed are the adapters constructed, in order; and a run that
    ends normally has constructed (and closed) one instance per selected
    adapter name, in the order given.  The invocation is the call of the
    [close] of the instance: in every turn of the loop over the adapters,
    once the instance is constructed and the loop over the cases has
    ended, [close] is applied once, to the world the cases left, whether
    that loop returned or threw.  When [close] fulfils, a loop that
    returned goes on to the next adapter and a loop that threw throws its
    error on; when [close] rejects, the turn throws the rejection.  The
    loop over the cases never ends the process. *)
Theorem adapter_closed_exactly_once (adapterNames : list string)
        (caseOption : option (list string)) (warmup iterations : Z) (outDir : string) :
  (forall (s s' : HState World) (c : completion unit),
      program host cases adapterNames caseOption warmup iterations outDir s = (c, s') ->
      exists evs,
        trace s' = (trace s ++ evs)%list /\
        balanced evs /\
        closes evs = constructs evs /\
        (c = Normal tt -> constructs evs = adapterNames /\ closes evs = adapterNames))
  /\
  (forall (a : string) (rest caseNames : list string) (allResults : list RunResult.t)
          (s s1 s2 : HState World) (adapter : DbAdapter World)
          (c1 : completion (list RunResult.t)),
      createAdapter host a (announced a s) = (Normal adapter, s1) ->
      cases_loop host cases adapter a caseNames warmup iterations allResults s1 = (c1, s2) ->
      let closed := mkH (snd (close adapter (world s2))) (ctx s2) (trace s2 ++ [EvClose a]) in
      match c1 with
      | Normal results =>
          adapters_loop host cases (a :: rest) caseNames warmup iterations allResults s =
          match fst (close adapter (world s2)) with
          | Fulfilled =>
              adapters_loop host cases rest caseNames warmup iterations results
                            (closed_by a adapter s2)
          | Rejected e => (Throw e, closed)
          end
      | Throw e1 =>
          adapters_loop host cases (a :: rest) caseNames warmup iterations allResults s =
          (Throw match fst (close adapter (world s2)) with
                 | Fulfilled => e1
                 | Rejected e => e
                 end, closed)
      | Exit _ => False
      end).
Proof.
  split.
  - intros s s' c H. unfold program, try_catch in H.
    destruct (main host cases adapterNames caseOption warmup iterations outDir s)
      as [c1 s1] eqn:E.
    destruct (lifecycled_main World host cases adapterNames caseOption warmup iterations outDir
                _ _ _ E) as (evs & T & B & C).
    destruct c1 as [[] | e | code].
    + injection H as <- <-. exists evs.
      split; [exact T |]. split; [exact B |].
      split; [now apply balanced_closes |].
      intros _. rewrite (balanced_closes evs B). split; now apply (C tt).
    + apply bind_inv in H as [(u & s2 & H1 & H2) | [(e' & H1 & _) | (code & H1 & _)]];
        [| discriminate H1 | discriminate H1].
      injection H1 as _ <-. injection H2 as <- <-.
      exists (evs ++ [EvStderr (exn_text e ++ LF)])%list.
      assert (B' : balanced (evs ++ [EvStderr (exn_text e ++ LF)])).
      { unfold balanced in *. rewrite lc_run_app, B. reflexivity. }
      split; [cbn [trace]; now rewrite T, <- app_assoc |].
      split; [exact B' |]. split; [now apply balanced_closes | discriminate].
    + injection H as <- <-. exists evs.
      split; [exact T |]. split; [exact B |].
      split; [now apply balanced_closes | discriminate].
  - intros a rest caseNames allResults s s1 s2 adapter c1 Hcreate Hcases.
    exact (adapters_loop_turn World host cases a rest caseNames warmup iterations allResults
             s adapter s1 c1 s2 Hcreate Hcases).
Qed.

End OrchestratorTheorems.

(* ------------------------------------------------------------------ *)
(** ** The program on the sample world *)

Module SamplePrograms.

Import Sample.

(** The setup of the first case rejects on the first adapter: the adapter
    is closed, the error reaches the top level, the process ends with
    status 1; the second adapter is never constructed. *)
Example setup_failure_run_trace :
  fst setup_failure_run = Exit 1 /\
  constructs (trace (snd setup_failure_run)) = ["raw"] /\
  closes (trace (snd setup_failure_run)) = ["raw"] /\
  run_outcomes (trace (snd setup_failure_run)) = [].
Proof. repeat split. Qed.

Lemma adapter_closed_exactly_once_witness :
  exists evs,
    trace (snd setup_failure_run) = evs /\ balanced evs /\ closes evs = constructs evs.
Proof.
  destruct (proj1 (adapter_closed_exactly_once World host [broken_setup] ["raw"; "knex"] None
                     1 2 "out")
                  start (snd setup_failure_run) (fst setup_failure_run))
    as (evs & T & B & C & _).
  - apply surjective_pairing.
  - exists evs. split; [exact T |]. split; [exact B | exact C].
Defined.

(** C7 (the code at a case name that is not registered). [--case
    constructor] names no case of the registry, yet [caseMap] reads the
    name as the [constructor] inherited from [Object.prototype], so the
    validation accepts it: no message is written to the error stream, the
    [raw] adapter is constructed, [bench.run] is called (and throws, being
    [undefined]) once for the warmup and twice measured, both report files
    are written and [main] returns normally. *)
Theorem inherited_case_name_accepted :
  mem "constructor" (map name (Registry.cases World)) = false /\
  (forall cases : list (BenchCase World), In "constructor" (map name cases) \/
                                         caseMap cases "constructor" = Inherited "constructor") /\
  exists s',
    program host (Registry.cases World) ["raw"] (Some ["constructor"]) 1 2 "out" start
    = (Normal tt, s') /\
    constructs (trace s') = ["raw"] /\
    run_outcomes (trace s') = [false; false; false] /\
    existsb (fun e => match e with EvStderr _ => true | _ => false end) (trace s') = false /\
    existsb (fun e => match e with EvWriteFile _ _ => true | _ => false end) (trace s') = true.
Proof.
  split; [reflexivity |]. split.
  - intros cases. unfold caseMap.
    destruct (own_case World cases "constructor") as [c |] eqn:E; [left | now right].
    clear - E. induction cases as [| c0 rest IH]; [discriminate |].
    cbn [own_case] in E. destruct (own_case World rest "constructor") as [later |].
    + right. now apply IH.
    + destruct (String.eqb_spec (name c0) "constructor") as [Hname |]; [| discriminate].
      left. exact Hname.
  - eexists. split; [vm_compute; reflexivity |]. repeat split.
Qed.

(** C9 (the code at a result of zero iterations). The result of a run
    with [iterations = 0] has the mean [NaN], and its row of the summary
    table shows the mean as [NaN], with no fractional digits. *)
Theorem toCsv_mean_of_empty_run :
  exists r s',
    empty_run = (Normal r, s') /\
    RunResult.mean r = NaN /\
    toCsv (Number_toString_exp host) [r] =
    Normal (csv_header ++ LF ++ "raw,findUserById,0,NaN,0.000,0.000,0.000,0.000,0.000,0").
Proof.
  eexists. eexists. split; [vm_compute; reflexivity |]. split; reflexivity.
Qed.

End SamplePrograms.

(* ================================================================== *)
(** * Validation of the selection *)
(* ================================================================== *)

Section ValidationFacts.

Variable World : Type.
Variable host : Host World.
Variable cases : list (BenchCase World).

Implicit Types (s : HState World).

Lemma own_case_registered (entries : list (BenchCase World)) (key : string) :
  match own_case World entries key with Some _ => true | None => false end
  = mem key (map name entries).
Proof.
  induction entries as [| c rest IH]; [reflexivity |].
  cbn [own_case map]. unfold mem in *. cbn [existsb]. rewrite <- IH.
  destruct (own_case World rest key) as [later |].
  - now rewrite orb_true_r.
  - rewrite orb_false_r, (String.eqb_sym key).
    now destruct (String.eqb (name c) key).
Qed.

(** [caseMap[c]] is truthy exactly for the registered names and for the
    keys of [Object.prototype]. *)
Lemma truthy_caseMap (c : string) :
  truthy (caseMap cases c) = negb (unknown_case cases c).
Proof.
  unfold caseMap, unknown_case. rewrite <- own_case_registered.
  destruct (own_case World cases c); [reflexivity |].
  now destruct (mem c Object_prototype_keys).
Qed.

Lemma validate_adapters_rejects (adapterNames : list string) (a : string) s :
  find unknown_adapter adapterNames = Some a ->
  validate_adapters adapterNames s =
  (Exit 1, mkH (world s) (ctx s) (trace s ++ [EvStderr (unknown_adapter_message a)])).
Proof.
  induction adapterNames as [| x rest IH]; [discriminate |].
  cbn [find validate_adapters]. unfold unknown_adapter at 1.
  destruct (mem x ADAPTER_NAMES) eqn:E; cbn [negb].
  - intros H. rewrite (bind_normal _ _ s s tt eq_refl). now apply IH.
  - intros H. injection H as <-. reflexivity.
Qed.

Lemma validate_adapters_accepts (adapterNames : list string) s :
  find unknown_adapter adapterNames = None ->
  validate_adapters adapterNames s = (Normal tt, s).
Proof.
  induction adapterNames as [| x rest IH]; [reflexivity |].
  cbn [find validate_adapters]. unfold unknown_adapter at 1.
  destruct (mem x ADAPTER_NAMES) eqn:E; cbn [negb]; [| discriminate].
  intros H. rewrite (bind_normal _ _ s s tt eq_refl). now apply IH.
Qed.

Lemma validate_cases_rejects (caseNames : list string) (c : string) s :
  find (unknown_case cases) caseNames = Some c ->
  validate_cases cases caseNames s =
  (Exit 1, mkH (world s) (ctx s) (trace s ++ [EvStderr (unknown_case_message cases c)])).
Proof.
  induction caseNames as [| x rest IH]; [discriminate |].
  cbn [find validate_cases]. rewrite truthy_caseMap.
  destruct (unknown_case cases x) eqn:E; cbn [negb].
  - intros H. injection H as <-. reflexivity.
  - intros H. rewrite (bind_normal _ _ s s tt eq_refl). now apply IH.
Qed.

(** X1. A selection that names an adapter outside [ADAPTER_NAMES], or a
    case that is neither registered nor a key of [Object.prototype], ends
    the process with status 1 before anything else happens: the only
    effect is one line on the error stream that quotes the first offending
    name and lists the valid names; no directory is made, no adapter is
    constructed, no case operation runs, the outside world is untouched. *)
Theorem unknown_name_rejected (adapterNames : list string)
        (caseOption : option (list string)) (warmup iterations : Z) (outDir : string) s :
  (exists a, find unknown_adapter adapterNames = Some a) \/
  (exists c, find (unknown_case cases)
                  (match caseOption with Some names => names | None => map name cases end)
             = Some c) ->
  exists message,
    program host cases adapterNames caseOption warmup iterations outDir s =
    (Exit 1, mkH (world s) (ctx s) (trace s ++ [EvStderr message])) /\
    match find unknown_adapter adapterNames with
    | Some a => message = unknown_adapter_message a
    | None =>
        exists c,
          find (unknown_case cases)
               (match caseOption with Some names => names | None => map name cases end)
          = Some c /\ message = unknown_case_message cases c
    end.
Proof.
  intros H. unfold program, try_catch, main.
  destruct (find unknown_adapter adapterNames) as [a |] eqn:Ea.
  - exists (unknown_adapter_message a). split; [| reflexivity].
    now rewrite (bind_exit _ _ _ _ _ (validate_adapters_rejects adapterNames a s Ea)).
  - destruct H as [[a Ha] | [c Hc]]; [discriminate |].
    exists (unknown_case_message cases c). split; [| now exists c].
    rewrite (bind_normal _ _ _ _ _ (validate_adapters_accepts adapterNames s Ea)).
    now rewrite (bind_exit _ _ _ _ _ (validate_cases_rejects _ c s Hc)).
Qed.

End ValidationFacts.

Lemma unknown_name_rejected_witness :
  fst (program Sample.host (Registry.cases Sample.World) ["raw"; "mysql"]
               (Some ["findUserById"]) 5 50 "out" Sample.start) = Exit 1.
Proof.
  destruct (unknown_name_rejected Sample.World Sample.host (Registry.cases Sample.World)
              ["raw"; "mysql"] (Some ["findUserById"]) 5 50 "out" Sample.start)
    as (message & H & _).
  - left. exists "mysql". reflexivity.
  - now rewrite H.
Defined.

(* ================================================================== *)
(** * The summary table *)
(* ================================================================== *)

Section FormatFacts.

Variable exp : Q -> string.

Lemma all_digits_app (a b : string) :
  all_digits (a ++ b) = all_digits a && all_digits b.
Proof.
  induction a as [| c a IH]; simpl; [reflexivity |].
  now rewrite IH, andb_assoc.
Qed.

Lemma length_app (a b : string) :
  String.length (a ++ b) = (String.length a + String.length b)%nat.
Proof. induction a as [| c a IH]; simpl; [reflexivity | now rewrite IH]. Qed.

Lemma all_digits_uint (d : Decimal.uint) : all_digits (NilEmpty.string_of_uint d) = true.
Proof. induction d; simpl; auto. Qed.

Lemma dec_digits (n : N) : all_digits (dec n) = true /\ (1 <= String.length (dec n))%nat.
Proof.
  unfold dec, NilZero.string_of_uint.
  destruct (N.to_uint n) as [| d | d | d | d | d | d | d | d | d | d] eqn:E.
  1: split; [reflexivity | simpl; lia].
  all: split; [apply all_digits_uint | simpl; lia].
Qed.

Lemma repeat_zero_digits (n : nat) :
  all_digits (repeat_char "0" n) = true /\ String.length (repeat_char "0" n) = n.
Proof.
  induction n as [| n [IH1 IH2]]; simpl; [auto |].
  rewrite IH1, IH2. auto.
Qed.

Lemma substring_prefix_digits (text : string) (m : nat) :
  all_digits text = true -> all_digits (String.substring 0 m text) = true.
Proof.
  revert m. induction text as [| c text IH]; intros [| m] H; simpl in *; auto.
  apply andb_prop in H as [Hc Ht]. now rewrite Hc, IH.
Qed.

Lemma substring_digits (n m : nat) (text : string) :
  all_digits text = true -> all_digits (String.substring n m text) = true.
Proof.
  revert text. induction n as [| n IH]; intros text H.
  - now apply substring_prefix_digits.
  - destruct text as [| c text]; simpl in *; [reflexivity |].
    apply andb_prop in H as [_ Ht]. now apply IH.
Qed.

Lemma substring_prefix_length (text : string) (m : nat) :
  (m <= String.length text)%nat -> String.length (String.substring 0 m text) = m.
Proof.
  revert m. induction text as [| c text IH]; intros [| m] H; simpl in *;
    [reflexivity | lia | reflexivity |].
  rewrite IH; [reflexivity | lia].
Qed.

Lemma substring_length (n m : nat) (text : string) :
  (n + m <= String.length text)%nat -> String.length (String.substring n m text) = m.
Proof.
  revert text. induction n as [| n IH]; intros text H.
  - now apply substring_prefix_length.
  - destruct text as [| c text]; simpl in *; [lia |].
    apply IH. lia.
Qed.

Lemma digits_checked_accepts (f : nat) (c : completion string) :
  (f <= 100)%nat -> digits_checked f c = c.
Proof.
  intros H. unfold digits_checked.
  destruct (Nat.ltb_spec 100 f) as [Hlt | _]; [lia | reflexivity].
Qed.

Lemma digits_checked_refuses (f : nat) (c : completion string) :
  (100 < f)%nat ->
  digits_checked f c
  = Throw (RangeError "toFixed() digits argument must be between 0 and 100").
Proof.
  intros H. unfold digits_checked.
  destruct (Nat.ltb_spec 100 f) as [_ | Hle]; [reflexivity | lia].
Qed.

(** Below [10^21] in magnitude, [toFixed(f)] with [0 < f <= 100] prints a
    sign, an integer part of at least one digit, a point and [f]
    digits. *)
Lemma toFixed_digits (q : Q) (f : nat) :
  (0 < f <= 100)%nat -> (Qabs q < inject_Z (10 ^ 21))%Q ->
  exists text, toFixed exp (Num q) f = Normal text /\ fixed_point f text.
Proof.
  intros Hf Hq.
  unfold toFixed. rewrite digits_checked_accepts by lia.
  assert (Hbig : Qle_bool (inject_Z (10 ^ 21)) (Qabs q) = false).
  { destruct (Qle_bool (inject_Z (10 ^ 21)) (Qabs q)) eqn:E; [| reflexivity].
    apply Qle_bool_iff in E. exfalso. exact (Qlt_not_le _ _ Hq E). }
  rewrite Hbig.
  destruct (Nat.eqb_spec f 0) as [-> | _]; [lia |].
  set (m0 := dec (Z.to_N (Qfloor (Qabs q * inject_Z (10 ^ Z.of_nat f) + (1 # 2))))).
  destruct (dec_digits (Z.to_N (Qfloor (Qabs q * inject_Z (10 ^ Z.of_nat f) + (1 # 2)))))
    as [Hd Hl]. fold m0 in Hd, Hl.
  destruct (repeat_zero_digits (f + 1 - String.length m0)) as [Hz Hzl].
  set (m := repeat_char "0" (f + 1 - String.length m0) ++ m0).
  assert (Hm : all_digits m = true) by (unfold m; now rewrite all_digits_app, Hz, Hd).
  assert (Hk : (f + 1 <= String.length m)%nat) by (unfold m; rewrite length_app, Hzl; lia).
  eexists. split; [reflexivity |].
  exists (if Qle_bool 0 q then EmptyString else "-"),
    (String.substring 0 (String.length m - f) m),
    (substring_from (String.length m - f) m).
  split; [reflexivity |].
  split; [destruct (Qle_bool 0 q); auto |].
  split.
  { intros E. apply (f_equal String.length) in E.
    rewrite substring_prefix_length in E by lia. simpl in E. lia. }
  split; [now apply substring_digits |].
  split; [now apply substring_digits |].
  unfold substring_from. rewrite substring_length by lia. lia.
Qed.

(** X2. A finite number below [10^21] in magnitude is printed by
    [toFixed(f)], for [f] from 1 to 100, in fixed-point notation with
    exactly [f] fractional digits; [12.3.toFixed(3)] is ["12.300"]; and
    [toFixed] of a number with more than 100 digits throws a
    [RangeError], whatever the number. *)
Theorem toFixed_fixed_point (q : Q) (f : nat) :
  (0 < f <= 100)%nat -> (Qabs q < inject_Z (10 ^ 21))%Q ->
  (exists text, toFixed exp (Num q) f = Normal text /\ fixed_point f text) /\
  toFixed exp (Num (123 # 10)) 3 = Normal "12.300" /\
  (forall (v : jsval) (g : nat),
      v <> Undefined -> (100 < g)%nat ->
      toFixed exp v g
      = Throw (RangeError "toFixed() digits argument must be between 0 and 100")).
Proof.
  intros Hf Hq. split; [now apply toFixed_digits |]. split; [reflexivity |].
  intros v g Hv Hg.
  destruct v as [x | | negative |]; unfold toFixed;
    [now apply digits_checked_refuses | now apply digits_checked_refuses
     | now apply digits_checked_refuses | contradiction].
Qed.

End FormatFacts.

Lemma toFixed_fixed_point_witness :
  exists text,
    toFixed (Number_toString_exp Sample.host) (Num (-(1 # 3))) 3 = Normal text /\
    fixed_point 3 text.
Proof.
  refine (proj1 (toFixed_fixed_point (Number_toString_exp Sample.host) (-(1 # 3)) 3 _ _)).
  - lia.
  - reflexivity.
Defined.

Section TableFacts.

Variable exp : Q -> string.

Lemma toFixed_finite (v : jsval) :
  finite_stat v -> exists text, toFixed exp v 3 = Normal text /\ fixed_point 3 text.
Proof.
  intros (q & -> & Hq). apply (toFixed_digits exp q 3); [lia | exact Hq].
Qed.

Lemma csv_row_finite (r : RunResult.t) :
  finite_stats r -> exists row, csv_row exp r = Normal row /\ table_row exp r row.
Proof.
  intros (Hmean & H50 & H95 & H99 & Hmin & Hmax).
  destruct (toFixed_finite _ Hmean) as (mean & Emean & Fmean).
  destruct (toFixed_finite _ H50) as (p50 & E50 & F50).
  destruct (toFixed_finite _ H95) as (p95 & E95 & F95).
  destruct (toFixed_finite _ H99) as (p99 & E99 & F99).
  destruct (toFixed_finite _ Hmin) as (min & Emin & Fmin).
  destruct (toFixed_finite _ Hmax) as (max & Emax & Fmax).
  eexists. split.
  - unfold csv_row. rewrite Emean, E50, E95, E99, Emin, Emax. reflexivity.
  - exists mean, p50, p95, p99, min, max. repeat split; assumption.
Qed.

(** X3. For results whose statistics are finite and below [10^21] in
    magnitude, [toCsv] returns the header line followed by one line per
    result, in the order of the results, the lines joined by line feeds;
    each line holds the ten columns adapter, case, iterations, mean, p50,
    p95, p99, min, max, errors joined by commas, every statistic in
    fixed-point notation with exactly three fractional digits. *)
Theorem toCsv_table (results : list RunResult.t) :
  Forall finite_stats results ->
  exists rows,
    toCsv exp results = Normal (join LF (csv_header :: rows)) /\
    Forall2 (table_row exp) results rows.
Proof.
  intros H. unfold toCsv.
  assert (Hrows : exists rows, map_throwing (csv_row exp) results = Normal rows /\
                               Forall2 (table_row exp) results rows).
  { induction H as [| r results Hr _ (rows & Erows & Frows)].
    - exists []. split; [reflexivity | constructor].
    - destruct (csv_row_finite r Hr) as (row & Erow & Frow).
      exists (row :: rows). split; [| now constructor].
      cbn [map_throwing]. rewrite Erow. cbn [and_then]. now rewrite Erows. }
  destruct Hrows as (rows & Erows & Frows).
  exists rows. now rewrite Erows.
Qed.

End TableFacts.

Lemma toCsv_table_witness :
  exists rows,
    toCsv (Number_toString_exp Sample.host)
          [assemble "raw" "findUserById" 5 3 [2; (25 # 10); 3]%Q 0] =
    Normal (join LF (csv_header :: rows)) /\
    List.length rows = 1%nat.
Proof.
  destruct (toCsv_table (Number_toString_exp Sample.host)
              [assemble "raw" "findUserById" 5 3 [2; (25 # 10); 3]%Q 0])
    as (rows & E & F).
  - constructor; [| constructor].
    repeat split; eexists; (split; [reflexivity | reflexivity]).
  - exists rows. split; [exact E |].
    apply Forall2_length in F. now rewrite <- F.
Defined.

(* ================================================================== *)
(** * Further properties of the runner *)
(* ================================================================== *)

Section MoreRunnerFacts.

Variable World : Type.
Variable host : Host World.
Variable cases : list (BenchCase World).

Implicit Types (s : HState World) (adapter : DbAdapter World).

Lemma js_div_count (a : Q) (n : Z) :
  1 <= n -> js_div a (inject_Z n) = Num (Binary64.round64 (a / inject_Z n)).
Proof.
  intros Hn. unfold js_div.
  destruct (Qeq_bool (inject_Z n) 0) eqn:E; [| reflexivity].
  apply Qeq_bool_iff in E. unfold Qeq in E. simpl in E. lia.
Qed.


(** X5. With at least one measured iteration every statistic of a
    returned result is a finite number, the mean included, and
    min <= p50 <= p95 <= p99 <= max. *)
Theorem statistics_defined adapter caseName adapterName warmup iterations s r s' :
  1 <= iterations ->
  runCase host cases adapter caseName adapterName warmup iterations s = (Normal r, s') ->
  (exists m, RunResult.mean r = Num m) /\
  exists mn a b c mx,
    RunResult.min r = Num mn /\ RunResult.p50 r = Num a /\ RunResult.p95 r = Num b /\
    RunResult.p99 r = Num c /\ RunResult.max r = Num mx /\
    (mn <= a)%Q /\ (a <= b)%Q /\ (b <= c)%Q /\ (c <= mx)%Q.
Proof.
  intros Hn H.
  apply runCase_normal_inv in H
    as (pre & wk & mk & post & ds & _ & _ & _ & _ & _ & Lds & ->).
  cbn [assemble RunResult.mean RunResult.timings_ms RunResult.min RunResult.max
       RunResult.p50 RunResult.p95 RunResult.p99].
  assert (Hlen : len ds = iterations) by (unfold len; lia).
  assert (Hne : ds <> []) by (destruct ds; [simpl in Lds; lia | discriminate]).
  split.
  - unfold computeStats. cbn [Stats.mean]. rewrite Hlen. eexists. now apply js_div_count.
  - now apply order_statistics_ascending.
Qed.

End MoreRunnerFacts.


Lemma statistics_defined_witness :
  exists r s',
    Sample.refused_run = (Normal r, s') /\
    exists m, RunResult.mean r = Num m.
Proof.
  eexists. eexists. split; [vm_compute; reflexivity |].
  refine (proj1 (statistics_defined Sample.World Sample.host (Registry.cases Sample.World)
                   (Sample.adapter 3 Sample.refused) "findUserById" "knex" 1 3
                   Sample.start _ _ _ _)).
  - lia.
  - vm_compute. reflexivity.
Defined.

(* ================================================================== *)
(** * Further properties of the statistics *)
(* ================================================================== *)

Section MoreStatsFacts.

Local Open Scope Q_scope.





End MoreStatsFacts.

Section SampleStatistics.

Local Open Scope Q_scope.

Lemma percentile_is_sample (sorted : list Q) (p : Q) :
  sorted <> [] -> 0 < p -> p <= 100 ->
  exists x, percentile sorted p = Num x /\ In x sorted.
Proof.
  intros Hne Hp Hp'.
  destruct (percentile_reads_rank sorted p Hne Hp Hp') as (_ & _ & x & Hx & Hpx).
  exists x. split; [exact Hpx | now apply nth_error_In in Hx].
Qed.

(** X7. For a non-empty sequence every order statistic is one of the
    samples (nearest rank never interpolates), and min and max bound
    every sample. *)
Theorem statistics_are_samples (timings : list Q) :
  timings <> [] ->
  exists mn a b c mx,
    Stats.min (computeStats timings) = Num mn /\
    Stats.p50 (computeStats timings) = Num a /\
    Stats.p95 (computeStats timings) = Num b /\
    Stats.p99 (computeStats timings) = Num c /\
    Stats.max (computeStats timings) = Num mx /\
    In mn timings /\ In a timings /\ In b timings /\ In c timings /\ In mx timings /\
    (forall x, In x timings -> mn <= x /\ x <= mx).
Proof.
  intros Hne.
  pose proof (sort_asc_nonempty timings Hne) as Hsne.
  pose proof (sort_asc_sorted timings) as Hs.
  pose proof (sort_asc_perm timings) as Hperm.
  pose proof (len_pos _ Hsne) as Hn.
  destruct (index_nth (sort_asc timings) 0) as (mn & Hmn & Imn); [lia |].
  destruct (index_nth (sort_asc timings) (len (sort_asc timings) - 1))
    as (mx & Hmx & Imx); [lia |].
  destruct (percentile_is_sample _ 50 Hsne) as (a & Ha & Ia);
    [reflexivity | unfold Qle; simpl; lia |].
  destruct (percentile_is_sample _ 95 Hsne) as (b & Hb & Ib);
    [reflexivity | unfold Qle; simpl; lia |].
  destruct (percentile_is_sample _ 99 Hsne) as (c & Hc & Ic);
    [reflexivity | unfold Qle; simpl; lia |].
  assert (Hbounds : forall x, In x timings -> mn <= x /\ x <= mx).
  { intros x Hx. apply (Permutation_in _ (Permutation_sym Hperm)) in Hx.
    apply In_nth_error in Hx as [i Hi].
    assert (Hlt : (i < List.length (sort_asc timings))%nat)
      by (apply nth_error_Some; congruence).
    split.
    - refine (sorted_nth_le _ Hs _ _ mn x _ Hmn Hi). lia.
    - refine (sorted_nth_le _ Hs _ _ x mx _ Hi Hmx). unfold len. lia. }
  exists mn, a, b, c, mx.
  unfold computeStats. cbn [Stats.min Stats.max Stats.p50 Stats.p95 Stats.p99].
  rewrite Imn, Imx, Ha, Hb, Hc. cbn [nullish].
  repeat split; try reflexivity.
  - apply (Permutation_in _ Hperm). now apply nth_error_In in Hmn.
  - now apply (Permutation_in _ Hperm).
  - now apply (Permutation_in _ Hperm).
  - now apply (Permutation_in _ Hperm).
  - apply (Permutation_in _ Hperm). now apply nth_error_In in Hmx.
  - now apply Hbounds.
  - now apply Hbounds.
Qed.

Lemma statistics_are_samples_witness :
  exists mn a mx,
    Stats.min (computeStats [3; 1; 2]) = Num mn /\
    Stats.p50 (computeStats [3; 1; 2]) = Num a /\
    Stats.max (computeStats [3; 1; 2]) = Num mx /\
    In mn [3; 1; 2] /\ In a [3; 1; 2] /\ In mx [3; 1; 2].
Proof.
  destruct (statistics_are_samples [3; 1; 2])
    as (mn & a & b & c & mx & Hmn & Ha & _ & _ & Hmx & Imn & Ia & _ & _ & Imx & _).
  - discriminate.
  - exists mn, a, mx. repeat split; assumption.
Defined.

End SampleStatistics.

Section OrderOfSamples.

Local Open Scope Q_scope.

Lemma Qle_bool_equiv (x x' y y' : Q) :
  x == x' -> y == y' -> Qle_bool x y = Qle_bool x' y'.
Proof.
  intros Hx Hy.
  destruct (Qle_bool x y) eqn:E, (Qle_bool x' y') eqn:E'; try reflexivity.
  - apply Qle_bool_iff in E. rewrite Hx, Hy in E. apply Qle_bool_iff in E. congruence.
  - apply Qle_bool_iff in E'. rewrite <- Hx, <- Hy in E'. apply Qle_bool_iff in E'. congruence.
Qed.

Lemma same_list_refl (l : list Q) : Forall2 Qeq l l.
Proof. induction l; constructor; [reflexivity | assumption]. Qed.

Lemma same_list_trans (l1 l2 l3 : list Q) :
  Forall2 Qeq l1 l2 -> Forall2 Qeq l2 l3 -> Forall2 Qeq l1 l3.
Proof.
  intros H. revert l3. induction H as [| x y l1 l2 Hxy _ IH]; intros l3 H3.
  - inversion H3. constructor.
  - inversion H3 as [| y' z l2' l3' Hyz Hrest]; subst.
    constructor; [eapply Qeq_trans; eassumption | now apply IH].
Qed.

Lemma insert_asc_same (x x' : Q) (l l' : list Q) :
  x == x' -> Forall2 Qeq l l' -> Forall2 Qeq (insert_asc x l) (insert_asc x' l').
Proof.
  intros Hx H. induction H as [| y y' l l' Hy Hl IH]; simpl.
  - now repeat constructor.
  - rewrite (Qle_bool_equiv x x' y y' Hx Hy).
    destruct (Qle_bool x' y'); repeat constructor; assumption.
Qed.

(** Two insertions commute, up to the order of two equal numbers. *)
Lemma insert_asc_swap (x y : Q) (l : list Q) :
  Forall2 Qeq (insert_asc x (insert_asc y l)) (insert_asc y (insert_asc x l)).
Proof.
  induction l as [| z l IH]; simpl.
  - destruct (Qle_bool x y) eqn:Exy, (Qle_bool y x) eqn:Eyx.
    + apply Qle_bool_iff in Exy, Eyx.
      assert (x == y) by now apply Qle_antisym.
      repeat constructor; [assumption | now symmetry].
    + apply same_list_refl.
    + apply same_list_refl.
    + apply Qle_bool_false in Exy, Eyx.
      assert (x == y) by now apply Qle_antisym.
      repeat constructor; [now symmetry | assumption].
  - destruct (Qle_bool y z) eqn:Eyz, (Qle_bool x z) eqn:Exz; simpl;
      rewrite ?Eyz, ?Exz.
    + destruct (Qle_bool x y) eqn:Exy, (Qle_bool y x) eqn:Eyx; rewrite ?Exz, ?Eyz.
      * apply Qle_bool_iff in Exy, Eyx.
        assert (x == y) by now apply Qle_antisym.
        constructor; [assumption |]. constructor; [now symmetry | apply same_list_refl].
      * apply same_list_refl.
      * apply same_list_refl.
      * apply Qle_bool_false in Exy, Eyx.
        assert (x == y) by now apply Qle_antisym.
        constructor; [now symmetry |]. constructor; [assumption | apply same_list_refl].
    + assert (Exy : Qle_bool x y = false).
      { destruct (Qle_bool x y) eqn:E; [| reflexivity].
        apply Qle_bool_iff in E, Eyz.
        assert (Habs : Qle_bool x z = true)
          by (apply Qle_bool_iff; eapply Qle_trans; eassumption).
        congruence. }
      rewrite Exy. cbn [insert_asc]. rewrite ?Exz. apply same_list_refl.
    + assert (Eyx : Qle_bool y x = false).
      { destruct (Qle_bool y x) eqn:E; [| reflexivity].
        apply Qle_bool_iff in E, Exz.
        assert (Habs : Qle_bool y z = true) by (apply Qle_bool_iff; eapply Qle_trans; eassumption).
        congruence. }
      rewrite Eyx. cbn [insert_asc]. rewrite ?Eyz. apply same_list_refl.
    + constructor; [reflexivity | exact IH].
Qed.

Lemma sort_asc_same (l l' : list Q) :
  Permutation l l' -> Forall2 Qeq (sort_asc l) (sort_asc l').
Proof.
  induction 1 as [| x l l' _ IH | x y l | l1 l2 l3 _ IH1 _ IH2]; simpl.
  - constructor.
  - apply insert_asc_same; [reflexivity | exact IH].
  - apply insert_asc_swap.
  - eapply same_list_trans; eassumption.
Qed.

Lemma same_list_length (l l' : list Q) :
  Forall2 Qeq l l' -> List.length l = List.length l'.
Proof. induction 1; simpl; congruence. Qed.

Lemma index_same (l l' : list Q) (i : Z) :
  Forall2 Qeq l l' -> same_number (index l i) (index l' i).
Proof.
  intros H. unfold index. destruct (i <? 0)%Z; [exact I |].
  generalize (Z.to_nat i). induction H as [| x y l l' Hxy _ IH]; intros [| n]; simpl;
    try exact I; [exact Hxy | apply IH].
Qed.

Lemma percentile_same (l l' : list Q) (p : Q) :
  Forall2 Qeq l l' -> same_number (percentile l p) (percentile l' p).
Proof.
  intros H. unfold percentile, len. rewrite <- (same_list_length l l' H).
  destruct (Z.of_nat (List.length l) =? 0)%Z; [simpl; reflexivity | now apply index_same].
Qed.

(** X8. The order statistics do not depend on the order of the samples:
    two sequences that are permutations of each other have the same
    percentiles, min and max.  (Not so the mean, which the machine sums
    from left to right, rounding each sum.) *)
Theorem computeStats_order_irrelevant (timings timings' : list Q) :
  Permutation timings timings' ->
  same_order_statistics (computeStats timings) (computeStats timings').
Proof.
  intros H. pose proof (sort_asc_same _ _ H) as Hs.
  assert (Hlen : len timings = len timings')
    by (unfold len; now rewrite (Permutation_length H)).
  assert (Hslen : len (sort_asc timings) = len (sort_asc timings'))
    by (unfold len; now rewrite (same_list_length _ _ Hs)).
  unfold same_order_statistics, computeStats.
  cbn [Stats.p50 Stats.p95 Stats.p99 Stats.min Stats.max].
  repeat split; try (now apply percentile_same).
  - pose proof (index_same _ _ 0 Hs) as Hi.
    destruct (index (sort_asc timings) 0), (index (sort_asc timings') 0);
      simpl in *; try contradiction; try exact Hi; reflexivity.
  - rewrite Hslen.
    pose proof (index_same _ _ (len (sort_asc timings') - 1) Hs) as Hi.
    destruct (index (sort_asc timings) (len (sort_asc timings') - 1)),
      (index (sort_asc timings') (len (sort_asc timings') - 1));
      simpl in *; try contradiction; try exact Hi; reflexivity.
Qed.

Lemma computeStats_order_irrelevant_witness :
  same_order_statistics (computeStats [30; 10; 20]) (computeStats (sort_asc [30; 10; 20])).
Proof.
  apply (computeStats_order_irrelevant [30; 10; 20] (sort_asc [30; 10; 20])).
  apply Permutation_sym, sort_asc_perm.
Defined.

(** The mean is another matter.  Every sum is rounded: the mean of 0.1,
    0.2 and 0.3 is not the mean of 0.3, 0.2 and 0.1, and the mean of
    three timings of 0.1 is above 0.1. *)
Lemma mean_is_rounded :
  Stats.mean (computeStats [tenth 1; tenth 2; tenth 3])
  <> Stats.mean (computeStats [tenth 3; tenth 2; tenth 1])
  /\ exists m, Stats.mean (computeStats [tenth 1; tenth 1; tenth 1]) = Num m /\ (tenth 1 < m)%Q.
Proof.
  split.
  - intros H. vm_compute in H. discriminate H.
  - eexists. split; [vm_compute; reflexivity | vm_compute; reflexivity].
Qed.

End OrderOfSamples.

(* ================================================================== *)
(** * Further properties of the reports *)
(* ================================================================== *)

Section Serialisation.

Variable World : Type.
Variable host : Host World.
Variable cases : list (BenchCase World).

Lemma percentile_defined (l : list Q) (p : Q) :
  (0 < p)%Q -> (p <= 100)%Q -> percentile l p <> Undefined.
Proof.
  intros Hp Hp'. destruct l as [| x l].
  - discriminate.
  - destruct (percentile_reads_rank (x :: l) p) as (_ & _ & v & _ & E);
      [discriminate | assumption | assumption |].
    rewrite E. discriminate.
Qed.

Lemma nullish_defined (v : jsval) : nullish v (Num 0) <> Undefined.
Proof. destruct v; discriminate. Qed.

Lemma js_div_defined (a b : Q) : js_div a b <> Undefined.
Proof.
  unfold js_div. destruct (Qeq_bool b 0); [destruct (Qeq_bool a 0) |]; discriminate.
Qed.

Lemma assemble_defined (adapterName caseName : string) (warmup iterations : Z)
      (timings : list Q) (errors : Z) :
  defined_stats (assemble adapterName caseName warmup iterations timings errors).
Proof.
  unfold defined_stats, assemble, computeStats.
  cbn [RunResult.mean RunResult.p50 RunResult.p95 RunResult.p99 RunResult.min RunResult.max
       Stats.mean Stats.p50 Stats.p95 Stats.p99 Stats.min Stats.max].
  repeat split; try apply nullish_defined; try apply js_div_defined;
    apply percentile_defined; try reflexivity; unfold Qle; simpl; lia.
Qed.

Lemma toFixed_defined (exp : Q -> string) (v : jsval) (f : nat) :
  (f <= 100)%nat -> v <> Undefined -> exists text, toFixed exp v f = Normal text.
Proof.
  intros Hf Hv. destruct v as [q | | negative |]; unfold toFixed;
    rewrite ?digits_checked_accepts by exact Hf;
    [| eexists; reflexivity | eexists; reflexivity | contradiction].
  destruct (Qle_bool (inject_Z (10 ^ 21)) (Qabs q)); [eexists; reflexivity |].
  destruct (Nat.eqb f 0); eexists; reflexivity.
Qed.

Lemma csv_row_defined (exp : Q -> string) (r : RunResult.t) :
  defined_stats r -> exists row, csv_row exp r = Normal row.
Proof.
  intros (Hmean & H50 & H95 & H99 & Hmin & Hmax). unfold csv_row.
  destruct (toFixed_defined exp _ 3 ltac:(lia) Hmean) as [? ->].
  destruct (toFixed_defined exp _ 3 ltac:(lia) H50) as [? ->].
  destruct (toFixed_defined exp _ 3 ltac:(lia) H95) as [? ->].
  destruct (toFixed_defined exp _ 3 ltac:(lia) H99) as [? ->].
  destruct (toFixed_defined exp _ 3 ltac:(lia) Hmin) as [? ->].
  destruct (toFixed_defined exp _ 3 ltac:(lia) Hmax) as [? ->].
  eexists. reflexivity.
Qed.

Lemma toCsv_defined (exp : Q -> string) (results : list RunResult.t) :
  Forall defined_stats results -> exists csv, toCsv exp results = Normal csv.
Proof.
  intros H. unfold toCsv.
  assert (Hrows : exists rows, map_throwing (csv_row exp) results = Normal rows).
  { induction H as [| r results Hr _ [rows Erows]].
    - now exists [].
    - destruct (csv_row_defined exp r Hr) as [row Erow].
      exists (row :: rows). cbn [map_throwing]. rewrite Erow. cbn [and_then].
      now rewrite Erows. }
  destruct Hrows as [rows ->]. eexists. reflexivity.
Qed.

Lemma progress_line_defined (r : RunResult.t) :
  defined_stats r -> exists line, progress_line World host r = Normal line.
Proof.
  intros (Hmean & H50 & H95 & _). unfold progress_line.
  destruct (toFixed_defined (Number_toString_exp host) _ 2 ltac:(lia) Hmean) as [? ->].
  destruct (toFixed_defined (Number_toString_exp host) _ 2 ltac:(lia) H50) as [? ->].
  destruct (toFixed_defined (Number_toString_exp host) _ 2 ltac:(lia) H95) as [? ->].
  eexists. reflexivity.
Qed.

(** X9. Results returned by [runCase] always serialise: none of their
    statistics is [undefined], so [toFixed] never throws on them; [toCsv]
    of any list of such results returns a table, and the progress line of
    each of them can be printed.  This holds for a result of zero
    iterations and for a result all of whose iterations failed. *)
Theorem serialisation_never_throws (results : list RunResult.t) :
  Forall (fun r => exists adapter caseName adapterName warmup iterations s s',
              runCase host cases adapter caseName adapterName warmup iterations s
              = (Normal r, s')) results ->
  Forall defined_stats results /\
  (exists csv, toCsv (Number_toString_exp host) results = Normal csv) /\
  Forall (fun r => exists line, progress_line World host r = Normal line) results.
Proof.
  intros H.
  assert (Hdef : Forall defined_stats results).
  { eapply Forall_impl; [| exact H].
    intros r (adapter & caseName & adapterName & warmup & iterations & s & s' & Hr).
    apply runCase_normal_inv in Hr as (pre & wk & mk & post & ds & _ & _ & _ & _ & _ & _ & ->).
    apply assemble_defined. }
  split; [exact Hdef |]. split; [now apply toCsv_defined |].
  eapply Forall_impl; [| exact Hdef]. intros r Hr. now apply progress_line_defined.
Qed.

End Serialisation.

Lemma serialisation_never_throws_witness :
  exists r s' csv,
    Sample.empty_run = (Normal r, s') /\
    toCsv (Number_toString_exp Sample.host) [r] = Normal csv.
Proof.
  destruct Sample.empty_run as [c s'] eqn:E.
  assert (Hc : exists r, c = Normal r).
  { vm_compute in E. injection E as <- _. eexists. reflexivity. }
  destruct Hc as [r ->].
  destruct (serialisation_never_throws Sample.World Sample.host (Registry.cases Sample.World)
              [r]) as (_ & (csv & Hcsv) & _).
  - constructor; [| constructor].
    exists (Sample.adapter 2 Fulfilled), "findUserById", "raw", 1, 0, Sample.start, s'.
    exact E.
  - now exists r, s', csv.
Defined.

Section ReportFacts.

Variable World : Type.
Variable host : Host World.
Variable cases : list (BenchCase World).

Implicit Types (s : HState World) (adapter : DbAdapter World) (bench : property World).

Lemma writes_app (xs ys : list event) : writes (xs ++ ys) = (writes xs ++ writes ys)%list.
Proof.
  induction xs as [| e xs IH]; [reflexivity |].
  destruct e; simpl; now rewrite IH.
Qed.

Lemma writes_none (evs : list event) : forallb not_write evs = true -> writes evs = [].
Proof.
  induction evs as [| e evs IH]; simpl; [reflexivity |].
  intros H. apply andb_prop in H as [He Hevs].
  destruct e; try discriminate; auto.
Qed.

Lemma emits_await_op (P : event -> bool) (ev : bool -> event) (op : Op World) adapter :
  (forall ok, P (ev ok) = true) -> emits World P (await_op ev op adapter).
Proof.
  intros Hev s c s' H. unfold await_op in H.
  destruct (op adapter (ctx s) (world s)) as [[o c0] w]. injection H as <- <-.
  exists [ev (fulfilled o)]. simpl. now rewrite Hev.
Qed.

Lemma emits_now (P : event -> bool) : emits World P (now host).
Proof.
  intros s c s' H. unfold now in H.
  destruct (performance_now host (world s)) as [t w]. injection H as <- <-.
  exists []. simpl. now rewrite app_nil_r.
Qed.

Lemma emits_fresh_ctx (P : event -> bool) : emits World P (@fresh_ctx World).
Proof.
  intros s c s' H. injection H as <- <-. exists []. simpl. now rewrite app_nil_r.
Qed.

Section CaseEvents.

Variable P : event -> bool.
Hypothesis P_case : forall e, is_case_event e = true -> P e = true.

Lemma emits_await_optional (ev : bool -> event) (f : option (Op World)) adapter :
  (forall ok, is_case_event (ev ok) = true) -> emits World P (await_optional ev f adapter).
Proof.
  intros Hev. destruct f as [op |]; simpl; [| apply emits_ret].
  apply emits_await_op. intros ok. apply P_case, Hev.
Qed.

Lemma emits_await_run bench caseName adapter :
  emits World P (await_run bench caseName adapter).
Proof.
  unfold await_run. destruct (get_run bench) as [op |].
  - apply emits_await_op. intros ok. now apply P_case.
  - apply emits_bind; [apply emits_log; now apply P_case | intros _; apply emits_throw].
Qed.

Lemma emits_warmup_loop bench caseName adapter (n : nat) :
  emits World P (warmup_loop bench caseName adapter n).
Proof.
  induction n as [| n IH]; simpl; [apply emits_ret |].
  apply emits_bind; [| intros _; exact IH].
  apply emits_try_catch; [apply emits_await_run | intros _; apply emits_ret].
Qed.

Lemma emits_measure_loop bench caseName adapter (n : nat) timings errors :
  emits World P (measure_loop host bench caseName adapter n timings errors).
Proof.
  revert timings errors. induction n as [| n IH]; intros timings errors; simpl;
    [apply emits_ret |].
  apply emits_bind; [| intros [timings' errors']; apply IH].
  unfold measure_iteration.
  apply emits_bind; [apply emits_now | intros t0].
  apply emits_bind.
  - apply emits_try_catch; [| intros _; apply emits_ret].
    apply emits_bind; [apply emits_await_run | intros _; apply emits_ret].
  - intros errors'. apply emits_bind; [apply emits_now | intros t1; apply emits_ret].
Qed.

Lemma emits_runCase adapter caseName adapterName warmup iterations :
  emits World P (runCase host cases adapter caseName adapterName warmup iterations).
Proof.
  unfold runCase. destruct (negb (truthy (caseMap cases caseName))); [apply emits_throw |].
  apply emits_bind; [apply emits_fresh_ctx | intros _].
  apply emits_bind; [now apply emits_await_optional | intros _].
  apply emits_bind; [apply emits_warmup_loop | intros _].
  apply emits_bind; [apply emits_measure_loop | intros [timings errors]].
  apply emits_bind; [now apply emits_await_optional | intros _; apply emits_ret].
Qed.

End CaseEvents.

Lemma emits_cases_loop adapter adapterName caseNames warmup iterations allResults :
  emits World case_or_console
        (cases_loop host cases adapter adapterName caseNames warmup iterations allResults).
Proof.
  revert allResults. induction caseNames as [| caseName rest IH]; intros allResults; simpl;
    [apply emits_ret |].
  apply emits_bind; [now apply emits_log | intros _].
  apply emits_bind.
  { apply emits_runCase. intros e He. unfold case_or_console. now rewrite He. }
  intros result.
  apply emits_bind; [apply emits_lift | intros line].
  apply emits_bind; [now apply emits_log | intros _; apply IH].
Qed.

(** The loop over the adapters writes no file. *)
Lemma emits_adapters_loop adapterNames caseNames warmup iterations allResults :
  emits World not_write
        (adapters_loop host cases adapterNames caseNames warmup iterations allResults).
Proof.
  revert allResults. induction adapterNames as [| a rest IH]; intros allResults;
    cbn [adapters_loop]; [apply emits_ret |].
  apply emits_bind; [now apply emits_log | intros _].
  apply emits_bind.
  { intros s c s' H. apply createAdapter_spec in H as [(e & _ & T) | (ad & _ & T)].
    - exists []. now rewrite app_nil_r.
    - now exists [EvConstruct a]. }
  intros adapter.
  apply emits_bind; [| intros results; apply emits_bind;
                       [now apply emits_log | intros _; apply IH]].
  intros s c s' H.
  apply try_finally_inv in H; [| apply calm_cases_loop].
  destruct H as (c1 & s1 & c2 & Hbody & Hclose & _).
  destruct (emits_cases_loop adapter a caseNames warmup iterations allResults _ _ _ Hbody)
    as (inner & T1 & F1).
  apply adapter_close_spec in Hclose as [T2 _].
  exists (inner ++ [EvClose a])%list. split; [now rewrite T2, T1, <- app_assoc |].
  rewrite forallb_app. cbn [forallb not_write]. rewrite andb_true_r.
  rewrite forallb_forall in *. intros e He. specialize (F1 e He).
  destruct e; try reflexivity. discriminate.
Qed.

Lemma try_finally_normal_inv {A} (m : M (HState World) A) (f : M (HState World) unit)
      s (a : A) s' :
  try_finally m f s = (Normal a, s') ->
  exists s1, m s = (Normal a, s1) /\ f s1 = (Normal tt, s').
Proof.
  unfold try_finally. destruct (m s) as [[a1 | e | code] s1]; intros H.
  - destruct (f s1) as [[[] | e2 | code2] s2] eqn:E; try discriminate H.
    injection H as <- <-. now exists s1.
  - destruct (f s1) as [[[] | e2 | code2] s2]; discriminate H.
  - discriminate H.
Qed.

(** The results the loop over the cases appends: one per case name, in
    order, filed under the adapter name, with the counts it was given. *)
Lemma cases_loop_results adapter adapterName caseNames warmup iterations allResults
      s results s' :
  cases_loop host cases adapter adapterName caseNames warmup iterations allResults s
  = (Normal results, s') ->
  exists new,
    results = (allResults ++ new)%list /\
    map result_key new = map (pair adapterName) caseNames /\
    Forall (fun r => RunResult.warmup r = warmup /\ RunResult.iterations r = iterations /\
                     List.length (RunResult.timings_ms r) = Z.to_nat iterations) new.
Proof.
  revert allResults s. induction caseNames as [| caseName rest IH]; intros allResults s H.
  - injection H as <- <-. exists []. rewrite app_nil_r. repeat split. constructor.
  - cbn [cases_loop] in H.
    apply bind_inv_normal in H as ([] & s1 & _ & H).
    apply bind_inv_normal in H as (r & s2 & Hr & H).
    apply bind_inv_normal in H as (line & s3 & _ & H).
    apply bind_inv_normal in H as ([] & s4 & _ & H).
    apply IH in H as (new & -> & Hkeys & Hall).
    apply runCase_normal_inv in Hr
      as (pre & wk & mk & post & ds & _ & _ & _ & _ & _ & Lds & ->).
    exists (assemble adapterName caseName warmup iterations ds (count_failed mk) :: new).
    split; [now rewrite <- app_assoc |]. split.
    + cbn [map]. now rewrite Hkeys.
    + constructor; [| exact Hall]. cbn [assemble RunResult.warmup RunResult.iterations
                                        RunResult.timings_ms]. auto.
Qed.

Lemma adapters_loop_results adapterNames caseNames warmup iterations allResults
      s results s' :
  adapters_loop host cases adapterNames caseNames warmup iterations allResults s
  = (Normal results, s') ->
  exists new,
    results = (allResults ++ new)%list /\
    map result_key new = list_prod adapterNames caseNames /\
    Forall (fun r => RunResult.warmup r = warmup /\ RunResult.iterations r = iterations /\
                     List.length (RunResult.timings_ms r) = Z.to_nat iterations) new.
Proof.
  revert allResults s. induction adapterNames as [| a rest IH]; intros allResults s H.
  - injection H as <- <-. exists []. rewrite app_nil_r. repeat split. constructor.
  - cbn [adapters_loop] in H.
    apply bind_inv_normal in H as ([] & s1 & _ & H).
    apply bind_inv_normal in H as (adapter & s2 & _ & H).
    apply bind_inv_normal in H as (mid & s3 & Hbody & H).
    apply bind_inv_normal in H as ([] & s4 & _ & H).
    apply try_finally_normal_inv in Hbody as (s2' & Hbody & _).
    apply cases_loop_results in Hbody as (new1 & -> & K1 & A1).
    apply IH in H as (new2 & -> & K2 & A2).
    exists (new1 ++ new2)%list.
    split; [now rewrite app_assoc |]. split.
    + cbn [list_prod]. now rewrite map_app, K1, K2.
    + apply Forall_app. now split.
Qed.

End ReportFacts.

Section ReportTheorems.

Variable World : Type.
Variable host : Host World.
Variable cases : list (BenchCase World).

Implicit Types (s : HState World).

Lemma quiet_facts (evs : list event) :
  forallb console_or_mkdir evs = true ->
  writes evs = [] /\ constructs evs = [] /\ closes evs = [].
Proof.
  induction evs as [| e evs IH]; simpl; [auto |].
  intros H. apply andb_prop in H as [He Hevs].
  destruct e; try discriminate; simpl; auto.
Qed.

Lemma output_facts (evs : list event) :
  forallb is_output evs = true -> constructs evs = [] /\ closes evs = [].
Proof.
  induction evs as [| e evs IH]; simpl; [auto |].
  intros H. apply andb_prop in H as [He Hevs].
  destruct e; try discriminate; simpl; auto.
Qed.

Lemma quiet_console_log (text : string) : emits World console_or_mkdir (console_log World text).
Proof. now apply emits_log. Qed.

Lemma quiet_console_error (text : string) :
  emits World console_or_mkdir (console_error World text).
Proof. now apply emits_log. Qed.

Lemma quiet_validate_adapters (adapterNames : list string) :
  emits World console_or_mkdir (validate_adapters adapterNames).
Proof.
  induction adapterNames as [| a rest IH]; cbn [validate_adapters]; [apply emits_ret |].
  apply emits_bind; [| intros _; exact IH].
  destruct (mem a ADAPTER_NAMES); [apply emits_ret |].
  apply emits_bind; [apply quiet_console_error | intros _; apply emits_exit].
Qed.

Lemma quiet_validate_cases (caseNames : list string) :
  emits World console_or_mkdir (validate_cases cases caseNames).
Proof.
  induction caseNames as [| c rest IH]; cbn [validate_cases]; [apply emits_ret |].
  apply emits_bind; [| intros _; exact IH].
  destruct (truthy (caseMap cases c)); [apply emits_ret |].
  apply emits_bind; [apply quiet_console_error | intros _; apply emits_exit].
Qed.

Lemma quiet_mkdirSync (dir : string) : emits World console_or_mkdir (mkdirSync World host dir).
Proof.
  intros s c s' H. unfold mkdirSync in H.
  destruct (fs_mkdirSync World host dir (world s)) as [r w]. injection H as <- <-.
  now exists [EvMkdir dir].
Qed.

(** A quiet statement in front of a normal run adds no write. *)
Lemma quiet_then_writes {A B} (m : M (HState World) A) (k : A -> M (HState World) B)
      (W : list (string * string)) s (b : B) s' :
  emits World console_or_mkdir m ->
  bind m k s = (Normal b, s') ->
  (forall a s1, k a s1 = (Normal b, s') ->
                exists evs, trace s' = (trace s1 ++ evs)%list /\ writes evs = W) ->
  exists evs, trace s' = (trace s ++ evs)%list /\ writes evs = W.
Proof.
  intros Hm H Hk. apply bind_inv_normal in H as (a & s1 & H1 & H2).
  destruct (Hm _ _ _ H1) as (e1 & T1 & F1). apply quiet_facts in F1 as (W1 & _ & _).
  destruct (Hk _ _ H2) as (e2 & T2 & W2).
  exists (e1 ++ e2)%list. split; [now rewrite T2, T1, <- app_assoc |].
  now rewrite writes_app, W1, W2.
Qed.

(** X10. A run of [main] that returns has written exactly two files, the
    JSON report and then the CSV summary, both named after the one
    timestamp taken after the last adapter was closed; both hold the same
    results, one per selected adapter and case, adapter by adapter in the
    order of the command line, each with the warmup and iteration counts
    of the command line and as many timings as iterations. *)
Theorem report_covers_matrix (adapterNames : list string) (caseOption : option (list string))
        (warmup iterations : Z) (outDir : string) s s' :
  main host cases adapterNames caseOption warmup iterations outDir s = (Normal tt, s') ->
  exists evs results iso csv,
    trace s' = (trace s ++ evs)%list /\
    map result_key results
    = list_prod adapterNames
                (match caseOption with Some names => names | None => map name cases end) /\
    Forall (fun r => RunResult.warmup r = warmup /\ RunResult.iterations r = iterations /\
                     List.length (RunResult.timings_ms r) = Z.to_nat iterations) results /\
    toCsv (Number_toString_exp host) results = Normal csv /\
    writes evs
    = [(path_join World host outDir ("results_" ++ replace_colon_dot iso ++ ".json"),
        JSON_stringify World host results);
       (path_join World host outDir ("summary_" ++ replace_colon_dot iso ++ ".csv"), csv)].
Proof.
  intros H. unfold main in H.
  set (caseNames := match caseOption with Some names => names | None => map name cases end) in *.
  assert (Hmain : exists results iso csv,
             map result_key results = list_prod adapterNames caseNames /\
             Forall (fun r => RunResult.warmup r = warmup /\
                              RunResult.iterations r = iterations /\
                              List.length (RunResult.timings_ms r) = Z.to_nat iterations)
                    results /\
             toCsv (Number_toString_exp host) results = Normal csv /\
             exists evs,
               trace s' = (trace s ++ evs)%list /\
               writes evs
               = [(path_join World host outDir ("results_" ++ replace_colon_dot iso ++ ".json"),
                   JSON_stringify World host results);
                  (path_join World host outDir ("summary_" ++ replace_colon_dot iso ++ ".csv"), csv)]).
  2: { destruct Hmain as (results & iso & csv & K & F & C & evs & T & W).
       now exists evs, results, iso, csv. }
  apply bind_inv_normal in H as ([] & s1 & H1 & H).
  apply bind_inv_normal in H as ([] & s2 & H2 & H).
  apply bind_inv_normal in H as ([] & s3 & H3 & H).
  apply bind_inv_normal in H as ([] & s4 & H4 & H).
  apply bind_inv_normal in H as ([] & s5 & H5 & H).
  apply bind_inv_normal in H as ([] & s6 & H6 & H).
  apply bind_inv_normal in H as (results & s7 & Hloop & H).
  apply bind_inv_normal in H as (iso & s8 & Hiso & H).
  apply bind_inv_normal in H as ([] & s9 & Hjson & H).
  apply bind_inv_normal in H as (csv & s10 & Hcsv & H).
  apply bind_inv_normal in H as ([] & s11 & Hsum & H).
  destruct (quiet_validate_adapters _ _ _ _ H1) as (e1 & T1 & F1).
  destruct (quiet_validate_cases _ _ _ _ H2) as (e2 & T2 & F2).
  destruct (quiet_mkdirSync _ _ _ _ H3) as (e3 & T3 & F3).
  destruct (quiet_console_log _ _ _ _ H4) as (e4 & T4 & F4).
  destruct (quiet_console_log _ _ _ _ H5) as (e5 & T5 & F5).
  destruct (quiet_console_log _ _ _ _ H6) as (e6 & T6 & F6).
  destruct (emits_adapters_loop World host cases _ _ _ _ _ _ _ _ Hloop) as (e7 & T7 & F7).
  destruct (quiet_console_log _ _ _ _ H) as (e12 & T12 & F12).
  apply quiet_facts in F1 as (W1 & _), F2 as (W2 & _), F3 as (W3 & _), F4 as (W4 & _),
      F5 as (W5 & _), F6 as (W6 & _), F12 as (W12 & _).
  apply writes_none in F7.
  apply adapters_loop_results in Hloop as (new & -> & K & Fa). cbn [app] in *.
  unfold toISOString in Hiso.
  destruct (Date_toISOString World host (world s7)) as [t w8]. injection Hiso as <- <-.
  unfold writeFileSync in Hjson, Hsum. cbn [world ctx trace] in Hjson.
  destruct (fs_writeFileSync World host _ _ w8) as [[e |] w9]; [discriminate |].
  injection Hjson as <-.
  unfold lift in Hcsv. injection Hcsv as Hcsv <-. cbn [world ctx trace] in Hsum.
  destruct (fs_writeFileSync World host _ _ w9) as [[e |] w11]; [discriminate |].
  injection Hsum as <-. cbn [trace] in T12.
  exists new, t, csv. split; [exact K |]. split; [exact Fa |]. split; [exact Hcsv |].
  eexists. split.
  - rewrite T12, T7, T6, T5, T4, T3, T2, T1. rewrite <- !app_assoc. reflexivity.
  - rewrite !writes_app, W1, W2, W3, W4, W5, W6, F7, W12. reflexivity.
Qed.

Lemma validate_cases_accepts (caseNames : list string) s :
  find (unknown_case cases) caseNames = None ->
  validate_cases cases caseNames s = (Normal tt, s).
Proof.
  induction caseNames as [| x rest IH]; [reflexivity |].
  cbn [find validate_cases]. rewrite truthy_caseMap.
  destruct (unknown_case cases x) eqn:E; cbn [negb]; [discriminate |].
  intros H. rewrite (bind_normal _ _ s s tt eq_refl). now apply IH.
Qed.

Lemma bind_logged {B} (e : event) (k : unit -> M (HState World) B) s :
  bind (log e) k s = k tt (mkH (world s) (ctx s) (trace s ++ [e])).
Proof. reflexivity. Qed.

Lemma is_output_not_write_free (evs : list event) :
  forallb console_or_mkdir evs = true -> forallb is_output evs = true.
Proof.
  induction evs as [| e evs IH]; simpl; [auto |].
  intros H. apply andb_prop in H as [He Hevs]. rewrite (IH Hevs).
  destruct e; try discriminate; reflexivity.
Qed.

(** What [main] has done when a file was written. *)
Lemma main_report (adapterNames : list string) (caseOption : option (list string))
      (warmup iterations : Z) (outDir : string) s (c : completion unit) s' :
  main host cases adapterNames caseOption warmup iterations outDir s = (c, s') ->
  exists evs,
    trace s' = (trace s ++ evs)%list /\
    (writes evs = [] \/
     exists before loop after s0 results s1,
       evs = (before ++ loop ++ after)%list /\
       writes before = [] /\ writes loop = [] /\
       world s0 = snd (fs_mkdirSync World host outDir (world s)) /\
       trace s0 = (trace s ++ before)%list /\
       served host cases
              (match caseOption with Some names => names | None => map name cases end)
              warmup iterations adapterNames [] s0 results s1 /\
       trace s1 = (trace s0 ++ loop)%list /\
       constructs loop = adapterNames /\ closes loop = adapterNames /\
       forallb is_output after = true).
Proof.
  unfold main.
  set (caseNames := match caseOption with Some names => names | None => map name cases end).
  destruct (find unknown_adapter adapterNames) as [a |] eqn:Ea.
  { rewrite (bind_exit _ _ _ _ _ (validate_adapters_rejects World adapterNames a s Ea)).
    intros H. injection H as <- <-. eexists. split; [reflexivity | now left]. }
  rewrite (bind_normal _ _ _ _ _ (validate_adapters_accepts World adapterNames s Ea)).
  destruct (find (unknown_case cases) caseNames) as [x |] eqn:Ec.
  { rewrite (bind_exit _ _ _ _ _ (validate_cases_rejects World cases caseNames x s Ec)).
    intros H. injection H as <- <-. eexists. split; [reflexivity | now left]. }
  rewrite (bind_normal _ _ _ _ _ (validate_cases_accepts caseNames s Ec)).
  unfold bind at 1, mkdirSync.
  destruct (fs_mkdirSync World host outDir (world s)) as [[e |] w0] eqn:Edir.
  { intros H. injection H as <- <-. eexists. split; [reflexivity | now left]. }
  unfold console_log at 1 2 3. rewrite !bind_logged. cbn [world ctx trace].
  match goal with
  | |- bind _ ?k ?s0 = _ -> _ => set (post := k); set (start := s0)
  end.
  assert (Hstart : exists before,
             trace start = (trace s ++ before)%list /\ writes before = []).
  { eexists. subst start. cbn [trace]. rewrite <- !app_assoc. split; reflexivity. }
  destruct Hstart as (before & Tb & Wb).
  unfold bind at 1.
  destruct (adapters_loop host cases adapterNames caseNames warmup iterations [] start)
    as [c1 s1] eqn:Hloop.
  destruct (emits_adapters_loop World host cases _ _ _ _ _ _ _ _ Hloop) as (loop & Tl & Fl).
  apply writes_none in Fl.
  assert (Hcut : trace s1 = (trace s ++ before ++ loop)%list /\ writes (before ++ loop) = []).
  { split; [now rewrite Tl, Tb, <- app_assoc | now rewrite writes_app, Wb, Fl]. }
  destruct c1 as [results | e | code].
  2: { intros H. injection H as <- <-. exists (before ++ loop)%list.
       split; [apply Hcut | left; apply Hcut]. }
  2: { intros H. injection H as <- <-. exists (before ++ loop)%list.
       split; [apply Hcut | left; apply Hcut]. }
  intros H.
  assert (Hpost : emits World is_output (post results)).
  { subst post. cbv beta.
    apply emits_bind; [apply emits_toISOString | intros iso].
    apply emits_bind; [apply emits_writeFileSync | intros _].
    apply emits_bind; [apply emits_lift | intros csv].
    apply emits_bind; [apply emits_writeFileSync | intros _; apply emits_console_log]. }
  destruct (Hpost _ _ _ H) as (after & Ta & Fa).
  pose proof (adapters_loop_balanced World host cases _ _ _ _ _ _ _ _ Hloop)
    as (_ & loop' & Tl' & Bal & Con).
  assert (loop' = loop) by (rewrite Tl in Tl'; now apply app_inv_head in Tl').
  subst loop'.
  exists (before ++ loop ++ after)%list.
  split; [rewrite Ta, Tl, Tb, <- !app_assoc; reflexivity |].
  right. exists before, loop, after, start, results, s1.
  split; [reflexivity |]. split; [exact Wb |]. split; [exact Fl |].
  split; [reflexivity |].
  split; [exact Tb |].
  split; [now apply adapters_loop_served |].
  split; [exact Tl |].
  split; [now apply (Con results) |].
  split; [rewrite (balanced_closes _ Bal); now apply (Con results) | exact Fa].
Qed.

(** X11. No partial report: whatever the adapters, the cases and the
    outside world do, and however the process ends, a run of the program
    writes a file only after every selected adapter has been served:
    constructed, its loop over the cases returned, its [close] fulfilled
    on the world the cases left, one adapter after the other from the
    state [main] reached after making the output directory.  Every
    construction, case operation and [close] comes before the first
    write, and nothing but output comes after.  So a run cut short by a
    constructor, a setup, a teardown or a [close] that fails leaves no
    report file. *)
Theorem report_only_after_all_adapters (adapterNames : list string)
        (caseOption : option (list string)) (warmup iterations : Z) (outDir : string)
        s s' (c : completion unit) :
  program host cases adapterNames caseOption warmup iterations outDir s = (c, s') ->
  exists evs,
    trace s' = (trace s ++ evs)%list /\
    (writes evs = [] \/
     exists before loop after s0 results s1,
       evs = (before ++ loop ++ after)%list /\
       writes before = [] /\ writes loop = [] /\
       world s0 = snd (fs_mkdirSync World host outDir (world s)) /\
       trace s0 = (trace s ++ before)%list /\
       served host cases
              (match caseOption with Some names => names | None => map name cases end)
              warmup iterations adapterNames [] s0 results s1 /\
       trace s1 = (trace s0 ++ loop)%list /\
       constructs loop = adapterNames /\ closes loop = adapterNames /\
       forallb is_output after = true).
Proof.
  intros H. unfold program, try_catch in H.
  destruct (main host cases adapterNames caseOption warmup iterations outDir s)
    as [c1 s1] eqn:Hmain.
  destruct (main_report _ _ _ _ _ _ _ _ Hmain) as (evs & T & R).
  destruct c1 as [[] | e | code].
  - injection H as <- <-. now exists evs.
  - unfold console_error in H. rewrite bind_logged in H. injection H as <- <-.
    exists (evs ++ [EvStderr (exn_text e ++ LF)])%list. cbn [trace].
    split; [now rewrite T, <- app_assoc |].
    destruct R as [W | (before & loop & after & s0 & results & s2 & E & R)].
    + left. now rewrite writes_app, W.
    + right. exists before, loop, (after ++ [EvStderr (exn_text e ++ LF)])%list, s0, results, s2.
      split; [rewrite E, <- !app_assoc; reflexivity |].
      destruct R as (? & ? & ? & ? & ? & ? & ? & ? & Fa).
      repeat (split; [assumption |]).
      rewrite forallb_app, Fa. reflexivity.
  - injection H as <- <-. now exists evs.
Qed.

End ReportTheorems.

Lemma report_covers_matrix_witness :
  exists evs results iso csv,
    trace (snd report_run) = (trace Sample.start ++ evs)%list /\
    map result_key results
    = list_prod ["raw"; "dal"] ["findUserById"; "listUsers_paged"] /\
    Forall (fun r => RunResult.warmup r = 1 /\ RunResult.iterations r = 2 /\
                     List.length (RunResult.timings_ms r) = Z.to_nat 2) results /\
    toCsv (Number_toString_exp Sample.host) results = Normal csv /\
    writes evs
    = [(path_join Sample.World Sample.host "out" ("results_" ++ replace_colon_dot iso ++ ".json"),
        JSON_stringify Sample.World Sample.host results);
       (path_join Sample.World Sample.host "out" ("summary_" ++ replace_colon_dot iso ++ ".csv"), csv)].
Proof.
  assert (H : main Sample.host (Registry.cases Sample.World) ["raw"; "dal"]
                  (Some ["findUserById"; "listUsers_paged"]) 1 2 "out" Sample.start
               = (Normal tt, snd report_run)) by (vm_compute; reflexivity).
  pose proof (report_covers_matrix Sample.World Sample.host (Registry.cases Sample.World)
                ["raw"; "dal"] (Some ["findUserById"; "listUsers_paged"]) 1 2 "out"
                Sample.start (snd report_run) H) as R.
  cbv beta iota in R. exact R.
Defined.

Lemma report_only_after_all_adapters_witness :
  exists evs,
    trace (snd refusing_program_run) = (trace Sample.start ++ evs)%list /\
    (writes evs = [] \/
     exists before loop after s0 results s1,
       evs = (before ++ loop ++ after)%list /\
       writes before = [] /\ writes loop = [] /\
       world s0 = snd (fs_mkdirSync Sample.World Sample.host "out" (world Sample.start)) /\
       trace s0 = (trace Sample.start ++ before)%list /\
       served Sample.host (Registry.cases Sample.World) ["listUsers_paged"] 0 1
              ["knex"; "raw"] [] s0 results s1 /\
       trace s1 = (trace s0 ++ loop)%list /\
       constructs loop = ["knex"; "raw"] /\ closes loop = ["knex"; "raw"] /\
       forallb is_output after = true).
Proof.
  assert (H : program Sample.host (Registry.cases Sample.World) ["knex"; "raw"]
                     (Some ["listUsers_paged"]) 0 1 "out" Sample.start
               = (fst refusing_program_run, snd refusing_program_run))
    by (vm_compute; reflexivity).
  exact (report_only_after_all_adapters Sample.World Sample.host (Registry.cases Sample.World)
           ["knex"; "raw"] (Some ["listUsers_paged"]) 0 1 "out"
           Sample.start (snd refusing_program_run) (fst refusing_program_run) H).
Defined.

(* ================================================================== *)
(** * The registry of cases *)
(* ================================================================== *)

Section RegistryFacts.

Variable World : Type.
Variable cases : list (BenchCase World).

Implicit Types (s : HState World).

Lemma own_case_sound (entries : list (BenchCase World)) (key : string) (c : BenchCase World) :
  own_case World entries key = Some c -> In c entries /\ name c = key.
Proof.
  induction entries as [| c0 rest IH]; [discriminate |].
  cbn [own_case]. destruct (own_case World rest key) as [later |].
  - intros H. injection H as ->. destruct (IH eq_refl) as [Hin Hname].
    split; [now right | exact Hname].
  - destruct (String.eqb_spec (name c0) key) as [Hname |]; [| discriminate].
    intros H. injection H as <-. split; [now left | exact Hname].
Qed.

Lemma own_case_complete (entries : list (BenchCase World)) (key : string) :
  In key (map name entries) -> exists c, own_case World entries key = Some c.
Proof.
  induction entries as [| c0 rest IH]; [intros [] |].
  cbn [own_case map]. intros [Hname | Hin].
  - destruct (own_case World rest key) as [later |]; [now exists later |].
    rewrite Hname, String.eqb_refl. now exists c0.
  - destruct (IH Hin) as [c Hc]. rewrite Hc. now exists c.
Qed.

Lemma own_case_last (pre post : list (BenchCase World)) (c : BenchCase World) :
  ~ In (name c) (map name post) ->
  own_case World (pre ++ c :: post) (name c) = Some c.
Proof.
  intros Hpost.
  assert (Hnone : own_case World post (name c) = None).
  { destruct (own_case World post (name c)) as [later |] eqn:E; [| reflexivity].
    apply own_case_sound in E as [Hin Hname]. exfalso. apply Hpost.
    rewrite <- Hname. now apply in_map. }
  induction pre as [| c0 pre IH]; cbn [app own_case].
  - now rewrite Hnone, String.eqb_refl.
  - now rewrite IH.
Qed.

(** X12. Every name of the registry selects a registered case of that
    name; where several entries share a name the last one is the one
    selected; and a selection made of registered names only (the default
    selection, all names of the registry, is one) passes the validation of
    [main] in silence, leaving the state as it was. *)
Theorem registered_names_selected (names : list string) s :
  Forall (fun n => In n (map name cases)) names ->
  Forall (fun n => exists c, caseMap cases n = OwnCase c /\ In c cases /\ name c = n) names /\
  (forall pre c post, cases = (pre ++ c :: post)%list -> ~ In (name c) (map name post) ->
                      caseMap cases (name c) = OwnCase c) /\
  validate_cases cases names s = (Normal tt, s) /\
  validate_cases cases (map name cases) s = (Normal tt, s).
Proof.
  intros Hnames.
  assert (Hfound : forall n, In n (map name cases) ->
                             exists c, caseMap cases n = OwnCase c /\ In c cases /\ name c = n).
  { intros n Hn. destruct (own_case_complete cases n Hn) as [c Hc].
    exists c. unfold caseMap. rewrite Hc. split; [reflexivity |].
    now apply own_case_sound in Hc. }
  assert (Haccept : forall selection, Forall (fun n => In n (map name cases)) selection ->
                                      validate_cases cases selection s = (Normal tt, s)).
  { intros selection Hsel. induction Hsel as [| n rest Hn _ IH]; [reflexivity |].
    cbn [validate_cases]. destruct (Hfound n Hn) as (c & -> & _). cbn [truthy].
    exact IH. }
  split; [| split; [| split]].
  - eapply Forall_impl; [| exact Hnames]. exact Hfound.
  - intros pre c post -> Hpost. unfold caseMap. now rewrite own_case_last.
  - now apply Haccept.
  - apply Haccept. apply Forall_forall. auto.
Qed.

End RegistryFacts.

Lemma registered_names_selected_witness :
  validate_cases (Registry.cases Sample.World) ["updateOrderStatus"; "findUserById"] Sample.start
  = (Normal tt, Sample.start).
Proof.
  apply (registered_names_selected Sample.World (Registry.cases Sample.World)
           ["updateOrderStatus"; "findUserById"] Sample.start).
  repeat constructor; cbn; tauto.
Defined.

(* ================================================================== *)
(** * Properties of the raw SQL adapter *)
(* ================================================================== *)

Module RawSqlFacts.

Import RawSql.

Lemma append_assoc (a b c : string) : ((a ++ b) ++ c = a ++ (b ++ c))%string.
Proof. induction a as [| x a IH]; simpl; [reflexivity | now rewrite IH]. Qed.

Lemma append_nil_r (a : string) : (a ++ EmptyString = a)%string.
Proof. induction a as [| x a IH]; simpl; [reflexivity | now rewrite IH]. Qed.

(** ** Reading the placeholders of a statement *)

Lemma digit_not_dollar (c : ascii) : is_digit c = true -> Ascii.eqb c "$" = false.
Proof.
  intros H. destruct (Ascii.eqb_spec c "$") as [-> |]; [discriminate | reflexivity].
Qed.

Lemma scan_plain (pre tail : string) :
  no_dollar pre = true -> scan (pre ++ tail) None = scan tail None.
Proof.
  induction pre as [| c pre IH]; simpl; [reflexivity |].
  intros H. apply andb_prop in H as [Hc Hpre].
  destruct (Ascii.eqb c "$"); [discriminate |].
  destruct (is_digit c); simpl; auto.
Qed.

Lemma scan_digits (digits acc tail : string) :
  all_digits digits = true ->
  scan (digits ++ tail) (Some acc) = scan tail (Some (acc ++ digits)).
Proof.
  revert acc. induction digits as [| c digits IH]; intros acc; simpl.
  - now rewrite append_nil_r.
  - intros H. apply andb_prop in H as [Hc Hdigits].
    rewrite (digit_not_dollar c Hc), Hc, IH by exact Hdigits.
    now rewrite append_assoc.
Qed.

(** A placeholder followed by a character that is neither a digit nor a
    dollar sign. *)
Lemma scan_placeholder (digits tail : string) (c : ascii) :
  all_digits digits = true -> is_digit c = false -> Ascii.eqb c "$" = false ->
  scan (String "$" (digits ++ String c tail)) None = digits :: scan tail None.
Proof.
  intros Hd Hc Hc'. cbn [scan Ascii.eqb]. 
  change (Ascii.eqb "$" "$") with true. cbn [flush app].
  rewrite scan_digits by exact Hd. cbn [scan]. now rewrite Hc', Hc.
Qed.

Lemma scan_tuple4 (i : N) (tail : string) :
  scan (tuple4 i ++ tail) None = (tokens4 i ++ scan tail None)%list.
Proof.
  unfold tuple4, tokens4.
  repeat rewrite append_assoc. cbn [append].
  assert (Hplain : forall text, scan (String "(" text) None = scan text None) by reflexivity.
  assert (Hspace : forall text, scan (String " " text) None = scan text None) by reflexivity.
  rewrite Hplain.
  rewrite scan_placeholder; [| apply dec_digits | reflexivity | reflexivity]. rewrite Hspace.
  rewrite scan_placeholder; [| apply dec_digits | reflexivity | reflexivity]. rewrite Hspace.
  rewrite scan_placeholder; [| apply dec_digits | reflexivity | reflexivity]. rewrite Hspace.
  rewrite scan_placeholder; [| apply dec_digits | reflexivity | reflexivity].
  reflexivity.
Qed.

Lemma scan_join_tuple4 (indices : list N) (tail : string) :
  scan (join ", " (map tuple4 indices) ++ tail) None
  = (flat_map tokens4 indices ++ scan tail None)%list.
Proof.
  induction indices as [| i rest IH]; [reflexivity |].
  destruct rest as [| j rest].
  - cbn [map join flat_map]. now rewrite scan_tuple4, app_nil_r.
  - change (join ", " (map tuple4 (i :: j :: rest)))
      with (tuple4 i ++ ", " ++ join ", " (map tuple4 (j :: rest)))%string.
    rewrite !append_assoc, scan_tuple4.
    rewrite (scan_plain ", ") by reflexivity.
    rewrite IH. cbn [flat_map]. now rewrite <- app_assoc.
Qed.

Lemma tokens4_numbered (a n : nat) :
  flat_map tokens4 (map N.of_nat (seq a n))
  = map (fun k => dec (N.of_nat k)) (seq (4 * a + 1) (4 * n)).
Proof.
  revert a. induction n as [| n IH]; intros a; [reflexivity |].
  replace (4 * S n)%nat with (S (S (S (S (4 * n))))) by lia.
  cbn [seq map flat_map]. rewrite IH. unfold tokens4. cbn [app].
  replace (S (S (S (S (4 * a + 1))))) with (4 * S a + 1)%nat by lia.
  repeat (f_equal; try lia).
Qed.

Lemma placeholders4_numbered {A} (data : list A) (tail : string) :
  scan (placeholders4 data ++ tail) None
  = (numbered (4 * List.length data) ++ scan tail None)%list.
Proof.
  unfold placeholders4, map_index.
  rewrite <- (map_map N.of_nat tuple4), scan_join_tuple4, tokens4_numbered.
  reflexivity.
Qed.

Lemma length_flat_map4 {A B} (f : A -> list B) (data : list A) :
  (forall d, List.length (f d) = 4%nat) ->
  List.length (flat_map f data) = (4 * List.length data)%nat.
Proof.
  intros Hf. induction data as [| d data IH]; [reflexivity |].
  cbn [flat_map]. rewrite List.length_app, Hf, IH. cbn [List.length]. lia.
Qed.

Section AdapterFacts.

Variable World : Type.
Variable Row : Type.
Variable pg : Pg World Row.

Implicit Types (s : PgState World).

Lemma bind_cases {A B} (m : M (PgState World) A) (k : A -> M (PgState World) B) s c s' :
  bind m k s = (c, s') ->
  (exists a s1, m s = (Normal a, s1) /\ k a s1 = (c, s')) \/
  (exists e, m s = (Throw e, s') /\ c = Throw e) \/
  (exists code, m s = (Exit code, s') /\ c = Exit code).
Proof.
  unfold bind. destruct (m s) as [[a | e | code] s1]; intros H.
  - left. now exists a, s1.
  - right. left. injection H as <- <-. now exists e.
  - right. right. injection H as <- <-. now exists code.
Qed.

Lemma issues_ret P {A} (a : A) : issues World P (ret a).
Proof.
  intros s c s' H. injection H as <- <-. exists []. now rewrite app_nil_r.
Qed.

Lemma issues_bind P {A B} (m : M (PgState World) A) (k : A -> M (PgState World) B) :
  issues World P m -> (forall a, issues World P (k a)) -> issues World P (bind m k).
Proof.
  intros Hm Hk s c s' H.
  apply bind_cases in H as [(a & s1 & H1 & H2) | [(e & H1 & ->) | (code & H1 & ->)]].
  - destruct (Hm _ _ _ H1) as (e1 & T1 & F1). destruct (Hk a _ _ _ H2) as (e2 & T2 & F2).
    exists (e1 ++ e2)%list. split; [now rewrite T2, T1, <- app_assoc |].
    apply Forall_app. now split.
  - exact (Hm _ _ _ H1).
  - exact (Hm _ _ _ H1).
Qed.

Lemma issues_try_catch P {A} (m : M (PgState World) A) (h : exn -> M (PgState World) A) :
  issues World P m -> (forall e, issues World P (h e)) -> issues World P (try_catch m h).
Proof.
  intros Hm Hh s c s' H. unfold try_catch in H.
  destruct (m s) as [[a | e | code] s1] eqn:E.
  - injection H as <- <-. exact (Hm _ _ _ E).
  - destruct (Hm _ _ _ E) as (e1 & T1 & F1). destruct (Hh e _ _ _ H) as (e2 & T2 & F2).
    exists (e1 ++ e2)%list. split; [now rewrite T2, T1, <- app_assoc |].
    apply Forall_app. now split.
  - injection H as <- <-. exact (Hm _ _ _ E).
Qed.

Lemma issues_try_finally P {A} (m : M (PgState World) A) (f : M (PgState World) unit) :
  issues World P m -> issues World P f -> issues World P (try_finally m f).
Proof.
  intros Hm Hf s c s' H. unfold try_finally in H.
  destruct (m s) as [c1 s1] eqn:E. destruct (Hm _ _ _ E) as (e1 & T1 & F1).
  assert (Hrun : forall c2 s2, f s1 = (c2, s2) ->
                               exists evs, pg_log s2 = (pg_log s ++ evs)%list /\ Forall P evs).
  { intros c2 s2 E2. destruct (Hf _ _ _ E2) as (e2 & T2 & F2).
    exists (e1 ++ e2)%list. split; [now rewrite T2, T1, <- app_assoc |].
    apply Forall_app. now split. }
  destruct c1 as [a | e | code].
  - destruct (f s1) as [[[] | e2 | code2] s2] eqn:E2; injection H as <- <-; eauto.
  - destruct (f s1) as [[[] | e2 | code2] s2] eqn:E2; injection H as <- <-; eauto.
  - injection H as <- <-. eauto.
Qed.

Lemma issues_lift P {A} (c : completion A) : issues World P (@lift (PgState World) A c).
Proof.
  intros s c0 s' H. injection H as <- <-. exists []. now rewrite app_nil_r.
Qed.

Lemma issues_bind_lift P {A B} (c : completion A) (k : A -> M (PgState World) B) :
  (forall a, c = Normal a -> issues World P (k a)) ->
  issues World P (bind (lift c) k).
Proof.
  intros Hk s c0 s' H. unfold bind, lift in H. destruct c as [a | e | code].
  - exact (Hk a eq_refl _ _ _ H).
  - injection H as <- <-. exists []. now rewrite app_nil_r.
  - injection H as <- <-. exists []. now rewrite app_nil_r.
Qed.

Lemma issues_throw P {A} (e : exn) : issues World P (@throw (PgState World) A e).
Proof.
  intros s c0 s' H. injection H as <- <-. exists []. now rewrite app_nil_r.
Qed.

Lemma issues_pool_query (P : pgevent -> Prop) (sql : string) (params : list sqlparam) :
  P (PgQuery sql params) -> issues World P (pool_query pg sql params).
Proof.
  intros HP s c s' H. unfold pool_query in H.
  destruct (pg_query pg sql params (pg_world s)) as [r w]. injection H as <- <-.
  exists [PgQuery sql params]. split; [reflexivity | now constructor].
Qed.

Lemma issues_client_query (P : pgevent -> Prop) (sql : string) (params : list sqlparam) :
  P (PgClientQuery sql params) -> issues World P (client_query pg sql params).
Proof.
  intros HP s c s' H. unfold client_query in H.
  destruct (pg_client_query pg sql params (pg_world s)) as [r w]. injection H as <- <-.
  exists [PgClientQuery sql params]. split; [reflexivity | now constructor].
Qed.

Lemma issues_pool_connect (P : pgevent -> Prop) :
  P PgConnect -> issues World P (pool_connect pg).
Proof.
  intros HP s c s' H. unfold pool_connect in H.
  destruct (pg_connect pg (pg_world s)) as [r w]. injection H as <- <-.
  exists [PgConnect]. split; [reflexivity | now constructor].
Qed.

Lemma issues_client_release (P : pgevent -> Prop) :
  P PgRelease -> issues World P (client_release pg).
Proof.
  intros HP s c s' H. unfold client_release in H.
  destruct (pg_release pg (pg_world s)) as [r w]. injection H as <- <-.
  exists [PgRelease]. split; [reflexivity | now constructor].
Qed.

Lemma issues_pool_end (P : pgevent -> Prop) :
  P PgEnd -> issues World P (pool_end pg).
Proof.
  intros HP s c s' H. unfold pool_end in H.
  destruct (pg_end pg (pg_world s)) as [r w]. injection H as <- <-.
  exists [PgEnd]. split; [reflexivity | now constructor].
Qed.

Lemma mem_In (x : string) (xs : list string) : mem x xs = true -> In x xs.
Proof.
  unfold mem. intros H. apply existsb_exists in H as (y & Hy & E).
  apply String.eqb_eq in E. now subst.
Qed.

Lemma listUsers_query_placeholders (filters : ListUsersFilters) (sort : SortOptions)
      (paging : PageOptions) :
  placeholders_of (fst (listUsers_query filters sort paging))
  = numbered (List.length (snd (listUsers_query filters sort paging))).
Proof.
  destruct filters as [after text], sort as [column direction].
  unfold listUsers_query. cbn [createdAfter search field dir].
  assert (Hcol : In (if mem column ALLOWED_SORT_FIELDS then column else "id")
                    ALLOWED_SORT_FIELDS).
  { destruct (mem column ALLOWED_SORT_FIELDS) eqn:E; [now apply mem_In | now left]. }
  destruct (String.eqb direction "desc");
    destruct after as [date |]; destruct text as [[| c text] |];
    cbn [nonempty fst snd];
    destruct Hcol as [<- | [<- | [<- | [<- | []]]]]; vm_compute; reflexivity.
Qed.

Lemma flat_map_rows_length {A} (f : A -> list sqlparam) (data : list A) :
  (forall d, List.length (f d) = 4%nat) ->
  placeholders_of (insert_products_sql (placeholders4 data))
  = numbered (List.length (flat_map f data)) /\
  placeholders_of (insert_order_items_sql (placeholders4 data))
  = numbered (List.length (flat_map f data)).
Proof.
  intros Hf. rewrite (length_flat_map4 f data Hf).
  unfold placeholders_of, insert_products_sql, insert_order_items_sql. split.
  - rewrite scan_plain by reflexivity.
    rewrite <- (append_nil_r (placeholders4 data)), placeholders4_numbered.
    cbn [scan flush]. now rewrite app_nil_r.
  - rewrite scan_plain by reflexivity.
    rewrite <- (append_nil_r (placeholders4 data)), placeholders4_numbered.
    cbn [scan flush]. now rewrite app_nil_r.
Qed.

Lemma map_throwing_normal {A B} (g : A -> B) (xs : list A) :
  map_throwing (fun x => Normal (g x)) xs = Normal (map g xs).
Proof.
  induction xs as [| x rest IH]; [reflexivity |].
  cbn [map_throwing and_then map]. now rewrite IH.
Qed.

(** What [flatMap] makes of the items of an order. *)
Lemma order_items_params (order : option Row) (data : list NewOrderItem) :
  flatMap_throwing
    (fun it => and_then (id_of pg order) (fun order_id =>
               Normal [order_id; PNumber (productId it); PNumber (quantity it);
                       PNumber (unitPrice it)])) data
  = match data, order with
    | [], _ => Normal []
    | _ :: _, None => Throw (TypeError "Cannot read properties of undefined (reading 'id')")
    | _ :: _, Some row =>
        Normal (flat_map (fun it => [row_id pg row; PNumber (productId it);
                                     PNumber (quantity it); PNumber (unitPrice it)]) data)
    end.
Proof.
  destruct order as [row |].
  - transitivity (and_then
                    (map_throwing
                       (fun it => Normal [row_id pg row; PNumber (productId it);
                                          PNumber (quantity it); PNumber (unitPrice it)]) data)
                    (fun ys => Normal (List.concat ys))); [reflexivity |].
    rewrite map_throwing_normal. cbn [and_then].
    rewrite <- flat_map_concat_map. now destruct data.
  - now destruct data.
Qed.

(** X13. Every statement the adapter sends, whatever the method, its
    arguments and the answers of the database, carries exactly as many
    parameters as it has placeholders, and its placeholders read [$1],
    [$2], ... in the order they appear: no statement is sent with a
    placeholder left unbound or a parameter left unused. *)
Theorem statements_well_parameterised :
  (forall id, issues World well_parameterised (findUserById pg id)) /\
  (forall email, issues World well_parameterised (findUserByEmail pg email)) /\
  (forall filters sort paging,
      issues World well_parameterised (listUsers pg filters sort paging)) /\
  (forall orderId, issues World well_parameterised (getOrderWithDetails pg orderId)) /\
  (forall limit, issues World well_parameterised (getUserOrderTotals pg limit)) /\
  (forall limit, issues World well_parameterised (getLastOrderPerUser pg limit)) /\
  (forall ids, issues World well_parameterised (batchGetUsers pg ids)) /\
  (forall email name, issues World well_parameterised (insertOneUser pg email name)) /\
  (forall data, issues World well_parameterised (insertManyProducts pg data)) /\
  (forall data, issues World well_parameterised (createOrderWithItems pg data)) /\
  (forall orderId status, issues World well_parameterised (updateOrderStatus pg orderId status)) /\
  (forall orderId, issues World well_parameterised (deleteOrder pg orderId)) /\
  issues World well_parameterised (close pg).
Proof.
  repeat apply conj.
  - intros id. unfold findUserById. apply issues_bind; [apply issues_pool_query; vm_compute; reflexivity | intros; apply issues_ret].
  - intros email. unfold findUserByEmail. apply issues_bind; [apply issues_pool_query; vm_compute; reflexivity | intros; apply issues_ret].
  - intros filters sort paging. unfold listUsers.
    pose proof (listUsers_query_placeholders filters sort paging) as H.
    destruct (listUsers_query filters sort paging) as [sql params].
    apply issues_bind; [apply issues_pool_query; exact H | intros; apply issues_ret].
  - intros orderId. unfold getOrderWithDetails.
    apply issues_bind; [apply issues_pool_query; vm_compute; reflexivity | intros res].
    destruct (hd_error (rows res)); [| apply issues_ret].
    apply issues_bind; [apply issues_pool_query; vm_compute; reflexivity | intros; apply issues_ret].
  - intros limit. unfold getUserOrderTotals, getLastOrderPerUser. apply issues_bind; [apply issues_pool_query; vm_compute; reflexivity | intros; apply issues_ret].
  - intros limit. unfold getUserOrderTotals, getLastOrderPerUser. apply issues_bind; [apply issues_pool_query; vm_compute; reflexivity | intros; apply issues_ret].
  - intros ids. unfold batchGetUsers. destruct (len ids =? 0); [apply issues_ret |].
    apply issues_bind; [apply issues_pool_query; vm_compute; reflexivity | intros; apply issues_ret].
  - intros email name. unfold insertOneUser.
    apply issues_bind; [apply issues_pool_query; vm_compute; reflexivity | intros; apply issues_ret].
  - intros data. unfold insertManyProducts. destruct (len data =? 0); [apply issues_ret |].
    apply issues_bind; [| intros; apply issues_ret].
    apply issues_pool_query.
    exact (proj1 (flat_map_rows_length
                    (fun d => [PNumber (categoryId d); PText (name d); PNumber (price d);
                               PNumber (stock d)])
                    data (fun _ => eq_refl))).
  - intros data. unfold createOrderWithItems, createOrderWithItems_body.
    apply issues_bind; [apply issues_pool_connect; exact I | intros _].
    apply issues_try_finally; [| apply issues_client_release; exact I].
    apply issues_try_catch.
    + apply issues_bind; [apply issues_client_query; vm_compute; reflexivity | intros _].
      apply issues_bind; [apply issues_client_query; vm_compute; reflexivity | intros res].
      apply issues_bind.
      * destruct (0 <? len (items data)); [| apply issues_ret].
        rewrite order_items_params. apply issues_bind_lift. intros params Hparams.
        apply issues_bind; [| intros; apply issues_ret].
        apply issues_client_query. unfold well_parameterised.
        destruct (items data) as [| it rest] eqn:E.
        { injection Hparams as <-. reflexivity. }
        destruct (hd_error (rows res)) as [row |]; [| discriminate].
        injection Hparams as <-.
        exact (proj2 (flat_map_rows_length
                        (fun it => [row_id pg row; PNumber (productId it);
                                    PNumber (quantity it); PNumber (unitPrice it)])
                        (it :: rest) (fun _ => eq_refl))).
      * intros _. apply issues_bind; [apply issues_lift | intros order_id].
        apply issues_bind; [apply issues_client_query; vm_compute; reflexivity | intros _].
        apply issues_bind; [apply issues_client_query; vm_compute; reflexivity | intros; apply issues_ret].
    + intros err. apply issues_bind; [apply issues_client_query; vm_compute; reflexivity | intros; apply issues_throw].
  - intros orderId status. unfold updateOrderStatus.
    apply issues_bind; [apply issues_pool_query; vm_compute; reflexivity | intros; apply issues_ret].
  - intros orderId. unfold deleteOrder.
    apply issues_bind; [apply issues_pool_query; vm_compute; reflexivity | intros; apply issues_ret].
  - unfold close. apply issues_pool_end. exact I.
Qed.

Lemma body_spec (data : NewOrderInput) s c s' :
  createOrderWithItems_body pg data s = (c, s') ->
  exists stmts,
    pg_log s' = (pg_log s ++ PgClientQuery "BEGIN" [] :: stmts)%list /\
    Forall is_client_query stmts /\
    (forall code, c <> Exit code) /\
    (forall x, c = Normal x ->
               exists row, x = Some row /\
                           stmts = (order_statements pg data row
                                    ++ [PgClientQuery "COMMIT" []])%list).
Proof.
  unfold createOrderWithItems_body, order_statements.
  unfold bind, client_query, lift, ret. cbn [pg_world pg_log].
  destruct (pg_client_query pg "BEGIN" [] (pg_world s)) as [[e | r0] w0];
    cbn [settled pg_world pg_log].
  { intros H. injection H as <- <-. exists []. cbn [pg_log].
    repeat split; [constructor | discriminate | discriminate]. }
  destruct (pg_client_query pg insert_order_sql _ w0) as [[e | r1] w1];
    cbn [settled pg_world pg_log].
  { intros H. injection H as <- <-. eexists. cbn [pg_log].
    split; [rewrite <- app_assoc; reflexivity |].
    repeat split; [repeat constructor | discriminate | discriminate]. }
  rewrite order_items_params.
  destruct (items data) as [| it rest] eqn:E.
  - change (0 <? len (@nil NewOrderItem)) with false. cbn iota.
    destruct (hd_error (rows r1)) as [row |]; cbn [id_of settled pg_world pg_log].
    2: { intros H. injection H as <- <-. eexists. cbn [pg_log].
         split; [rewrite <- app_assoc; reflexivity |].
         repeat split; [repeat constructor | discriminate | discriminate]. }
    destruct (pg_client_query pg insert_payment_sql _ w1) as [[e | r2] w2];
      cbn [settled pg_world pg_log].
    { intros H. injection H as <- <-. eexists. cbn [pg_log].
      split; [rewrite <- !app_assoc; reflexivity |].
      repeat split; [repeat constructor | discriminate | discriminate]. }
    destruct (pg_client_query pg "COMMIT" [] w2) as [[e | r3] w3];
      cbn [settled pg_world pg_log].
    { intros H. injection H as <- <-. eexists. cbn [pg_log].
      split; [rewrite <- !app_assoc; reflexivity |].
      repeat split; [repeat constructor | discriminate | discriminate]. }
    intros H. injection H as <- <-. eexists. cbn [pg_log].
    split; [rewrite <- !app_assoc; reflexivity |].
    repeat split; [repeat constructor | discriminate |].
    intros x Hx. injection Hx as <-. exists row. split; reflexivity.
  - change (0 <? len (it :: rest)) with true. cbn iota.
    destruct (hd_error (rows r1)) as [row |]; cbn [id_of settled pg_world pg_log].
    2: { intros H. injection H as <- <-. eexists. cbn [pg_log].
         split; [rewrite <- app_assoc; reflexivity |].
         repeat split; [repeat constructor | discriminate | discriminate]. }
    destruct (pg_client_query pg (insert_order_items_sql _) _ w1) as [[e | r2] w2];
      cbn [settled pg_world pg_log].
    { intros H. injection H as <- <-. eexists. cbn [pg_log].
      split; [rewrite <- !app_assoc; reflexivity |].
      repeat split; [repeat constructor | discriminate | discriminate]. }
    destruct (pg_client_query pg insert_payment_sql _ w2) as [[e | r3] w3];
      cbn [settled pg_world pg_log].
    { intros H. injection H as <- <-. eexists. cbn [pg_log].
      split; [rewrite <- !app_assoc; reflexivity |].
      repeat split; [repeat constructor | discriminate | discriminate]. }
    destruct (pg_client_query pg "COMMIT" [] w3) as [[e | r4] w4];
      cbn [settled pg_world pg_log].
    { intros H. injection H as <- <-. eexists. cbn [pg_log].
      split; [rewrite <- !app_assoc; reflexivity |].
      repeat split; [repeat constructor | discriminate | discriminate]. }
    intros H. injection H as <- <-. eexists. cbn [pg_log].
    split; [rewrite <- !app_assoc; reflexivity |].
    repeat split; [repeat constructor | discriminate |].
    intros x Hx. injection Hx as <-. exists row. split; reflexivity.
Qed.

Lemma log_committed (l body : list pgevent) (a b f r : pgevent) :
  (((l ++ [a]) ++ b :: body ++ [f]) ++ [r] = l ++ a :: b :: body ++ [f; r])%list.
Proof. repeat (rewrite <- app_assoc; cbn [app]). reflexivity. Qed.

Lemma log_rolled_back (l body : list pgevent) (a b f r : pgevent) :
  ((((l ++ [a]) ++ b :: body) ++ [f]) ++ [r] = l ++ a :: b :: body ++ [f; r])%list.
Proof. repeat (rewrite <- app_assoc; cbn [app]). reflexivity. Qed.

(** X15. [createOrderWithItems] never leaves a transaction open or a
    client checked out, whatever the database answers. If no client can
    be had, nothing else is attempted. Otherwise the client is sent
    [BEGIN] first, its last statement is [COMMIT] or [ROLLBACK], and it
    is released exactly once, as the last thing done. A [ROLLBACK] is
    sent as soon as a statement (the [COMMIT] included) fails or the
    order row is missing, and the call then fails; a call that returns
    has sent the order, its items if it has any, the payment and
    [COMMIT], nothing else, and returns the order row whose [id] the
    items and the payment refer to. *)
Theorem transaction_always_closed (data : NewOrderInput) s c s' :
  createOrderWithItems pg data s = (c, s') ->
  (forall code, c <> Exit code) /\
  ((pg_log s' = (pg_log s ++ [PgConnect])%list /\ exists e, c = Throw e) \/
   exists body final,
     pg_log s' = (pg_log s ++ PgConnect :: PgClientQuery "BEGIN" [] :: body
                         ++ [PgClientQuery final []; PgRelease])%list /\
     Forall is_client_query body /\
     (final = "COMMIT" \/ final = "ROLLBACK") /\
     (final = "ROLLBACK" -> exists e, c = Throw e) /\
     (forall x, c = Normal x ->
                exists row, x = Some row /\ body = order_statements pg data row)).
Proof.
  unfold createOrderWithItems, bind at 1, pool_connect.
  destruct (pg_connect pg (pg_world s)) as [[e |] w0]; cbn [finished].
  { intros H. injection H as <- <-. split; [discriminate |]. left. cbn [pg_log]. eauto. }
  unfold try_finally, try_catch.
  destruct (createOrderWithItems_body pg data _) as [[x | e | code] s2] eqn:Hbody;
    apply body_spec in Hbody as (stmts & T & F & Hexit & Hnormal); cbn [pg_log] in T.
  - destruct (Hnormal x eq_refl) as (row & -> & ->).
    unfold client_release.
    destruct (pg_release pg (pg_world s2)) as [[e |] w3]; cbn [finished];
      intros H; injection H as <- <-; (split; [discriminate |]); right;
      exists (order_statements pg data row), "COMMIT"; cbn [pg_log]; rewrite T;
      (split; [apply log_committed |]);
      (split; [now apply Forall_app in F |]);
      (split; [now left |]); (split; [discriminate |]).
    + discriminate.
    + intros x Hx. injection Hx as <-. now exists row.
  - unfold bind, client_query, throw.
    destruct (pg_client_query pg "ROLLBACK" [] (pg_world s2)) as [[e' | r] w3];
      cbn [settled]; unfold client_release; cbn [pg_world pg_log];
      destruct (pg_release pg w3) as [[e'' |] w4]; cbn [finished];
      intros H; injection H as <- <-; (split; [discriminate |]); right;
      exists stmts, "ROLLBACK"; cbn [pg_log]; rewrite T;
      (split; [apply log_rolled_back |]);
      (split; [exact F |]); (split; [now right |]);
      (split; [eauto | discriminate]).
  - exfalso. exact (Hexit code eq_refl).
Qed.

Lemma rows_aligned {A} (f : A -> list sqlparam) (data : list A) :
  (forall d, List.length (f d) = 4%nat) ->
  forall i d, nth_error data i = Some d ->
              firstn 4 (skipn (4 * i) (flat_map f data)) = f d.
Proof.
  intros Hf. induction data as [| d0 data IH]; intros i d Hd.
  - destruct i; discriminate.
  - cbn [flat_map]. destruct i as [| i]; cbn [nth_error] in Hd.
    + injection Hd as <-. change (4 * 0)%nat with 0%nat. cbn [skipn].
      rewrite firstn_app, (Hf d0), Nat.sub_diag, firstn_O, app_nil_r.
      apply firstn_all2. rewrite Hf. lia.
    + rewrite skipn_app, (Hf d0), skipn_all2 by (rewrite Hf; lia).
      replace (4 * S i - 4)%nat with (4 * i)%nat by lia. cbn [app]. now apply IH.
Qed.

Lemma products_placeholders {A} (data : list A) :
  placeholders_of (insert_products_sql (placeholders4 data))
  = flat_map tokens4 (map N.of_nat (seq 0 (List.length data))).
Proof.
  unfold placeholders_of, insert_products_sql. rewrite scan_plain by reflexivity.
  rewrite <- (append_nil_r (placeholders4 data)).
  unfold placeholders4, map_index.
  rewrite <- (map_map N.of_nat tuple4), scan_join_tuple4.
  cbn [scan flush]. now rewrite app_nil_r.
Qed.

(** X16. [insertManyProducts] of no rows returns 0 without a call to the
    database. Otherwise it sends one statement, four parameters a row,
    in the order of the rows: the placeholders [$4i+1 ... $4i+4] of the
    [i]-th tuple of the statement are bound to the category, the name,
    the price and the stock of the [i]-th row. *)
Theorem insertManyProducts_rows (data : list NewProduct) s c s' :
  insertManyProducts pg data s = (c, s') ->
  match data with
  | [] => c = Normal 0 /\ s' = s
  | _ :: _ =>
      exists params,
        pg_log s' = (pg_log s ++ [PgQuery (insert_products_sql (placeholders4 data)) params])%list /\
        placeholders_of (insert_products_sql (placeholders4 data))
        = flat_map tokens4 (map N.of_nat (seq 0 (List.length data))) /\
        forall i d, nth_error data i = Some d ->
                    firstn 4 (skipn (4 * i) params)
                    = [PNumber (categoryId d); PText (name d); PNumber (price d);
                       PNumber (stock d)]
  end.
Proof.
  unfold insertManyProducts. destruct data as [| d0 rest].
  - intros H. injection H as <- <-. now split.
  - change (len (d0 :: rest) =? 0) with false. cbn iota.
    unfold bind, pool_query.
    destruct (pg_query pg _ _ (pg_world s)) as [[e | res] w]; cbn [settled];
      intros H; injection H as <- <-; eexists; cbn [pg_log];
      (split; [reflexivity |]); (split; [apply products_placeholders |]);
      intros i d Hd;
      exact (rows_aligned (fun d => [PNumber (categoryId d); PText (name d);
                                     PNumber (price d); PNumber (stock d)])
                          (d0 :: rest) (fun _ => eq_refl) i d Hd).
Qed.

End AdapterFacts.



Lemma transaction_always_closed_witness :
  (pg_log (snd Sample.failed_order_run) = (pg_log Sample.start ++ [PgConnect])%list /\
   exists e, fst Sample.failed_order_run = Throw e) \/
  exists body final,
    pg_log (snd Sample.failed_order_run)
    = (pg_log Sample.start ++ PgConnect :: PgClientQuery "BEGIN" [] :: body
                ++ [PgClientQuery final []; PgRelease])%list /\
    Forall is_client_query body /\
    (final = "COMMIT" \/ final = "ROLLBACK") /\
    (final = "ROLLBACK" -> exists e, fst Sample.failed_order_run = Throw e) /\
    (forall x, fst Sample.failed_order_run = Normal x ->
               exists row, x = Some row /\
                           body = order_statements (Sample.failing 3) Sample.two_items row).
Proof.
  assert (H : createOrderWithItems (Sample.failing 3) Sample.two_items Sample.start
              = (fst Sample.failed_order_run, snd Sample.failed_order_run))
    by (vm_compute; reflexivity).
  exact (proj2 (transaction_always_closed Sample.World Sample.Row (Sample.failing 3)
                  Sample.two_items Sample.start (fst Sample.failed_order_run)
                  (snd Sample.failed_order_run) H)).
Defined.

Lemma insertManyProducts_rows_witness :
  exists params,
    pg_log (snd Sample.products_run)
    = (pg_log Sample.start
         ++ [PgQuery (insert_products_sql (placeholders4 Sample.two_products)) params])%list /\
    placeholders_of (insert_products_sql (placeholders4 Sample.two_products))
    = flat_map tokens4 (map N.of_nat (seq 0 (List.length Sample.two_products))) /\
    forall i d, nth_error Sample.two_products i = Some d ->
                firstn 4 (skipn (4 * i) params)
                = [PNumber (categoryId d); PText (name d); PNumber (price d);
                   PNumber (stock d)].
Proof.
  assert (H : insertManyProducts Sample.pg Sample.two_products Sample.start
              = (fst Sample.products_run, snd Sample.products_run))
    by (vm_compute; reflexivity).
  exact (insertManyProducts_rows Sample.World Sample.Row Sample.pg Sample.two_products
           Sample.start (fst Sample.products_run) (snd Sample.products_run) H).
Defined.


End RawSqlFacts.

(* ================================================================== *)
(** * Properties of the seed script *)
(* ================================================================== *)

Module SeedFacts.

Import RawSql Seed.

Lemma seeded_rows_app (xs ys : list pgevent) :
  seeded_rows (xs ++ ys) = (seeded_rows xs ++ seeded_rows ys)%list.
Proof. apply flat_map_app. Qed.

Lemma map_seq_from {B} (g : nat -> B) (a b : nat) :
  map g (seq a b) = map (fun k => g (a + k)%nat) (seq 0 b).
Proof.
  revert a g. induction b as [| b IH]; intros a g; [reflexivity |].
  cbn [seq map]. f_equal; [f_equal; lia |].
  rewrite (IH (S a) g), (IH 1%nat (fun k => g (a + k)%nat)).
  apply map_ext. intros k. f_equal. lia.
Qed.

Lemma z_range_split (lo : Z) (a b : nat) :
  z_range lo (a + b) = (z_range lo a ++ z_range (lo + Z.of_nat a) b)%list.
Proof.
  unfold z_range. rewrite seq_app, map_app. f_equal.
  cbn [Nat.add]. rewrite map_seq_from. apply map_ext. intros k. lia.
Qed.

(** ** Placeholders of the rows of two columns *)

Lemma scan_tuple2 (j : N) (tail : string) :
  scan (tuple2 j ++ tail) None = (tokens2 j ++ scan tail None)%list.
Proof.
  unfold tuple2, tokens2.
  repeat rewrite RawSqlFacts.append_assoc. cbn [append].
  assert (Hplain : forall text, scan (String "(" text) None = scan text None) by reflexivity.
  assert (Hspace : forall text, scan (String " " text) None = scan text None) by reflexivity.
  rewrite Hplain.
  rewrite RawSqlFacts.scan_placeholder; [| apply dec_digits | reflexivity | reflexivity].
  rewrite Hspace.
  rewrite RawSqlFacts.scan_placeholder; [| apply dec_digits | reflexivity | reflexivity].
  reflexivity.
Qed.

Lemma scan_join_tuple2 (indices : list N) (tail : string) :
  scan (join ", " (map tuple2 indices) ++ tail) None
  = (flat_map tokens2 indices ++ scan tail None)%list.
Proof.
  induction indices as [| i rest IH]; [reflexivity |].
  destruct rest as [| j rest].
  - cbn [map join flat_map]. now rewrite scan_tuple2, app_nil_r.
  - change (join ", " (map tuple2 (i :: j :: rest)))
      with (tuple2 i ++ ", " ++ join ", " (map tuple2 (j :: rest)))%string.
    rewrite !RawSqlFacts.append_assoc, scan_tuple2.
    rewrite (RawSqlFacts.scan_plain ", ") by reflexivity.
    rewrite IH. cbn [flat_map]. now rewrite <- app_assoc.
Qed.

Lemma tokens2_numbered (a n : nat) :
  flat_map tokens2 (map N.of_nat (seq a n))
  = map (fun k => dec (N.of_nat k)) (seq (2 * a + 1) (2 * n)).
Proof.
  revert a. induction n as [| n IH]; intros a; [reflexivity |].
  replace (2 * S n)%nat with (S (S (2 * n))) by lia.
  cbn [seq map flat_map]. rewrite IH. unfold tokens2. cbn [app].
  replace (S (S (2 * a + 1))) with (2 * S a + 1)%nat by lia.
  repeat (f_equal; try lia).
Qed.

Lemma scan_returning : scan " RETURNING id" None = [].
Proof. vm_compute. reflexivity. Qed.

Lemma users_sql_placeholders (batchSize : Z) :
  placeholders_of (users_sql (join ", " (array_of batchSize tuple2)))
  = numbered (2 * Z.to_nat batchSize).
Proof.
  unfold placeholders_of, users_sql, array_of.
  rewrite RawSqlFacts.scan_plain by reflexivity.
  rewrite <- (map_map N.of_nat tuple2), scan_join_tuple2, tokens2_numbered.
  rewrite scan_returning. now rewrite app_nil_r.
Qed.

Lemma products_sql_placeholders (batchSize : Z) :
  placeholders_of (products_sql (join ", " (array_of batchSize tuple4)))
  = numbered (4 * Z.to_nat batchSize).
Proof.
  unfold placeholders_of, products_sql, array_of.
  rewrite RawSqlFacts.scan_plain by reflexivity.
  rewrite <- (map_map N.of_nat tuple4), RawSqlFacts.scan_join_tuple4,
    RawSqlFacts.tokens4_numbered.
  rewrite scan_returning. now rewrite app_nil_r.
Qed.

Lemma length_concat_rows {A} (width : nat) (table : list (list A)) :
  Forall (fun row => List.length row = width) table ->
  List.length (List.concat table) = (width * List.length table)%nat.
Proof.
  induction 1 as [| row table Hrow _ IH]; cbn [List.concat List.length]; [lia |].
  rewrite List.length_app, Hrow, IH. lia.
Qed.

Lemma rows_from_width {A} (Q : N -> list A -> Prop) (width : nat) (start : N)
      (table : list (list A)) :
  (forall j row, Q j row -> List.length row = width) ->
  rows_from Q start table -> Forall (fun row => List.length row = width) table.
Proof.
  intros HQ. revert start. induction table as [| row table IH]; intros start H; [constructor |].
  destruct H as [Hrow Hrest]. constructor; [exact (HQ _ _ Hrow) | exact (IH _ Hrest)].
Qed.

Lemma flatMap_throwing_length {A B} (f : A -> completion (list B)) (width : nat)
      (xs : list A) (ys : list B) :
  (forall x row, f x = Normal row -> List.length row = width) ->
  flatMap_throwing f xs = Normal ys -> List.length ys = (width * List.length xs)%nat.
Proof.
  intros Hf. unfold flatMap_throwing.
  assert (H : forall table, map_throwing f xs = Normal table ->
                            List.length (List.concat table) = (width * List.length xs)%nat).
  { induction xs as [| x xs IH]; intros table Htable.
    - injection Htable as <-. cbn. lia.
    - cbn [map_throwing] in Htable. destruct (f x) as [row | e | code] eqn:Ex; try discriminate.
      cbn [and_then] in Htable.
      destruct (map_throwing f xs) as [rest | e | code]; try discriminate.
      injection Htable as <-. cbn [List.concat List.length].
      rewrite List.length_app, (Hf x row Ex), (IH rest eq_refl). lia. }
  destruct (map_throwing f xs) as [table | e | code]; try discriminate.
  intros Hys. injection Hys as <-. now apply H.
Qed.

Lemma flatMap_throwing_no_exit {A B} (f : A -> completion (list B)) (xs : list A) :
  (forall x code, f x <> Exit code) -> forall code, flatMap_throwing f xs <> Exit code.
Proof.
  intros Hf. unfold flatMap_throwing.
  assert (H : forall code, map_throwing f xs <> Exit code).
  { induction xs as [| x xs IH]; intros code; [discriminate |].
    cbn [map_throwing]. apply and_then_no_exit; [apply Hf |].
    intros y code'. apply and_then_no_exit; [exact IH | discriminate]. }
  intros code. apply and_then_no_exit; [exact H | discriminate].
Qed.

Section ScriptFacts.

Variable World : Type.
Variable Row : Type.
Variable pg : Pg World Row.
Variable faker : Faker World.

Implicit Types (s : SeedState World).

Lemma run_cases {A B} (m : M (SeedState World) A) (k : A -> M (SeedState World) B) s c s' :
  bind m k s = (c, s') ->
  (exists a s1, m s = (Normal a, s1) /\ k a s1 = (c, s')) \/
  (exists e, m s = (Throw e, s') /\ c = Throw e) \/
  (exists code, m s = (Exit code, s') /\ c = Exit code).
Proof.
  unfold bind. destruct (m s) as [[a | e | code] s1]; intros H.
  - left. now exists a, s1.
  - right. left. injection H as <- <-. now exists e.
  - right. right. injection H as <- <-. now exists code.
Qed.

Lemma seeds_ret {A} (Q : A -> Prop) (a : A) : Q a -> seeds World Q [] (ret a).
Proof.
  intros HQ s c s' H. injection H as <- <-. exists []. rewrite app_nil_r.
  repeat apply conj; [reflexivity | constructor | discriminate |].
  intros a' Ha. injection Ha as <-. now split.
Qed.

Lemma seeds_bind {A B} (Q : A -> Prop) (R : B -> Prop) (e1 e2 : list seeded)
      (m : M (SeedState World) A) (k : A -> M (SeedState World) B) :
  seeds World Q e1 m -> (forall a, Q a -> seeds World R e2 (k a)) ->
  seeds World R (e1 ++ e2) (bind m k).
Proof.
  intros Hm Hk s c s' H.
  apply run_cases in H as [(a & s1 & H1 & H2) | [(e & H1 & ->) | (code & H1 & ->)]].
  - destruct (Hm _ _ _ H1) as (ev1 & T1 & F1 & _ & N1).
    destruct (N1 a eq_refl) as [Ha S1].
    destruct (Hk a Ha _ _ _ H2) as (ev2 & T2 & F2 & X2 & N2).
    exists (ev1 ++ ev2)%list. repeat apply conj.
    + now rewrite T2, T1, <- app_assoc.
    + apply Forall_app. now split.
    + exact X2.
    + intros b Hb. destruct (N2 b Hb) as [Hb' S2]. split; [exact Hb' |].
      now rewrite seeded_rows_app, S1, S2.
  - destruct (Hm _ _ _ H1) as (ev1 & T1 & F1 & X1 & _).
    exists ev1. repeat apply conj; [exact T1 | exact F1 | discriminate | discriminate].
  - destruct (Hm _ _ _ H1) as (ev1 & T1 & F1 & X1 & _). exfalso. exact (X1 code eq_refl).
Qed.

Lemma seeds_then {A B} (Q : A -> Prop) (R : B -> Prop) (expected : list seeded)
      (m : M (SeedState World) A) (k : A -> M (SeedState World) B) :
  seeds World Q [] m -> (forall a, Q a -> seeds World R expected (k a)) ->
  seeds World R expected (bind m k).
Proof. intros Hm Hk. exact (seeds_bind Q R [] expected m k Hm Hk). Qed.

Lemma seeds_weaken {A} (Q Q' : A -> Prop) (expected : list seeded)
      (m : M (SeedState World) A) :
  (forall a, Q a -> Q' a) -> seeds World Q expected m -> seeds World Q' expected m.
Proof.
  intros HQ Hm s c s' H. destruct (Hm _ _ _ H) as (evs & T & F & X & N).
  exists evs. repeat apply conj; [exact T | exact F | exact X |].
  intros a Ha. destruct (N a Ha) as [Q1 S1]. split; [now apply HQ | exact S1].
Qed.

Lemma seeds_oracle {A} (f : World -> A * World) :
  seeds World (fun _ => True) [] (oracle f).
Proof.
  intros s c s' H. unfold oracle in H.
  destruct (f (pg_world (seed_pg s))) as [a w]. injection H as <- <-.
  exists []. unfold log. cbn [seed_pg pg_log]. rewrite app_nil_r.
  repeat apply conj; [reflexivity | constructor | discriminate |]. now intros.
Qed.

Lemma seeds_stdout_write (text : string) :
  seeds World (fun _ => True) [] (stdout_write text).
Proof.
  intros s c s' H. injection H as <- <-.
  exists []. unfold log. cbn [seed_pg]. rewrite app_nil_r.
  repeat apply conj; [reflexivity | constructor | discriminate |]. now intros.
Qed.

Lemma seeds_lift {A} (c : completion A) :
  (forall code, c <> Exit code) -> seeds World (fun a => c = Normal a) [] (lift c).
Proof.
  intros Hc s c0 s' H. injection H as <- <-.
  exists []. rewrite app_nil_r.
  repeat apply conj; [reflexivity | constructor | exact Hc |]. intros a Ha. now split.
Qed.

Lemma seeds_query (sql : string) (params : list sqlparam) :
  well_parameterised (PgClientQuery sql params) ->
  seeds World (fun _ => True) (seeded_by (PgClientQuery sql params))
        (db (client_query pg sql params)).
Proof.
  intros Hw s c s' H. unfold db, client_query in H.
  destruct (pg_client_query pg sql params (pg_world (seed_pg s))) as [r w].
  injection H as <- <-. exists [PgClientQuery sql params].
  unfold log. cbn [seed_pg pg_log].
  repeat apply conj.
  - reflexivity.
  - constructor; [| constructor]. split; [exact I | exact Hw].
  - destruct r; discriminate.
  - intros a _. split; [exact I |]. unfold seeded_rows. cbn [flat_map].
    now rewrite app_nil_r.
Qed.

Lemma id_of_no_exit (order : option Row) (code : Z) : id_of pg order <> Exit code.
Proof. destruct order; discriminate. Qed.

Lemma seeds_array_from {A} (Q : N -> A -> Prop) (f : N -> M (SeedState World) A)
      (n : nat) (start : N) :
  (forall j, seeds World (Q j) [] (f j)) ->
  seeds World (fun table => List.length table = n /\ rows_from Q start table) []
        (array_from n start f).
Proof.
  intros Hf. revert start. induction n as [| n IH]; intros start; cbn [array_from].
  - apply seeds_ret. now split.
  - eapply seeds_then; [apply Hf | intros x Hx].
    eapply seeds_then; [apply IH | intros xs [Hlen Hxs]].
    apply seeds_ret. cbn [List.length rows_from]. auto.
Qed.

Lemma seeds_random_element (xs : list sqlparam) :
  seeds World (fun _ => True) [] (random_element faker xs).
Proof.
  unfold random_element.
  eapply seeds_then; [apply seeds_oracle | intros r _]. now apply seeds_ret.
Qed.

Lemma seeds_product_row (catIds : list sqlparam) :
  seeds World (fun row => List.length row = 4%nat) [] (product_row faker catIds).
Proof.
  unfold product_row.
  eapply seeds_then; [apply seeds_random_element | intros categoryId _].
  eapply seeds_then; [apply seeds_oracle | intros name _].
  eapply seeds_then; [apply seeds_oracle | intros price _].
  eapply seeds_then; [apply seeds_oracle | intros stock _].
  now apply seeds_ret.
Qed.

Lemma seeds_user_row (i : Z) (j : N) :
  seeds World (fun row => exists name,
                   row = [PText (email faker (i + Z.of_N j + 1)); PText name]) []
        (user_row faker i j).
Proof.
  unfold user_row.
  eapply seeds_then; [apply seeds_oracle | intros name _].
  apply seeds_ret. now exists name.
Qed.

Lemma seeds_item (productIds : list sqlparam) :
  seeds World (fun _ => True) [] (item faker productIds).
Proof.
  unfold item.
  eapply seeds_then; [apply seeds_random_element | intros productId _].
  eapply seeds_then; [apply seeds_oracle | intros qty _].
  eapply seeds_then; [apply seeds_oracle | intros price _].
  now apply seeds_ret.
Qed.

Lemma seeds_categories (names : list string) (catIds : list sqlparam) :
  seeds World (fun _ => True) [] (categories pg names catIds).
Proof.
  revert catIds. induction names as [| name rest IH]; intros catIds; cbn [categories].
  - now apply seeds_ret.
  - eapply seeds_then; [apply (seeds_query category_sql); vm_compute; reflexivity | intros res _].
    eapply seeds_then; [apply seeds_lift, id_of_no_exit | intros id _]. apply IH.
Qed.

Lemma products_seeded (batchSize : Z) (table : list (list sqlparam)) :
  List.length table = Z.to_nat batchSize ->
  Forall (fun row => List.length row = 4%nat) table ->
  well_parameterised
    (PgClientQuery (products_sql (join ", " (array_of batchSize tuple4))) (List.concat table)) /\
  seeded_by
    (PgClientQuery (products_sql (join ", " (array_of batchSize tuple4))) (List.concat table))
  = repeat Product (Z.to_nat batchSize).
Proof.
  intros Hlen Hrows.
  pose proof (length_concat_rows 4 table Hrows) as Hparams. rewrite Hlen in Hparams.
  split.
  - unfold well_parameterised. now rewrite products_sql_placeholders, Hparams.
  - unfold seeded_by.
    change (prefix "INSERT INTO users" (products_sql (join ", " (array_of batchSize tuple4))))
      with false.
    change (prefix "INSERT INTO products"
                   (products_sql (join ", " (array_of batchSize tuple4))))
      with true.
    cbn iota. rewrite Hparams. f_equal.
    rewrite Nat.mul_comm. now apply Nat.div_mul.
Qed.

Lemma seeds_products_loop (fuel : nat) (products i : Z) (catIds productIds : list sqlparam) :
  products - i <= Z.of_nat fuel ->
  seeds World (fun _ => True) (repeat Product (Z.to_nat (products - i)))
        (products_loop pg faker fuel products i catIds productIds).
Proof.
  revert i productIds. induction fuel as [| fuel IH]; intros i productIds Hfuel;
    cbn [products_loop].
  - replace (Z.to_nat (products - i)) with 0%nat by lia. now apply seeds_ret.
  - destruct (Z.ltb_spec i products) as [Hlt | Hge].
    2: { replace (Z.to_nat (products - i)) with 0%nat by lia. now apply seeds_ret. }
    set (batchSize := Z.min 500 (products - i)).
    eapply seeds_then;
      [apply (seeds_array_from (fun _ row => List.length row = 4%nat));
       intros j; apply seeds_product_row | intros table [Hlen Hrows]].
    apply (rows_from_width _ 4) in Hrows; [| auto].
    destruct (products_seeded batchSize table Hlen Hrows) as [Hw Hs].
    replace (repeat Product (Z.to_nat (products - i)))
      with (repeat Product (Z.to_nat batchSize)
            ++ repeat Product (Z.to_nat (products - (i + 500))))%list.
    2: { rewrite <- repeat_app. f_equal. unfold batchSize. lia. }
    eapply seeds_bind; [rewrite <- Hs; apply seeds_query; exact Hw | intros res _].
    apply IH. lia.
Qed.

Lemma order_items_placeholders (items : list Item) :
  placeholders_of (order_items_sql (placeholders4 items))
  = numbered (4 * List.length items).
Proof.
  pose proof (proj2 (RawSqlFacts.flat_map_rows_length
                       (fun _ : Item => [PNull; PNull; PNull; PNull]) items
                       (fun _ => eq_refl))) as H.
  rewrite (RawSqlFacts.length_flat_map4 (fun _ : Item => [PNull; PNull; PNull; PNull])
             items (fun _ => eq_refl)) in H. exact H.
Qed.

Lemma seeds_order (productIds : list sqlparam) (user : Row) :
  seeds World (fun _ => True) [] (order pg faker productIds user).
Proof.
  unfold order.
  eapply seeds_then; [apply seeds_oracle | intros numItems _].
  eapply seeds_then;
    [apply (seeds_array_from (fun _ _ => True)); intros j; apply seeds_item | intros items _].
  eapply seeds_then; [apply seeds_oracle | intros status _].
  eapply seeds_then; [apply seeds_lift; intros code; apply toFixed_no_exit | intros amount _].
  eapply seeds_then; [apply (seeds_query order_sql); vm_compute; reflexivity | intros res _].
  eapply (seeds_then (fun _ : unit => True)).
  { destruct (0 <? len items); [| now apply seeds_ret].
    eapply seeds_then.
    - apply seeds_lift. apply flatMap_throwing_no_exit. intros it code.
      apply and_then_no_exit; [apply id_of_no_exit | discriminate].
    - intros iParams HiParams.
      apply (flatMap_throwing_length _ 4) in HiParams.
      2: { intros it row Hrow. destruct (id_of pg (hd_error (rows res))); try discriminate.
           injection Hrow as <-. reflexivity. }
      eapply seeds_then; [| intros; now apply seeds_ret].
      apply (seeds_query (order_items_sql (placeholders4 items))).
      unfold well_parameterised. now rewrite order_items_placeholders, HiParams. }
  intros _ _.
  eapply (seeds_then (fun _ : sqlparam => True)).
  { destruct (String.eqb (payStatus status) "completed").
    - eapply seeds_then; [apply seeds_oracle | intros time _]. now apply (seeds_ret (fun _ => True)).
    - now apply (seeds_ret (fun _ => True)). }
  intros paidAt _.
  eapply seeds_then; [apply seeds_lift, id_of_no_exit | intros order_id _].
  eapply seeds_then; [apply (seeds_query payment_sql); vm_compute; reflexivity | intros _ _].
  now apply seeds_ret.
Qed.

Lemma seeds_orders (numOrders : nat) (productIds : list sqlparam) (user : Row)
      (totalOrders : Z) :
  seeds World (fun _ => True) [] (orders pg faker numOrders productIds user totalOrders).
Proof.
  revert totalOrders. induction numOrders as [| n IH]; intros totalOrders; cbn [orders].
  - now apply seeds_ret.
  - eapply seeds_then; [apply seeds_order | intros _ _; apply IH].
Qed.

Lemma seeds_orders_of_users (d : DataSize) (productIds : list sqlparam)
      (userRows : list Row) (totalOrders : Z) :
  seeds World (fun _ => True) []
        (orders_of_users pg faker d productIds userRows totalOrders).
Proof.
  revert totalOrders. induction userRows as [| user rest IH]; intros totalOrders;
    cbn [orders_of_users].
  - now apply seeds_ret.
  - eapply seeds_then; [apply seeds_oracle | intros numOrders _].
    eapply seeds_then; [apply seeds_orders | intros totalOrders' _; apply IH].
Qed.

Lemma user_rows_emails (i : Z) (start : N) (table : list (list sqlparam)) :
  rows_from (fun j row => exists name,
                 row = [PText (email faker (i + Z.of_N j + 1)); PText name]) start table ->
  evens (List.concat table)
  = map (fun k => PText (email faker k)) (z_range (i + Z.of_N start + 1) (List.length table)).
Proof.
  revert start. induction table as [| row table IH]; intros start H; [reflexivity |].
  destruct H as [[name ->] Hrest]. cbn [List.concat app evens List.length].
  rewrite (IH _ Hrest).
  change (S (List.length table)) with (1 + List.length table)%nat.
  rewrite z_range_split. cbn [z_range seq map app]. f_equal; [f_equal; f_equal; lia |].
  f_equal. f_equal. lia.
Qed.

Lemma users_seeded (i batchSize : Z) (table : list (list sqlparam)) :
  List.length table = Z.to_nat batchSize ->
  rows_from (fun j row => exists name,
                 row = [PText (email faker (i + Z.of_N j + 1)); PText name]) 0 table ->
  well_parameterised
    (PgClientQuery (users_sql (join ", " (array_of batchSize tuple2))) (List.concat table)) /\
  seeded_by
    (PgClientQuery (users_sql (join ", " (array_of batchSize tuple2))) (List.concat table))
  = map (fun k => User (PText (email faker k))) (z_range (i + 1) (Z.to_nat batchSize)).
Proof.
  intros Hlen Hrows. split.
  - unfold well_parameterised. rewrite users_sql_placeholders.
    rewrite (length_concat_rows 2 table), Hlen; [reflexivity |].
    apply (rows_from_width _ 2) in Hrows; [exact Hrows |].
    intros j row [name ->]. reflexivity.
  - unfold seeded_by.
    change (prefix "INSERT INTO users" (users_sql (join ", " (array_of batchSize tuple2))))
      with true.
    cbn iota. rewrite (user_rows_emails i 0 table Hrows), Hlen, map_map.
    replace (i + Z.of_N 0 + 1) with (i + 1) by lia. reflexivity.
Qed.

Lemma seeds_users_loop (fuel : nat) (d : DataSize) (i : Z) (productIds : list sqlparam)
      (totalOrders : Z) :
  users d - i <= Z.of_nat fuel ->
  seeds World (fun _ => True)
        (map (fun k => User (PText (email faker k))) (z_range (i + 1) (Z.to_nat (users d - i))))
        (users_loop pg faker fuel d i productIds totalOrders).
Proof.
  revert i totalOrders. induction fuel as [| fuel IH]; intros i totalOrders Hfuel;
    cbn [users_loop].
  - replace (Z.to_nat (users d - i)) with 0%nat by lia. now apply seeds_ret.
  - destruct (Z.ltb_spec i (users d)) as [Hlt | Hge].
    2: { replace (Z.to_nat (users d - i)) with 0%nat by lia. now apply seeds_ret. }
    set (batchSize := Z.min 200 (users d - i)).
    eapply seeds_then; [apply seeds_array_from; intros j; apply seeds_user_row |].
    intros table [Hlen Hrows].
    destruct (users_seeded i batchSize table Hlen Hrows) as [Hw Hs].
    replace (z_range (i + 1) (Z.to_nat (users d - i)))
      with (z_range (i + 1) (Z.to_nat batchSize)
            ++ z_range (i + 200 + 1) (Z.to_nat (users d - (i + 200))))%list.
    2: { destruct (Z.le_gt_cases 200 (users d - i)) as [Hfull | Hlast].
         - replace (Z.to_nat (users d - i))
             with (Z.to_nat batchSize + Z.to_nat (users d - (i + 200)))%nat
             by (unfold batchSize; lia).
           rewrite z_range_split. f_equal. f_equal. unfold batchSize. lia.
         - replace (Z.to_nat (users d - (i + 200))) with 0%nat by lia.
           cbn [z_range seq map]. rewrite app_nil_r. f_equal. unfold batchSize. lia. }
    rewrite map_app.
    eapply seeds_bind; [rewrite <- Hs; apply seeds_query; exact Hw | intros res _].
    eapply seeds_then; [apply seeds_orders_of_users | intros totalOrders' _].
    eapply (seeds_then (fun _ : unit => True)).
    { destruct ((Z.rem (i + batchSize) 1000 =? 0) || (users d <=? i + batchSize)).
      - apply seeds_stdout_write.
      - now apply (seeds_ret (fun _ => True)). }
    intros _ _. apply IH. lia.
Qed.

Lemma seeds_fill_tables (c : config) :
  seeds World (fun _ => True) (seeded_for faker c) (fill_tables pg faker c).
Proof.
  unfold fill_tables.
  eapply seeds_then; [apply seeds_categories | intros catIds _].
  destruct c as [d | key |]; cbn [cfg_products seeded_for].
  - eapply seeds_bind.
    + pose proof (seeds_products_loop (Z.to_nat (products d)) (products d) 0 catIds []) as H.
      rewrite Z.sub_0_r in H. apply H. lia.
    + intros productIds _.
      eapply seeds_then; [apply seeds_stdout_write | intros _ _].
      pose proof (seeds_users_loop (Z.to_nat (users d)) d 0 productIds 0) as H.
      rewrite Z.sub_0_r in H. apply H. lia.
  - eapply seeds_then; [now apply (seeds_ret (fun _ => True)) | intros productIds _].
    eapply seeds_then; [apply seeds_stdout_write | intros _ _]. now apply seeds_ret.
  - eapply seeds_then; [now apply (seeds_ret (fun _ => True)) | intros productIds _].
    eapply seeds_then; [apply seeds_stdout_write | intros _ _]. now apply seeds_ret.
Qed.

Lemma db_query_log (sql : string) (params : list sqlparam) s (c : completion (QueryResult Row)) s' :
  db (client_query pg sql params) s = (c, s') ->
  log s' = (log s ++ [PgClientQuery sql params])%list /\ forall code, c <> Exit code.
Proof.
  unfold db, client_query. intros H.
  destruct (pg_client_query pg sql params (pg_world (seed_pg s))) as [r w].
  injection H as <- <-. split; [reflexivity | destruct r; discriminate].
Qed.

Lemma statement_plain (sql : string) :
  placeholders_of sql = [] -> statement (PgClientQuery sql []).
Proof. intros H. split; [exact I | exact H]. Qed.

(** The [try] block: after [BEGIN], statements of the transaction only;
    when it completes, they are [TRUNCATE], what fills the tables, and
    [COMMIT]. *)
Lemma seed_body_spec (c : config) s (cb : completion unit) s' :
  body pg faker c s = (cb, s') ->
  exists stmts,
    log s' = (log s ++ PgClientQuery "BEGIN" [] :: stmts)%list /\
    Forall statement stmts /\
    (forall code, cb <> Exit code) /\
    (forall x, cb = Normal x ->
               exists filling,
                 stmts = (PgClientQuery truncate_sql [] :: filling
                          ++ [PgClientQuery "COMMIT" []])%list /\
                 seeded_rows filling = seeded_for faker c).
Proof.
  unfold body. intros H.
  assert (Htruncate : statement (PgClientQuery truncate_sql []))
    by (apply statement_plain; vm_compute; reflexivity).
  assert (Hcommit : statement (PgClientQuery "COMMIT" []))
    by (apply statement_plain; vm_compute; reflexivity).
  apply run_cases in H as [(r0 & s0 & H0 & H) | [(e & H0 & ->) | (code & H0 & ->)]];
    apply db_query_log in H0 as [T0 X0].
  2: { exists []. repeat apply conj; [exact T0 | constructor | discriminate | discriminate]. }
  2: { exfalso. exact (X0 code eq_refl). }
  apply run_cases in H as [(r1 & s1 & H1 & H) | [(e & H1 & ->) | (code & H1 & ->)]];
    apply db_query_log in H1 as [T1 X1].
  2: { exists [PgClientQuery truncate_sql []].
       repeat apply conj; [now rewrite T1, T0, <- app_assoc | now constructor
                           | discriminate | discriminate]. }
  2: { exfalso. exact (X1 code eq_refl). }
  apply run_cases in H as [(total & s2 & H2 & H) | [(e & H2 & ->) | (code & H2 & ->)]];
    destruct (seeds_fill_tables c _ _ _ H2) as (filling & T2 & F2 & X2 & N2).
  2: { exists (PgClientQuery truncate_sql [] :: filling).
       repeat apply conj; [| now constructor | discriminate | discriminate].
       rewrite T2, T1, T0. repeat (rewrite <- app_assoc; cbn [app]). reflexivity. }
  2: { exfalso. exact (X2 code eq_refl). }
  destruct (N2 total eq_refl) as [_ S2].
  apply run_cases in H as [(r3 & s3 & H3 & H) | [(e & H3 & ->) | (code & H3 & ->)]];
    apply db_query_log in H3 as [T3 X3].
  3: { exfalso. exact (X3 code eq_refl). }
  - injection H as <- <-.
    exists (PgClientQuery truncate_sql [] :: filling ++ [PgClientQuery "COMMIT" []])%list.
    repeat apply conj.
    + unfold log in *. cbn [seed_pg]. rewrite T3, T2, T1, T0.
      repeat (rewrite <- app_assoc; cbn [app]). reflexivity.
    + constructor; [exact Htruncate |]. apply Forall_app. split; [exact F2 | now constructor].
    + discriminate.
    + intros x _. now exists filling.
  - exists (PgClientQuery truncate_sql [] :: filling ++ [PgClientQuery "COMMIT" []])%list.
    repeat apply conj.
    + rewrite T3, T2, T1, T0. repeat (rewrite <- app_assoc; cbn [app]). reflexivity.
    + constructor; [exact Htruncate |]. apply Forall_app. split; [exact F2 | now constructor].
    + discriminate.
    + discriminate.
Qed.

(** [main] once the configuration is known: the shape of the calls. *)
Lemma run_spec (size : string) (c : config) s (cr : completion unit) s' :
  run pg faker size c s = (cr, s') ->
  (forall code, cr <> Exit code) /\
  ((log s' = (log s ++ [PgConnect])%list /\ exists e, cr = Throw e) \/
   exists stmts final rest,
     log s' = (log s ++ PgConnect :: PgClientQuery "BEGIN" [] :: stmts
                     ++ PgClientQuery final [] :: PgRelease :: rest)%list /\
     Forall statement stmts /\
     (final = "COMMIT" \/ final = "ROLLBACK") /\
     (rest = [] \/ rest = [PgEnd]) /\
     (final = "ROLLBACK" -> exists e, cr = Throw e) /\
     (forall x, cr = Normal x ->
                final = "COMMIT" /\ rest = [PgEnd] /\
                exists filling, stmts = PgClientQuery truncate_sql [] :: filling /\
                                seeded_rows filling = seeded_for faker c)).
Proof.
  unfold run, bind at 1, console_log, stdout_write. cbn iota.
  unfold bind at 1, db at 1, pool_connect. cbn [seed_pg seed_out seed_err pg_world pg_log].
  destruct (pg_connect pg (pg_world (seed_pg s))) as [[e |] w0]; cbn [finished].
  { intros H. injection H as <- <-. split; [discriminate |]. left. unfold log. cbn [seed_pg pg_log].
    eauto. }
  unfold try_finally, try_catch.
  match goal with
  | |- context [body pg faker c ?s0] =>
      destruct (body pg faker c s0) as [[x | e | code] s2] eqn:Hbody;
      apply seed_body_spec in Hbody as (stmts & T & F & Hexit & Hnormal);
      unfold log in T; cbn [seed_pg pg_log] in T
  end.
  - destruct (Hnormal x eq_refl) as (filling & -> & Hrows).
    apply Forall_cons_iff in F as [Ftruncate F]. apply Forall_app in F as [Ffilling _].
    unfold bind, db, client_release, pool_end.
    destruct (pg_release pg (pg_world (seed_pg s2))) as [[e |] w3];
      cbn [finished seed_pg seed_out seed_err pg_world pg_log].
    + intros H. injection H as <- <-. split; [discriminate |]. right.
      exists (PgClientQuery truncate_sql [] :: filling), "COMMIT", [].
      unfold log. cbn [seed_pg pg_log]. rewrite T.
      repeat apply conj; [| now constructor | now left | now left | discriminate | discriminate].
      repeat (rewrite <- app_assoc; cbn [app]). reflexivity.
    + destruct (pg_end pg w3) as [[e |] w4]; cbn [finished];
        intros H; injection H as <- <-; (split; [discriminate |]); right;
        exists (PgClientQuery truncate_sql [] :: filling), "COMMIT", [PgEnd];
        unfold log; cbn [seed_pg pg_log]; rewrite T;
        (repeat apply conj;
         [repeat (rewrite <- app_assoc; cbn [app]); reflexivity
         | now constructor | now left | now right | discriminate |]).
      * discriminate.
      * intros y _. repeat apply conj; [reflexivity | reflexivity |]. now exists filling.
  - assert (Hclose : forall (e0 : exn) (s3 : SeedState World),
               log s3 = (log s2 ++ [PgClientQuery "ROLLBACK" []])%list ->
               (let (c0, s4) := (db (client_release pg) ;; db (pool_end pg)) s3 in
                match c0 with
                | Normal _ => (Throw e0, s4)
                | Throw e1 => (Throw e1, s4)
                | Exit code => (@Exit unit code, s4)
                end) = (cr, s') ->
               exists rest,
                 log s' = (log s2 ++ PgClientQuery "ROLLBACK" [] :: PgRelease :: rest)%list /\
                 (rest = [] \/ rest = [PgEnd]) /\ exists e1, cr = Throw e1).
    { intros e0 s3 T3. unfold bind, db, client_release, pool_end.
      destruct (pg_release pg (pg_world (seed_pg s3))) as [[e1 |] w4];
        cbn [finished seed_pg seed_out seed_err pg_world pg_log].
      - intros H. injection H as <- <-. exists []. unfold log in *. cbn [seed_pg pg_log].
        rewrite T3, <- app_assoc. eauto.
      - destruct (pg_end pg w4) as [[e2 |] w5]; cbn [finished];
          intros H; injection H as <- <-; exists [PgEnd]; unfold log in *;
          cbn [seed_pg pg_log]; rewrite T3; repeat (rewrite <- app_assoc; cbn [app]); eauto. }
    unfold bind at 1, db at 1, client_query, throw.
    destruct (pg_client_query pg "ROLLBACK" [] (pg_world (seed_pg s2))) as [[e' | r] w3];
      cbn [settled]; intros H; apply Hclose in H; try reflexivity;
      destruct H as (rest & T' & Hrest & Hthrow);
      (split; [destruct Hthrow as [e1 ->]; discriminate |]); right;
      exists stmts, "ROLLBACK", rest; unfold log in *; rewrite T', T;
      (repeat apply conj;
       [repeat (rewrite <- app_assoc; cbn [app]); reflexivity
       | exact F | now right | exact Hrest | intros _; exact Hthrow
       | intros x Hx; destruct Hthrow as [e1 He1]; rewrite He1 in Hx; discriminate]).
  - exfalso. exact (Hexit code eq_refl).
Qed.

(** X17. The seed script never leaves its transaction open or its client
    checked out, whatever the size asked for, the random data and the
    answers of the database. The process ends with status 0 or 1. A size
    that names nothing ends it with status 1 before any call to the
    database. Otherwise, if no client can be had, nothing else is
    attempted; if one is had, it is sent [BEGIN] first, then only
    statements with as many parameters as placeholders, its last
    statement is [COMMIT] or [ROLLBACK], it is released exactly once, and
    the pool is ended right after unless the release failed. A
    [ROLLBACK] means status 1; status 0 means [COMMIT] was the last
    statement and the pool was ended. *)
Theorem seed_transaction_closed (SEED_SIZE : option string) s (c : completion unit) s' :
  program pg faker SEED_SIZE s = (c, s') ->
  (c = Normal tt \/ c = Exit 1%Z) /\
  match cfg (SIZE SEED_SIZE) with
  | NoSize => log s' = log s /\ c = Exit 1%Z
  | _ =>
      (log s' = (log s ++ [PgConnect])%list /\ c = Exit 1%Z) \/
      exists stmts final rest,
        log s' = (log s ++ PgConnect :: PgClientQuery "BEGIN" [] :: stmts
                        ++ PgClientQuery final [] :: PgRelease :: rest)%list /\
        Forall statement stmts /\
        (final = "COMMIT" \/ final = "ROLLBACK") /\
        (rest = [] \/ rest = [PgEnd]) /\
        (final = "ROLLBACK" -> c = Exit 1%Z) /\
        (c = Normal tt -> final = "COMMIT" /\ rest = [PgEnd])
  end.
Proof.
  unfold program, try_catch, main.
  assert (Hshape : forall c0,
             c0 <> NoSize ->
             match run pg faker (SIZE SEED_SIZE) c0 s with
             | (Throw e, s1) => (console_error (exn_text e) ;; process_exit 1) s1
             | other => other
             end = (c, s') ->
             (c = Normal tt \/ c = Exit 1%Z) /\
             ((log s' = (log s ++ [PgConnect])%list /\ c = Exit 1%Z) \/
              exists stmts final rest,
                log s' = (log s ++ PgConnect :: PgClientQuery "BEGIN" [] :: stmts
                                ++ PgClientQuery final [] :: PgRelease :: rest)%list /\
                Forall statement stmts /\
                (final = "COMMIT" \/ final = "ROLLBACK") /\
                (rest = [] \/ rest = [PgEnd]) /\
                (final = "ROLLBACK" -> c = Exit 1%Z) /\
                (c = Normal tt -> final = "COMMIT" /\ rest = [PgEnd]))).
  { intros c0 _.
    destruct (run pg faker (SIZE SEED_SIZE) c0 s) as [cr s1] eqn:Hrun.
    apply run_spec in Hrun as [Hexit Hrun].
    destruct cr as [[] | e | code]; [| | exfalso; exact (Hexit code eq_refl)].
    - intros H. injection H as <- <-. split; [now left |].
      destruct Hrun as [[_ [e He]] | (stmts & final & rest & T & F & Hf & Hr & Hrb & Hn)];
        [discriminate |].
      right. exists stmts, final, rest. repeat apply conj; try assumption.
      + intros ->. destruct (Hrb eq_refl) as [e He]. discriminate.
      + intros _. destruct (Hn tt eq_refl) as (-> & -> & _). now split.
    - unfold bind, console_error, process_exit. intros H. injection H as <- <-.
      split; [now right |]. unfold log in *. cbn [seed_pg].
      destruct Hrun as [[T _] | (stmts & final & rest & T & F & Hf & Hr & Hrb & Hn)];
        [now left |].
      right. exists stmts, final, rest. repeat apply conj; try assumption.
      + reflexivity.
      + discriminate. }
  destruct (cfg (SIZE SEED_SIZE)) as [d | key |] eqn:Hcfg.
  - intros H. now apply (Hshape (Size d)).
  - intros H. now apply (Hshape (InheritedMember key)).
  - unfold throw, bind, console_error, process_exit. intros H. injection H as <- <-.
    split; [now right |]. now split.
Qed.

Lemma sizes_hold_user_500 (size : string) (d : DataSize) :
  cfg size = Size d -> 500 <= users d.
Proof.
  unfold cfg, dataSizes. cbn [find fst snd].
  destruct (String.eqb "S" size); [intros H; injection H as <-; cbn; lia |].
  destruct (String.eqb "M" size); [intros H; injection H as <-; cbn; lia |].
  destruct (String.eqb "L" size); [intros H; injection H as <-; cbn; lia |].
  destruct (mem size Object_prototype_keys); discriminate.
Qed.

(** X18. A run of the seed script that ends with status 0 at one of the
    configured sizes has emptied the tables first and then, within its
    one committed transaction, inserted as many products as the size
    asks for and, after them, the users [user_1@example.com],
    [user_2@example.com], ... up to the number the size asks for, each
    once and in this order, however the rows are cut into batches;
    [user_500@example.com], the user the benchmark looks up by email, is
    among them. *)
Theorem seed_rows_complete (SEED_SIZE : option string) (d : DataSize) s s' :
  program pg faker SEED_SIZE s = (Normal tt, s') ->
  cfg (SIZE SEED_SIZE) = Size d ->
  exists filling,
    log s' = (log s ++ PgConnect :: PgClientQuery "BEGIN" []
                    :: PgClientQuery truncate_sql [] :: filling
                    ++ [PgClientQuery "COMMIT" []; PgRelease; PgEnd])%list /\
    seeded_rows filling
    = (repeat Product (Z.to_nat (products d))
       ++ map (fun k => User (PText (email faker k))) (z_range 1 (Z.to_nat (users d))))%list /\
    In (User (PText "user_500@example.com")) (seeded_rows filling).
Proof.
  unfold program, try_catch, main. intros H Hcfg.
  pose proof (sizes_hold_user_500 _ _ Hcfg) as Husers. rewrite Hcfg in H.
  destruct (run pg faker (SIZE SEED_SIZE) (Size d) s) as [cr s1] eqn:Hrun.
  apply run_spec in Hrun as [Hexit Hrun].
  destruct cr as [[] | e | code].
  2: { unfold bind, console_error, process_exit in H. discriminate. }
  2: { discriminate. }
  injection H as <-.
  destruct Hrun as [[_ [e He]] | (stmts & final & rest & T & F & Hf & Hr & Hrb & Hn)];
    [discriminate |].
  destruct (Hn tt eq_refl) as (-> & -> & filling & -> & Hrows).
  exists filling. cbn [seeded_for] in Hrows. repeat apply conj.
  - rewrite T. cbn [app]. reflexivity.
  - exact Hrows.
  - rewrite Hrows. apply in_or_app. right.
    change (User (PText "user_500@example.com"))
      with ((fun k => User (PText (email faker k))) 500).
    apply in_map. unfold z_range.
    replace 500 with (1 + Z.of_nat 499) by reflexivity.
    apply (in_map (fun k => 1 + Z.of_nat k)). apply in_seq. lia.
Qed.

(** X19. A size that is the name of a member of [Object.prototype]
    ([constructor], [toString], ...) is taken for a configuration with
    no numbers in it: a run that then ends with status 0 has emptied the
    tables and committed without inserting a single product or user. *)
Theorem inherited_size_seeds_nothing (SEED_SIZE : option string) (key : string) s s' :
  program pg faker SEED_SIZE s = (Normal tt, s') ->
  cfg (SIZE SEED_SIZE) = InheritedMember key ->
  exists filling,
    log s' = (log s ++ PgConnect :: PgClientQuery "BEGIN" []
                    :: PgClientQuery truncate_sql [] :: filling
                    ++ [PgClientQuery "COMMIT" []; PgRelease; PgEnd])%list /\
    seeded_rows filling = [].
Proof.
  unfold program, try_catch, main. intros H Hcfg. rewrite Hcfg in H.
  destruct (run pg faker (SIZE SEED_SIZE) (InheritedMember key) s) as [cr s1] eqn:Hrun.
  apply run_spec in Hrun as [Hexit Hrun].
  destruct cr as [[] | e | code].
  2: { unfold bind, console_error, process_exit in H. discriminate. }
  2: { discriminate. }
  injection H as <-.
  destruct Hrun as [[_ [e He]] | (stmts & final & rest & T & F & Hf & Hr & Hrb & Hn)];
    [discriminate |].
  destruct (Hn tt eq_refl) as (-> & -> & filling & -> & Hrows).
  exists filling. split; [| exact Hrows]. rewrite T. cbn [app]. reflexivity.
Qed.

End ScriptFacts.

Lemma seed_transaction_closed_witness :
  fst Sample.failed_run = Normal tt \/ fst Sample.failed_run = Exit 1%Z.
Proof.
  assert (H : program (RawSql.Sample.failing 12) Sample.faker (Some "S") Sample.start
              = (fst Sample.failed_run, snd Sample.failed_run))
    by (vm_compute; reflexivity).
  exact (proj1 (seed_transaction_closed RawSql.Sample.World RawSql.Sample.Row
                  (RawSql.Sample.failing 12) Sample.faker (Some "S") Sample.start
                  (fst Sample.failed_run) (snd Sample.failed_run) H)).
Defined.

Lemma seed_rows_complete_witness :
  exists filling,
    log (snd Sample.small_run)
    = (log Sample.start ++ PgConnect :: PgClientQuery "BEGIN" []
           :: PgClientQuery truncate_sql [] :: filling
           ++ [PgClientQuery "COMMIT" []; PgRelease; PgEnd])%list /\
    seeded_rows filling
    = (repeat Product (Z.to_nat 500)
       ++ map (fun k => User (PText (email Sample.faker k))) (z_range 1 (Z.to_nat 1000)))%list /\
    In (User (PText "user_500@example.com")) (seeded_rows filling).
Proof.
  assert (H : program RawSql.Sample.pg Sample.faker (Some "S") Sample.start
              = (Normal tt, snd Sample.small_run))
    by (vm_compute; reflexivity).
  exact (seed_rows_complete RawSql.Sample.World RawSql.Sample.Row RawSql.Sample.pg
           Sample.faker (Some "S") {| users := 1000; products := 500; ordersPerUser := 2 |}
           Sample.start (snd Sample.small_run) H eq_refl).
Defined.

Lemma inherited_size_seeds_nothing_witness :
  exists filling,
    log (snd Sample.inherited_run)
    = (log Sample.start ++ PgConnect :: PgClientQuery "BEGIN" []
           :: PgClientQuery truncate_sql [] :: filling
           ++ [PgClientQuery "COMMIT" []; PgRelease; PgEnd])%list /\
    seeded_rows filling = [].
Proof.
  assert (H : program RawSql.Sample.pg Sample.faker (Some "constructor") Sample.start
              = (Normal tt, snd Sample.inherited_run))
    by (vm_compute; reflexivity).
  exact (inherited_size_seeds_nothing RawSql.Sample.World RawSql.Sample.Row RawSql.Sample.pg
           Sample.faker (Some "constructor") "constructor"
           Sample.start (snd Sample.inherited_run) H eq_refl).
Defined.

End SeedFacts.

(* ================================================================== *)
(** * Robustness of the benchmark on the shipped cases *)
(* ================================================================== *)

Section ShippedCases.

Variable World : Type.
Variable host : Host World.

Implicit Types (s : HState World) (adapter : DbAdapter World).

(** No shipped case has a teardown, and the one setup there is cannot
    fail. *)
Lemma shipped_case_lifecycle adapter (caseName : string) :
  In caseName (map name (Registry.cases World)) ->
  truthy (caseMap (Registry.cases World) caseName) = true /\
  cannot_fail adapter (get_setup (caseMap (Registry.cases World) caseName)) /\
  cannot_fail adapter (get_teardown (caseMap (Registry.cases World) caseName)).
Proof.
  intros H. cbn [map name Registry.cases Registry.bench] in H.
  repeat (destruct H as [<- | H];
          [split; [vm_compute; reflexivity
                  | split; [vm_compute; try exact I; intros; reflexivity
                           | vm_compute; exact I]] |]).
  destruct H.
Qed.

Lemma shipped_case_runs adapter (caseName adapterName : string) (warmup iterations : Z) s :
  In caseName (map name (Registry.cases World)) ->
  exists wk mk ds s',
    runCase host (Registry.cases World) adapter caseName adapterName warmup iterations s
    = (Normal (assemble adapterName caseName warmup iterations ds (count_failed mk)), s') /\
    List.length wk = Z.to_nat warmup /\
    List.length mk = Z.to_nat iterations /\
    List.length ds = Z.to_nat iterations /\
    run_outcomes (trace s') = (run_outcomes (trace s) ++ wk ++ mk)%list.
Proof.
  intros Hin.
  destruct (shipped_case_lifecycle adapter caseName Hin) as (Hknown & Hsetup & Hteardown).
  destruct (runCase_reaches_teardown World host (Registry.cases World) adapter caseName
              adapterName warmup iterations s Hknown Hsetup)
    as (pre & wk & mk & ds & post & c & s' & Hrun & T & Hpre & Hpost & Lwk & Lmk & Lds
        & _ & Hc & _).
  rewrite (Hc Hteardown) in Hrun. cbn [and_then] in Hrun.
  exists wk, mk, ds, s'. repeat apply conj; try assumption.
  rewrite T, !run_outcomes_app, !run_outcomes_runs.
  assert (Epre : run_outcomes pre = []) by (destruct Hpre as [-> | ->]; reflexivity).
  assert (Epost : run_outcomes post = []).
  { destruct Hpost as [-> | [ok ->]]; reflexivity. }
  now rewrite Epre, Epost, app_nil_r.
Qed.

Lemma shipped_case_no_teardown (caseName : string) :
  In caseName (map name (Registry.cases World)) ->
  get_teardown (caseMap (Registry.cases World) caseName) = None.
Proof.
  intros H. cbn [map name Registry.cases Registry.bench] in H.
  repeat (destruct H as [<- | H]; [vm_compute; reflexivity |]).
  destruct H.
Qed.

(** X20. A shipped case cannot abort the benchmark: whatever the adapter
    does, also when every one of its operations rejects, [runCase] of a
    case of the shipped registry returns a result.  No shipped case has a
    teardown and the one setup there is fulfils; the run makes [warmup]
    calls of the operation of the case and then [iterations] timed calls,
    one after the other from the world the setup left, and ends in the
    state the last of them leaves; the timings of the result are the
    durations of the timed calls, and [errors] is the number of timed
    calls that rejected. *)
Theorem shipped_case_cannot_abort adapter (caseName adapterName : string)
        (warmup iterations : Z) s :
  In caseName (map name (Registry.cases World)) ->
  let bench := caseMap (Registry.cases World) caseName in
  let call := call_run bench adapter in
  let '(o1, c1, w1) := call_hook (get_setup bench) adapter [] (world s) in
  let '(wk, c2, w2) := calls call (Z.to_nat warmup) c1 w1 in
  let '(samples, c3, w3) :=
    timed_calls (performance_now host) call (Z.to_nat iterations) c2 w2 in
  o1 = Fulfilled /\
  get_teardown bench = None /\
  List.length wk = Z.to_nat warmup /\
  List.length samples = Z.to_nat iterations /\
  exists evs,
    runCase host (Registry.cases World) adapter caseName adapterName warmup iterations s
    = (Normal (assemble adapterName caseName warmup iterations
                        (map fst samples) (count_failed (map snd samples))),
       mkH w3 c3 (trace s ++ evs)) /\
    run_outcomes evs = (wk ++ map snd samples)%list.
Proof.
  intros Hin bench call.
  destruct (shipped_case_lifecycle adapter caseName Hin) as (Hknown & Hsetup & _).
  pose proof (shipped_case_no_teardown caseName Hin) as Hnone. fold bench in Hnone.
  pose proof (runCase_schedule World host (Registry.cases World) adapter caseName adapterName
                warmup iterations s Hknown) as H.
  cbv zeta in H. fold bench call in H.
  pose proof (call_hook_cannot_fail World (get_setup bench) adapter [] (world s) Hsetup) as H1.
  destruct (call_hook (get_setup bench) adapter [] (world s)) as [[o1 c1] w1].
  cbn [fst] in H1. subst o1.
  pose proof (calls_length World call (Z.to_nat warmup) c1 w1) as Lw.
  destruct (calls call (Z.to_nat warmup) c1 w1) as [[wk c2] w2]. cbn [fst] in Lw.
  pose proof (timed_calls_length World (performance_now host) call (Z.to_nat iterations) c2 w2)
    as Lm.
  destruct (timed_calls (performance_now host) call (Z.to_nat iterations) c2 w2)
    as [[samples c3] w3]. cbn [fst] in Lm.
  rewrite Hnone in H. cbn [call_hook hook_events] in H.
  split; [reflexivity |]. split; [exact Hnone |]. split; [exact Lw |]. split; [exact Lm |].
  eexists. split; [exact H |].
  rewrite !run_outcomes_app, !run_outcomes_runs.
  rewrite run_outcomes_hook by (intros ok; reflexivity).
  cbn [app run_outcomes]. now rewrite app_nil_r.
Qed.

End ShippedCases.

Lemma shipped_case_cannot_abort_witness :
  exists evs,
    runCase Sample.host (Registry.cases Sample.World) (Sample.adapter 3 Sample.refused)
            "createOrderWithItems" "knex" 1 3 Sample.start
    = (Normal (assemble "knex" "createOrderWithItems" 1 3 [3; 3; 3]%Q 3),
       mkH 12 [] (trace Sample.start ++ evs)) /\
    run_outcomes evs = [false; false; false; false].
Proof.
  pose proof (shipped_case_cannot_abort Sample.World Sample.host
                (Sample.adapter 3 Sample.refused) "createOrderWithItems" "knex" 1 3
                Sample.start) as H.
  cbv zeta in H.
  assert (Hin : In "createOrderWithItems" (map name (Registry.cases Sample.World)))
    by (cbn; tauto).
  specialize (H Hin). vm_compute in H.
  destruct H as (_ & _ & _ & _ & evs & Hrun & Hout).
  exists evs. split; [vm_compute; exact Hrun | exact Hout].
Defined.

Section Robustness.

Variable World : Type.
Variable host : Host World.

Implicit Types (s : HState World) (adapter : DbAdapter World).

Lemma bind_log {B} (e : event) (k : unit -> M (HState World) B) s :
  bind (log e) k s = k tt (mkH (world s) (ctx s) (trace s ++ [e])).
Proof. reflexivity. Qed.

Lemma validate_adapters_known (adapterNames : list string) s :
  Forall (fun a => In a ADAPTER_NAMES) adapterNames ->
  validate_adapters adapterNames s = (Normal tt, s).
Proof.
  intros H. induction H as [| a rest Ha _ IH]; [reflexivity |].
  cbn [validate_adapters].
  assert (E : mem a ADAPTER_NAMES = true).
  { unfold mem. apply existsb_exists. exists a. split; [exact Ha | apply String.eqb_refl]. }
  rewrite E. exact IH.
Qed.

Lemma validate_cases_registered (cases : list (BenchCase World)) (caseNames : list string) s :
  Forall (fun n => In n (map name cases)) caseNames ->
  validate_cases cases caseNames s = (Normal tt, s).
Proof.
  intros H. induction H as [| n rest Hn _ IH]; [reflexivity |].
  cbn [validate_cases]. unfold caseMap.
  destruct (own_case_complete World cases n Hn) as [c ->]. cbn [truthy]. exact IH.
Qed.

Lemma createAdapter_succeeds (adapterName : string) s :
  dependable host -> In adapterName ADAPTER_NAMES ->
  exists adapter s',
    createAdapter host adapterName s = (Normal adapter, s') /\
    forall w0, fst (close adapter w0) = Fulfilled.
Proof.
  intros (Hnew & _) Hin.
  assert (Hconstruct : forall new,
             In new [new_RawSqlAdapter World host; new_QueryBuilderAdapter World host;
                     new_DataAccessLayerAdapter World host; new_PrismaAdapter World host] ->
             exists adapter s',
               construct World adapterName new s = (Normal adapter, s') /\
               forall w0, fst (close adapter w0) = Fulfilled).
  { intros new Hn. destruct (Hnew new Hn (world s)) as (adapter & w' & E & Hclose).
    unfold construct. rewrite E. eauto. }
  unfold ADAPTER_NAMES in Hin.
  destruct Hin as [<- | [<- | [<- | [<- | []]]]]; unfold createAdapter; cbn [String.eqb];
    apply Hconstruct; cbn [In]; auto.
Qed.

Lemma adapter_close_fulfils (adapterName : string) adapter s :
  (forall w0, fst (close adapter w0) = Fulfilled) ->
  exists s', adapter_close adapterName adapter s = (Normal tt, s').
Proof.
  intros Hclose. unfold adapter_close. specialize (Hclose (world s)).
  destruct (close adapter (world s)) as [o w]. cbn [fst] in Hclose. subst o.
  eexists. reflexivity.
Qed.

Lemma cases_loop_completes adapter (adapterName : string) (caseNames : list string)
      (warmup iterations : Z) (allResults : list RunResult.t) s :
  Forall (fun n => In n (map name (Registry.cases World))) caseNames ->
  Forall defined_stats allResults ->
  exists results s',
    cases_loop host (Registry.cases World) adapter adapterName caseNames warmup iterations
               allResults s
    = (Normal results, s') /\
    Forall defined_stats results.
Proof.
  intros Hnames. revert allResults s.
  induction Hnames as [| caseName rest Hname _ IH]; intros allResults s Hdefined.
  - exists allResults, s. now split.
  - cbn [cases_loop]. unfold stdout_write, console_log. rewrite bind_log.
    match goal with
    | |- context [bind (runCase host ?cases adapter caseName adapterName warmup iterations) ?k ?s0] =>
        destruct (shipped_case_runs World host adapter caseName adapterName warmup iterations
                    s0 Hname) as (wk & mk & ds & s1 & Hrun & _);
        rewrite (bind_normal _ k s0 s1 _ Hrun)
    end.
    pose proof (assemble_defined adapterName caseName warmup iterations ds (count_failed mk))
      as Hr.
    destruct (progress_line_defined World host _ Hr) as [line Hline].
    unfold lift at 1. unfold bind at 1. rewrite Hline. rewrite bind_log.
    apply IH. apply Forall_app. split; [exact Hdefined | now constructor].
Qed.

Lemma adapters_loop_completes (adapterNames caseNames : list string)
      (warmup iterations : Z) (allResults : list RunResult.t) s :
  dependable host ->
  Forall (fun a => In a ADAPTER_NAMES) adapterNames ->
  Forall (fun n => In n (map name (Registry.cases World))) caseNames ->
  Forall defined_stats allResults ->
  exists results s',
    adapters_loop host (Registry.cases World) adapterNames caseNames warmup iterations
                  allResults s
    = (Normal results, s') /\
    Forall defined_stats results.
Proof.
  intros Hhost Hadapters Hcases. revert allResults s.
  induction Hadapters as [| adapterName rest Hname _ IH]; intros allResults s Hdefined.
  - exists allResults, s. now split.
  - cbn [adapters_loop]. unfold console_log. rewrite bind_log.
    match goal with
    | |- context [bind (createAdapter host adapterName) ?k ?s0] =>
        destruct (createAdapter_succeeds adapterName s0 Hhost Hname)
          as (adapter & s1 & Hcreate & Hclose);
        rewrite (bind_normal _ k s0 s1 _ Hcreate)
    end.
    destruct (cases_loop_completes adapter adapterName caseNames warmup iterations
                allResults s1 Hcases Hdefined) as (results & s2 & Hloop & Hresults).
    destruct (adapter_close_fulfils adapterName adapter s2 Hclose) as [s3 Hclosed].
    assert (Htry : try_finally
                     (cases_loop host (Registry.cases World) adapter adapterName caseNames
                                 warmup iterations allResults)
                     (adapter_close adapterName adapter) s1
                   = (Normal results, s3)).
    { unfold try_finally. now rewrite Hloop, Hclosed. }
    rewrite (bind_normal _ _ s1 s3 _ Htry). rewrite bind_log.
    now apply IH.
Qed.

(** X21. The benchmark completes on a database that fails: if the
    adapters can be constructed and closed and the file system accepts
    the report, then for every selection of registered adapters and
    shipped cases (the default selection included) the program returns
    normally, whatever the operations of the adapters do, also when every
    one of them rejects at every call. *)
Theorem benchmark_completes (adapterNames : list string) (caseOption : option (list string))
        (warmup iterations : Z) (outDir : string) s :
  dependable host ->
  selectable World adapterNames caseOption ->
  exists s',
    program host (Registry.cases World) adapterNames caseOption warmup iterations outDir s
    = (Normal tt, s').
Proof.
  intros Hhost [Hadapters Hcases].
  pose proof Hhost as (_ & Hmkdir & Hwrite).
  set (caseNames := match caseOption with
                    | Some names => names
                    | None => map name (Registry.cases World)
                    end).
  assert (Hselected : Forall (fun n => In n (map name (Registry.cases World))) caseNames).
  { unfold caseNames. destruct caseOption as [names |]; [exact Hcases |].
    apply Forall_forall. auto. }
  assert (Hwritten : forall path data s0,
             exists s1, writeFileSync World host path data s0 = (Normal tt, s1)).
  { intros path data s0. unfold writeFileSync. specialize (Hwrite path data (world s0)).
    destruct (fs_writeFileSync World host path data (world s0)) as [r w].
    cbn [fst] in Hwrite. subst r. eexists. reflexivity. }
  assert (Hmain : exists s',
             main host (Registry.cases World) adapterNames caseOption warmup iterations outDir s
             = (Normal tt, s')).
  { unfold main. fold caseNames.
    rewrite (bind_normal _ _ s s tt (validate_adapters_known adapterNames s Hadapters)).
    rewrite (bind_normal _ _ s s tt
               (validate_cases_registered (Registry.cases World) caseNames s Hselected)).
    assert (Hdir : exists s1, mkdirSync World host outDir s = (Normal tt, s1)).
    { unfold mkdirSync. specialize (Hmkdir outDir (world s)).
      destruct (fs_mkdirSync World host outDir (world s)) as [r w].
      cbn [fst] in Hmkdir. subst r. eexists. reflexivity. }
    destruct Hdir as [s1 Hdir]. rewrite (bind_normal _ _ s s1 tt Hdir).
    unfold console_log. rewrite !bind_log.
    match goal with
    | |- context [bind (adapters_loop host ?cases adapterNames caseNames warmup iterations [])
                       ?k ?s0] =>
        destruct (adapters_loop_completes adapterNames caseNames warmup iterations [] s0
                    Hhost Hadapters Hselected (Forall_nil _))
          as (results & s2 & Hloop & Hresults);
        rewrite (bind_normal _ k s0 s2 _ Hloop)
    end.
    unfold toISOString at 1. unfold bind at 1.
    destruct (Date_toISOString World host (world s2)) as [iso w3].
    match goal with
    | |- context [bind (writeFileSync World host ?path ?data) ?k ?s0] =>
        destruct (Hwritten path data s0) as [s4 Hjson];
        rewrite (bind_normal _ k s0 s4 tt Hjson)
    end.
    destruct (toCsv_defined (Number_toString_exp host) results Hresults) as [csv Hcsv].
    unfold lift at 1. unfold bind at 1. rewrite Hcsv.
    match goal with
    | |- context [bind (writeFileSync World host ?path ?data) ?k ?s0] =>
        destruct (Hwritten path data s0) as [s5 Hsummary];
        rewrite (bind_normal _ k s0 s5 tt Hsummary)
    end.
    eexists. reflexivity. }
  destruct Hmain as [s' Hmain]. exists s'. unfold program, try_catch. now rewrite Hmain.
Qed.

End Robustness.

Lemma benchmark_completes_witness :
  exists s',
    program Sample.host (Registry.cases Sample.World) ["raw"; "knex"]
            (Some ["findUserById"; "createOrderWithItems"]) 1 2 "out" Sample.start
    = (Normal tt, s').
Proof.
  apply (benchmark_completes Sample.World Sample.host ["raw"; "knex"]
           (Some ["findUserById"; "createOrderWithItems"]) 1 2 "out" Sample.start).
  - split; [| split].
    + intros new Hnew w. cbn [In] in Hnew.
      destruct Hnew as [<- | [<- | [<- | [<- | []]]]]; eexists _, _;
        (split; [reflexivity | intros w0; reflexivity]).
    + intros dir w. reflexivity.
    + intros path data w. reflexivity.
  - split; [repeat constructor; cbn; tauto | repeat constructor; cbn; tauto].
Defined.
